(** * LotteryModule: room lottery with a same-gender rule for shared rooms

    A shallow embedding of [js/lottery.js] and theorems about it.  The file
    holds two versions of the module [LotteryModule], one after the other;
    the embedding is of the second, the later one (from line 236 on), in
    which a shared group that neither pool can fill is moved to the single
    slots.  With it come the two users of the module: the loop of
    [ExcelModule.readFile] ([js/excel.js]) that makes the rows of the
    input from the rows of a sheet, and the handlers of the page
    ([js/app.js]) that call the module.

    Conventions of the embedding.
    - A JavaScript string is a [string] of bytes (UTF-8).  The only
      character tests of the source are against ['-'] and the ASCII letters,
      which are single bytes that never occur inside a multi-byte sequence,
      so splitting and matching agree with the source on every string.
      ([trim], used by [readFile] only, tests for white space: there a
      character is matched by the bytes of its encoding.)
    - [Math.random()] is a draw from an explicit random source that the
      functions thread through; all theorems quantify over every source.
    - An array is a [list]; a sparse array is a list of [option]s, [None]
      standing for a hole.  An in-place update of an array the function has
      just created is a functional update of the list.
    - A [throw] is the result [None] of a function into [option]. *)

From Stdlib Require Import Ascii String NArith.
From stdpp Require Import base option list sorting strings gmap.

Open Scope string_scope.
Open Scope nat_scope.
Open Scope list_scope.

(** ** Strings: [split], [join] and the bedroom pattern *)

Module JsString.

(** [s.split(sep)] for a separator of one character: always at least one
    part, the empty string gives one empty part. *)
Fixpoint split (sep : ascii) (s : string) : list string :=
  match s with
  | EmptyString => [EmptyString]
  | String c rest =>
      if decide (c = sep) then EmptyString :: split sep rest
      else match split sep rest with
           | p :: ps => String c p :: ps
           | [] => [String c EmptyString]
           end
  end.

(** [parts.join(sep)]. *)
Fixpoint join (sep : string) (parts : list string) : string :=
  match parts with
  | [] => EmptyString
  | [p] => p
  | p :: ps => p +:+ sep +:+ join sep ps
  end.

(** The character class [[A-Za-z]]. *)
Definition is_letter (c : ascii) : bool :=
  let n := N_of_ascii c in
  ((65 <=? n) && (n <=? 90) || (97 <=? n) && (n <=? 122))%N.

(** [/^[A-Za-z]$/.test(s)]: exactly one character, a letter. *)
Definition test_single_letter (s : string) : bool :=
  match s with
  | String c EmptyString => is_letter c
  | _ => false
  end.

(** [parts[parts.length - 1]], on a list that is never empty here. *)
Definition last_part (parts : list string) : string :=
  default EmptyString (last parts).

(** [parts.slice(0, -1)]. *)
Definition slice_init (parts : list string) : list string :=
  take (length parts - 1) parts.

End JsString.

(** ** [parseRoomNumber] *)

Record RoomKey := mkRoomKey {
  baseRoom : string;
  bedroom : option string
}.

Definition dash : ascii := "-"%char.

Definition parseRoomNumber (roomNumber : string) : RoomKey :=
  let parts := JsString.split dash roomNumber in
  let lastPart := JsString.last_part parts in
  let isBedroomSuffix := JsString.test_single_letter lastPart in
  if isBedroomSuffix && (4 <? length parts)%nat then
    {| baseRoom := JsString.join "-" (JsString.slice_init parts);
       bedroom := Some lastPart |}
  else
    {| baseRoom := roomNumber; bedroom := None |}.


(** ** The random source *)

(** A source of randomness is the sequence of values [Math.random()] will
    return.  A value [r] in [0, 1) is given by its numerator [d] over
    [2^53]: [r = d / 2^53], a double.  A source that has run dry keeps
    returning 0. *)
Definition rng := list N.

Definition resolution : N := 2 ^ 53.

Definition Math_random (g : rng) : N * rng :=
  match g with
  | [] => (0%N, [])
  | d :: g' => ((d mod resolution)%N, g')
  end.

(** The product of two doubles is their exact product rounded to a double:
    to 53 significant bits, to the nearest, and half way between two to the
    one whose last bit is 0.  [round_to_double m] is that rounding of the
    integer [m]; [unit] is the weight of the last of the 53 bits. *)
Definition round_to_double (m : N) : N :=
  let unit := (2 ^ (N.log2 m - 52))%N in
  let q := (m / unit)%N in
  let r := (m mod unit)%N in
  if (2 * r <? unit)%N then (q * unit)%N
  else if (unit <? 2 * r)%N then ((q + 1) * unit)%N
  else if N.even q then (q * unit)%N
  else ((q + 1) * unit)%N.

(** [Math.floor(r * n)] for the draw of numerator [d]: [r * n] is the
    double nearest to [d * n / 2^53], that is [round_to_double (d * n)]
    over [2^53]. *)
Definition floor_scaled (d : N) (n : nat) : nat :=
  N.to_nat (round_to_double (d * N.of_nat n) / resolution).

(** [r < 0.5] for the draw of numerator [d]. *)
Definition below_half (d : N) : bool := (d <? 2 ^ 52)%N.

(** ** [shuffleArray]: Fisher-Yates, in place *)

(** [[array[i], array[j]] = [array[j], array[i]]].  Both indices are in
    range wherever [shuffleArray] uses it. *)
Definition swap {A} (i j : nat) (array : list A) : list A :=
  match array !! i, array !! j with
  | Some x, Some y => <[j := x]> (<[i := y]> array)
  | _, _ => array
  end.

(** The loop [for (let i = ...; i > 0; i--)], entered at index [i]. *)
Fixpoint shuffle_from {A} (i : nat) (g : rng) (array : list A) : list A * rng :=
  match i with
  | 0 => (array, g)
  | S i' =>
      let '(r, g') := Math_random g in
      let j := floor_scaled r (i + 1) in
      shuffle_from i' g' (swap i j array)
  end.

Definition shuffleArray {A} (g : rng) (array : list A) : list A * rng :=
  shuffle_from (length array - 1) g array.

(** ** Data *)

(** A row of the input, and of the result:
    [{ employeeId, gender, roomNumber }]. *)
Record Entry := mkEntry {
  employeeId : string;
  gender : string;
  roomNumber : string
}.

(** [{ employeeId, gender }], a person waiting in a pool. *)
Module Employee.
Record t := mk { employeeId : string; gender : string }.
End Employee.

(** [{ fullRoom, bedroom, originalIndex }], a slot of a room group. *)
Module RoomInfo.
Record t := mk {
  fullRoom : string;
  bedroom : option string;
  originalIndex : nat
}.
End RoomInfo.

#[global] Instance Entry_eq_dec : EqDecision Entry.
Proof. solve_decision. Defined.
#[global] Instance Employee_eq_dec : EqDecision Employee.t.
Proof. solve_decision. Defined.
#[global] Instance RoomInfo_eq_dec : EqDecision RoomInfo.t.
Proof. solve_decision. Defined.

Definition male : string := "男".
Definition female : string := "女".

(** [JSON.parse(JSON.stringify(data))] on an array of rows of strings: a new
    array of new rows with the same contents. *)
Definition JSON_copy (data : list Entry) : list Entry :=
  (fun d => mkEntry (employeeId d) (gender d) (roomNumber d)) <$> data.

(** ** The object [roomGroups] *)

Module JsObject.

(** The own properties of an object created by [{}], in insertion order. *)
Abbreviation t V := (list (string * V)) (only parsing).

(** The properties every such object inherits from [Object.prototype]. *)
Definition Object_prototype_names : list string :=
  [ "constructor"; "__defineGetter__"; "__defineSetter__"; "hasOwnProperty";
    "__lookupGetter__"; "__lookupSetter__"; "isPrototypeOf";
    "propertyIsEnumerable"; "toString"; "valueOf"; "__proto__";
    "toLocaleString" ].

Inductive value (V : Type) :=
  | Own (v : V)        (* a value the program stored *)
  | Inherited          (* a function or object of [Object.prototype] *)
  | Undefined.
Arguments Own {V} v.
Arguments Inherited {V}.
Arguments Undefined {V}.

Fixpoint own {V} (o : t V) (k : string) : option V :=
  match o with
  | [] => None
  | (k', v) :: o' => if decide (k' = k) then Some v else own o' k
  end.

(** [o[k]]. *)
Definition get {V} (o : t V) (k : string) : value V :=
  match own o k with
  | Some v => Own v
  | None => if decide (k ∈ Object_prototype_names) then Inherited else Undefined
  end.

(** [o[k] = v] for a key that is an own property: the key keeps its place. *)
Fixpoint update {V} (o : t V) (k : string) (v : V) : t V :=
  match o with
  | [] => []
  | (k', v') :: o' =>
      if decide (k' = k) then (k', v) :: o' else (k', v') :: update o' k v
  end.

(** [o[k] = v] for a key that is not an own property: the key is added
    last. *)
Definition add {V} (o : t V) (k : string) (v : V) : t V := o ++ [(k, v)].

(** The value of a string of decimal digits. *)
Definition digit (c : ascii) : option N :=
  let n := N_of_ascii c in
  if ((48 <=? n) && (n <=? 57))%N then Some (n - 48)%N else None.

Fixpoint digits_value (acc : N) (s : string) : option N :=
  match s with
  | EmptyString => Some acc
  | String c rest =>
      match digit c with
      | Some d => digits_value (acc * 10 + d)%N rest
      | None => None
      end
  end.

(** A key is an array index when it is the canonical decimal form of an
    integer of [0 .. 2^32 - 2]. *)
Definition array_index (k : string) : option N :=
  match k with
  | EmptyString => None
  | String c rest =>
      if bool_decide (c = "0"%char) && negb (bool_decide (rest = EmptyString)) then None
      else match digits_value 0 k with
           | Some n => if (n <=? 2 ^ 32 - 2)%N then Some n else None
           | None => None
           end
  end.

Definition index_le {V} (p q : string * V) : Prop :=
  (default 0 (array_index p.1) <= default 0 (array_index q.1))%N.

#[global] Instance index_le_dec {V} (p q : string * V) : Decision (index_le p q).
Proof. unfold index_le. apply _. Defined.

(** [Object.entries(o)]: the array indices in ascending order, then the
    other keys in insertion order. *)
Definition entries {V} (o : t V) : list (string * V) :=
  merge_sort index_le (filter (fun p => is_Some (array_index p.1)) o)
  ++ filter (fun p => ¬ is_Some (array_index p.1)) o.

End JsObject.

(** ** [performLottery] *)

(** [result[i] = v] on a sparse array: an index past the end extends the
    array with holes. *)
Definition array_set {A} (array : list (option A)) (i : nat) (v : A) : list (option A) :=
  if decide (i < length array) then <[i := Some v]> array
  else array ++ replicate (i - length array) None ++ [Some v].

(** The body of [rooms.forEach((room, index) => ...)].  Reading a key that
    [Object.prototype] defines gives a value that is truthy and has no
    [push]: the call throws a [TypeError]. *)
Definition add_room (roomGroups : JsObject.t (list RoomInfo.t)) (index : nat) (room : string)
  : option (JsObject.t (list RoomInfo.t)) :=
  let parsed := parseRoomNumber room in
  let info := RoomInfo.mk room (bedroom parsed) index in
  match JsObject.get roomGroups (baseRoom parsed) with
  | JsObject.Undefined => Some (JsObject.add roomGroups (baseRoom parsed) [info])
  | JsObject.Own roomList =>
      Some (JsObject.update roomGroups (baseRoom parsed) (roomList ++ [info]))
  | JsObject.Inherited => None
  end.

(** [rooms.forEach], from position [index] on. *)
Fixpoint group_rooms (roomGroups : JsObject.t (list RoomInfo.t)) (index : nat) (rooms : list string)
  : option (JsObject.t (list RoomInfo.t)) :=
  match rooms with
  | [] => Some roomGroups
  | room :: rest =>
      roomGroups' ← add_room roomGroups index room;
      group_rooms roomGroups' (S index) rest
  end.

(** [Object.entries(roomGroups).forEach(...)]: groups of two slots or more
    go to [sharedRooms], the slot of the others to [singleRooms].  No group
    is empty ([groups_keyed] below), so [roomList[0]] is a slot. *)
Fixpoint classify (groups : list (string * list RoomInfo.t))
  : list (list RoomInfo.t) * list RoomInfo.t :=
  match groups with
  | [] => ([], [])
  | (_, roomList) :: rest =>
      let '(sharedRooms, singleRooms) := classify rest in
      match roomList with
      | _ :: _ :: _ => (roomList :: sharedRooms, singleRooms)
      | [roomInfo] => (sharedRooms, roomInfo :: singleRooms)
      | [] => (sharedRooms, singleRooms)
      end
  end.

(** Which of the two pools [selectedPool] is an alias of. *)
Inductive pool := MalePool | FemalePool.

#[global] Instance pool_eq_dec : EqDecision pool.
Proof. solve_decision. Defined.

(** The variables the loops of [performLottery] update. *)
Record alloc := mkAlloc {
  maleEmployees : list Employee.t;
  femaleEmployees : list Employee.t;
  result : list (option Entry);
  unassignedSharedRooms : list RoomInfo.t
}.

Definition get_pool (p : pool) (st : alloc) : list Employee.t :=
  match p with MalePool => maleEmployees st | FemalePool => femaleEmployees st end.

Definition set_pool (p : pool) (st : alloc) (l : list Employee.t) : alloc :=
  match p with
  | MalePool => mkAlloc l (femaleEmployees st) (result st) (unassignedSharedRooms st)
  | FemalePool => mkAlloc (maleEmployees st) l (result st) (unassignedSharedRooms st)
  end.

Definition set_result (st : alloc) (r : list (option Entry)) : alloc :=
  mkAlloc (maleEmployees st) (femaleEmployees st) r (unassignedSharedRooms st).

(** The row written for [employee] in the slot [roomInfo]. *)
Definition assignment (employee : Employee.t) (roomInfo : RoomInfo.t) : Entry :=
  {| employeeId := Employee.employeeId employee;
     gender := Employee.gender employee;
     roomNumber := RoomInfo.fullRoom roomInfo |}.

(** The choice of [selectedPool] for a group of [roomCount] slots. *)
Definition select_pool (g : rng) (st : alloc) (roomCount : nat) : option pool * rng :=
  if (roomCount <=? length (maleEmployees st)) && (roomCount <=? length (femaleEmployees st)) then
    let '(r, g') := Math_random g in
    (Some (if below_half r then MalePool else FemalePool), g')
  else if roomCount <=? length (maleEmployees st) then (Some MalePool, g)
  else if roomCount <=? length (femaleEmployees st) then (Some FemalePool, g)
  else (None, g).

(** [for (const roomInfo of roomGroup)] with a selected pool.  [shift()] on
    an empty pool gives [undefined], and reading [employee.employeeId]
    throws. *)
Fixpoint fill_group (p : pool) (roomGroup : list RoomInfo.t) (st : alloc) : option alloc :=
  match roomGroup with
  | [] => Some st
  | roomInfo :: rest =>
      match get_pool p st with
      | [] => None
      | employee :: selectedPool =>
          fill_group p rest
            (set_result (set_pool p st selectedPool)
               (array_set (result st) (RoomInfo.originalIndex roomInfo)
                  (assignment employee roomInfo)))
      end
  end.

(** One round of [for (const roomGroup of sharedRooms)]. *)
Definition assign_shared (g : rng) (st : alloc) (roomGroup : list RoomInfo.t)
  : option (alloc * rng) :=
  let roomCount := length roomGroup in
  let '(selectedPool, g') := select_pool g st roomCount in
  match selectedPool with
  | None =>
      Some (mkAlloc (maleEmployees st) (femaleEmployees st) (result st)
              (unassignedSharedRooms st ++ roomGroup), g')
  | Some p => st' ← fill_group p roomGroup st; Some (st', g')
  end.

Fixpoint shared_loop (g : rng) (st : alloc) (sharedRooms : list (list RoomInfo.t))
  : option (alloc * rng) :=
  match sharedRooms with
  | [] => Some (st, g)
  | roomGroup :: rest =>
      '(st', g') ← assign_shared g st roomGroup;
      shared_loop g' st' rest
  end.

(** [for (const roomInfo of allSingleRooms)]. *)
Fixpoint single_loop (allSingleRooms : list RoomInfo.t) (remainingEmployees : list Employee.t)
    (result : list (option Entry)) : list (option Entry) :=
  match allSingleRooms with
  | [] => result
  | roomInfo :: rest =>
      match remainingEmployees with
      | employee :: remainingEmployees' =>
          single_loop rest remainingEmployees'
            (array_set result (RoomInfo.originalIndex roomInfo) (assignment employee roomInfo))
      | [] => single_loop rest [] result
      end
  end.

(** The variables of [performLottery] when the loop over [sharedRooms] is
    entered. *)
Record prepared := mkPrepared {
  start : alloc;
  sharedRooms : list (list RoomInfo.t);
  singleRooms : list RoomInfo.t
}.

Definition employees_of (data : list Entry) : list Employee.t :=
  (fun d => Employee.mk (employeeId d) (gender d)) <$> data.

(** From the start of [performLottery] to the loop over [sharedRooms]. *)
Definition prepare (g : rng) (originalData : list Entry) : option (prepared * rng) :=
  let data := JSON_copy originalData in
  let employees := employees_of data in
  let rooms := roomNumber <$> data in
  let maleEmployees := filter (fun e => Employee.gender e = male) employees in
  let femaleEmployees := filter (fun e => Employee.gender e = female) employees in
  roomGroups ← group_rooms [] 0 rooms;
  let '(sharedRooms, singleRooms) := classify (JsObject.entries roomGroups) in
  let '(maleEmployees, g) := shuffleArray g maleEmployees in
  let '(femaleEmployees, g) := shuffleArray g femaleEmployees in
  let result := replicate (length data) None in
  let '(sharedRooms, g) := shuffleArray g sharedRooms in
  Some (mkPrepared (mkAlloc maleEmployees femaleEmployees result []) sharedRooms singleRooms, g).

(** The employees and the slots that are left, in the order the last loop
    walks them. *)
Definition single_slots (g : rng) (singleRooms : list RoomInfo.t) (st : alloc)
  : list RoomInfo.t * list Employee.t * rng :=
  let '(remainingEmployees, g) :=
    shuffleArray g (maleEmployees st ++ femaleEmployees st) in
  let '(allSingleRooms, g) :=
    shuffleArray g (singleRooms ++ unassignedSharedRooms st) in
  (allSingleRooms, remainingEmployees, g).

(** The array [result] after the loop over [allSingleRooms]. *)
Definition fill_singles (g : rng) (singleRooms : list RoomInfo.t) (st : alloc)
  : list (option Entry) * rng :=
  let '(allSingleRooms, remainingEmployees, g) := single_slots g singleRooms st in
  (single_loop allSingleRooms remainingEmployees (result st), g).

(** From the end of the loop over [sharedRooms] to the [return]. *)
Definition allocate_single (g : rng) (singleRooms : list RoomInfo.t) (st : alloc)
  : list Entry * rng :=
  let '(result, g) := fill_singles g singleRooms st in
  let finalResult := omap id result in
  shuffleArray g finalResult.

Definition performLottery (g : rng) (originalData : list Entry) : option (list Entry * rng) :=
  '(p, g) ← prepare g originalData;
  '(st, g) ← shared_loop g (start p) (sharedRooms p);
  Some (allocate_single g (singleRooms p) st).

(** ** The module object, its arrays and its timer *)

(** Arrays are objects with an identity: two variables may hold the same
    array, and a write through one is seen through the other.  The store
    maps the identity of an array to its contents.  The rows of an array
    of the module are never shared between two arrays (every array the
    module builds is made of new rows), so an array is stored with its
    rows.

    The client reaches an array through a reference only: one it has made
    itself, one a function of the module has returned, or one its callback
    was called with.  It does not read the fields of [LotteryModule], and
    its callback does not call the module while it runs. *)
Definition ref := nat.

(** The id [setInterval] returns; ids are positive. *)
Definition handle := nat.

(** The identity of a function of the client ([updateCallback]). *)
Definition callback := nat.

(** The fields of [LotteryModule]. *)
Record LotteryModule := mkModule {
  originalData : ref;
  currentData : ref;
  isRolling : bool;
  rollInterval : option handle
}.

(** What the function given to [setInterval] has captured. *)
Record interval := mkInterval {
  captured_data : ref;
  captured_callback : callback
}.

(** A call [updateCallback(array, isRolling)] made by the module. *)
Record call := mkCall {
  callee : callback;
  shown : ref;
  rolling_flag : bool
}.

Record world := mkWorld {
  this : LotteryModule;
  store : gmap ref (list Entry);
  next_ref : ref;
  intervals : gmap handle interval;      (* the timers that are active *)
  next_handle : handle;
  random : rng;
  calls : list call;                     (* the calls made so far, latest first *)
  held : gset ref                        (* the arrays the client holds *)
}.

(** The module as the script defines it: two empty arrays, no timer. *)
Definition initial_world (g : rng) : world :=
  {| this := mkModule 0 1 false None;
     store := {[ 0 := []; 1 := [] ]};
     next_ref := 2;
     intervals := ∅;
     next_handle := 1;
     random := g;
     calls := [];
     held := ∅ |}.

Definition set_this (m : LotteryModule) (w : world) : world :=
  mkWorld m (store w) (next_ref w) (intervals w) (next_handle w) (random w) (calls w) (held w).

Definition set_random (g : rng) (w : world) : world :=
  mkWorld (this w) (store w) (next_ref w) (intervals w) (next_handle w) g (calls w) (held w).

(** A new array with the given contents. *)
Definition new_array (contents : list Entry) (w : world) : ref * world :=
  (next_ref w,
   mkWorld (this w) (<[next_ref w := contents]> (store w)) (S (next_ref w))
     (intervals w) (next_handle w) (random w) (calls w) (held w)).

Definition read (r : ref) (w : world) : list Entry := default [] (store w !! r).

(** The client receives a reference to the array [r]. *)
Definition hand_over (r : ref) (w : world) : world :=
  mkWorld (this w) (store w) (next_ref w) (intervals w) (next_handle w) (random w)
    (calls w) ({[ r ]} ∪ held w).

(** [updateCallback(array, flag)]: the call is recorded, and the client
    now holds [array]. *)
Definition call_back (cb : callback) (array : ref) (flag : bool) (w : world) : world :=
  let w := hand_over array w in
  mkWorld (this w) (store w) (next_ref w) (intervals w) (next_handle w) (random w)
    (mkCall cb array flag :: calls w) (held w).

(** [setInterval(f, 50)] and [clearInterval(h)]. *)
Definition setInterval (f : interval) (w : world) : handle * world :=
  (next_handle w,
   mkWorld (this w) (store w) (next_ref w) (<[next_handle w := f]> (intervals w))
     (S (next_handle w)) (random w) (calls w) (held w)).

Definition clearInterval (h : handle) (w : world) : world :=
  mkWorld (this w) (store w) (next_ref w) (delete h (intervals w)) (next_handle w)
    (random w) (calls w) (held w).

(** [init(data)].  The contents of [data] are read before the two copies
    are made: making the first copy does not change [data]. *)
Definition init (data : ref) (w : world) : world :=
  let contents := read data w in
  let '(o, w) := new_array (JSON_copy contents) w in
  let '(c, w) := new_array (JSON_copy contents) w in
  set_this (mkModule o c false (rollInterval (this w))) w.

#[global] Instance Entry_inhabited : Inhabited Entry := populate (mkEntry "" "" "").

(** One row of [randomDisplay].  Both indices are below [data.length]. *)
Definition random_row (g : rng) (data : list Entry) : Entry * rng :=
  let '(r1, g) := Math_random g in
  let randomEmpIndex := floor_scaled r1 (length data) in
  let '(r2, g) := Math_random g in
  let randomRoomIndex := floor_scaled r2 (length data) in
  ({| employeeId := employeeId (data !!! randomEmpIndex);
      gender := gender (data !!! randomEmpIndex);
      roomNumber := roomNumber (data !!! randomRoomIndex) |}, g).

(** [data.map((item, index) => ...)] over the items that are left. *)
Fixpoint random_display (g : rng) (data items : list Entry) : list Entry * rng :=
  match items with
  | [] => ([], g)
  | _ :: rest =>
      let '(row, g) := random_row g data in
      let '(rows, g) := random_display g data rest in
      (row :: rows, g)
  end.

(** [startRolling(updateCallback)]. *)
Definition startRolling (updateCallback : callback) (w : world) : world :=
  if isRolling (this w) then w
  else
    let w := set_this (mkModule (originalData (this w)) (currentData (this w)) true
                         (rollInterval (this w))) w in
    let data := originalData (this w) in
    let '(h, w) := setInterval (mkInterval data updateCallback) w in
    set_this (mkModule (originalData (this w)) (currentData (this w)) (isRolling (this w))
                (Some h)) w.

(** The timer [h] fires: the function given to [setInterval] runs once.  A
    timer that is not active does not fire. *)
Definition tick (h : handle) (w : world) : world :=
  match intervals w !! h with
  | None => w
  | Some f =>
      let data := read (captured_data f) w in
      let '(randomDisplay, g) := random_display (random w) data data in
      let '(a, w) := new_array randomDisplay (set_random g w) in
      call_back (captured_callback f) a true w
  end.

(** What a call of a function of the module gives back. *)
Inductive outcome :=
  | Returned (r : ref)
  | ReturnedUndefined
  | Thrown.

(** [stopRolling(updateCallback)]. *)
Definition stopRolling (updateCallback : callback) (w : world) : world * outcome :=
  if negb (isRolling (this w)) then (w, Returned (currentData (this w)))
  else
    let w := set_this (mkModule (originalData (this w)) (currentData (this w)) false
                         (rollInterval (this w))) w in
    let w :=
      match rollInterval (this w) with
      | Some h =>
          let w := clearInterval h w in
          set_this (mkModule (originalData (this w)) (currentData (this w))
                      (isRolling (this w)) None) w
      | None => w
      end in
    match performLottery (random w) (read (originalData (this w)) w) with
    | None => (w, Thrown)
    | Some (result, g) =>
        let '(r, w) := new_array result (set_random g w) in
        let w := set_this (mkModule (originalData (this w)) r (isRolling (this w))
                             (rollInterval (this w))) w in
        let w := call_back updateCallback r false w in
        (w, Returned r)
    end.

(** [getCurrentData()]. *)
Definition getCurrentData (w : world) : world * outcome :=
  (w, Returned (currentData (this w))).

(** What can happen next: a call of the client into the module, a timer
    firing, or the client working on an array it holds. *)
Inductive action :=
  | Init (data : ref)
  | StartRolling (updateCallback : callback)
  | StopRolling (updateCallback : callback)
  | GetCurrentData
  | Tick (h : handle)
  | ClientNew (contents : list Entry)
  | ClientWrite (r : ref) (contents : list Entry).

Definition client_write (r : ref) (contents : list Entry) (w : world) : world :=
  if decide (r ∈ held w) then
    mkWorld (this w) (<[r := contents]> (store w)) (next_ref w) (intervals w)
      (next_handle w) (random w) (calls w) (held w)
  else w.

(** The client holds the array a call has returned. *)
Definition receive (res : world * outcome) : world * outcome :=
  match res.2 with
  | Returned r => (hand_over r res.1, res.2)
  | _ => res
  end.

Definition step (w : world) (a : action) : world * outcome :=
  match a with
  | Init data => (init data w, ReturnedUndefined)
  | StartRolling cb => (startRolling cb w, ReturnedUndefined)
  | StopRolling cb => receive (stopRolling cb w)
  | GetCurrentData => receive (getCurrentData w)
  | Tick h => (tick h w, ReturnedUndefined)
  | ClientNew contents =>
      let '(r, w) := new_array contents w in (hand_over r w, ReturnedUndefined)
  | ClientWrite r contents => (client_write r contents w, ReturnedUndefined)
  end.

Definition run (w : world) (actions : list action) : world :=
  foldl (fun w a => (step w a).1) w actions.

(** ** Vocabulary of the statements *)

(** The last part of [roomNumber] is a bedroom letter and there are more
    than four parts: the test [isBedroomSuffix && parts.length > 4]. *)
Definition has_bedroom_suffix (roomNumber : string) : Prop :=
  let parts := JsString.split dash roomNumber in
  JsString.test_single_letter (JsString.last_part parts) = true ∧ 4 < length parts.

(** The letters, one by one, and the single-letter pattern in the words of
    the specification: the string is one character, and that character is
    a letter.  Neither is made from the test of the function. *)
Definition letters : list ascii :=
  list_ascii_of_string "ABCDEFGHIJKLMNOPQRSTUVWXYZabcdefghijklmnopqrstuvwxyz".

Definition one_letter (s : string) : Prop :=
  ∃ c, s = String c EmptyString ∧ c ∈ letters.

(** The character [c] occurs in [s]. *)
Fixpoint has_char (c : ascii) (s : string) : bool :=
  match s with
  | EmptyString => false
  | String x rest => bool_decide (x = c) || has_char c rest
  end.

(** The person of a row. *)
Definition employee_of (e : Entry) : Employee.t :=
  Employee.mk (employeeId e) (gender e).

(** The slot that the row at position [index] stands for. *)
Definition slot (index : nat) (room : string) : RoomInfo.t :=
  RoomInfo.mk room (bedroom (parseRoomNumber room)) index.

Fixpoint slots_from (index : nat) (rooms : list string) : list RoomInfo.t :=
  match rooms with
  | [] => []
  | room :: rest => slot index room :: slots_from (S index) rest
  end.

(** The base room of a slot. *)
Definition base_of (ri : RoomInfo.t) : string :=
  baseRoom (parseRoomNumber (RoomInfo.fullRoom ri)).

(** The people of the two pools, as [performLottery] first builds them. *)
Definition pooled (data : list Entry) : list Employee.t :=
  filter (fun e => Employee.gender e = male) (employees_of data)
  ++ filter (fun e => Employee.gender e = female) (employees_of data).

(** The gender of a row is one of the two the pools are built from. *)
Definition canonical (d : Entry) : Prop := gender d = male ∨ gender d = female.

(** [employees.length] and [rooms.length]. *)
Definition totalEmployees (data : list Entry) : nat := length (employees_of data).

Definition totalRoomSlots (data : list Entry) : nat := length (roomNumber <$> data).

Definition other_pool (p : pool) : pool :=
  match p with MalePool => FemalePool | FemalePool => MalePool end.

Definition pool_gender (p : pool) : string :=
  match p with MalePool => male | FemalePool => female end.

(** The people still waiting. *)
Definition available (st : alloc) : list Employee.t :=
  maleEmployees st ++ femaleEmployees st.

(** Each pool holds people of its gender only. *)
Definition pools_ok (st : alloc) : Prop :=
  ∀ p e, e ∈ get_pool p st → Employee.gender e = pool_gender p.

(** [res'] keeps every row [res] holds. *)
Definition keeps (res res' : list (option Entry)) : Prop :=
  ∀ i e, res !! i = Some (Some e) → res' !! i = Some (Some e).

(** The slot [ri] is a row of [data]. *)
Definition slot_of (data : list Entry) (ri : RoomInfo.t) : Prop :=
  ∃ d, data !! RoomInfo.originalIndex ri = Some d ∧ roomNumber d = RoomInfo.fullRoom ri.

(** The invariant of the two loops.  [res] is the array [result], [avail]
    the people still waiting, [pend] the slots not yet written, and [pool0]
    the people the pools started with. *)
Record inv (data : list Entry) (pool0 : list Employee.t)
    (res : list (option Entry)) (avail : list Employee.t)
    (pend : list RoomInfo.t) : Prop := mkInv {
  inv_nodup : NoDup (RoomInfo.originalIndex <$> pend);
  inv_pend : ∀ ri, ri ∈ pend →
    slot_of data ri ∧ res !! RoomInfo.originalIndex ri = Some None;
  inv_rooms : ∀ i e, res !! i = Some (Some e) →
    ∃ d, data !! i = Some d ∧ roomNumber e = roomNumber d;
  inv_emps : (employee_of <$> omap id res) ++ avail ≡ₚ pool0;
  inv_count : length (omap id res) + length pend = length data
}.

(** What has become of a shared group: all of its slots wait in the
    overflow, or all of them hold a person of one gender. *)
Definition settled (st : alloc) (res : list (option Entry)) (roomGroup : list RoomInfo.t) : Prop :=
  (∀ ri, ri ∈ roomGroup → ri ∈ unassignedSharedRooms st)
  ∨ (∃ p, ∀ ri, ri ∈ roomGroup →
       ∃ e, res !! RoomInfo.originalIndex ri = Some (Some e)
         ∧ gender e = pool_gender p ∧ roomNumber e = RoomInfo.fullRoom ri).

(** The object [roomGroups] while it is built: no key twice, no key that
    [Object.prototype] defines, and under each key a list, not empty, of
    slots of that base room. *)
Record groups_ok (o : list (string * list RoomInfo.t)) : Prop := mkGroupsOk {
  keys_nodup : NoDup o.*1;
  keys_own : ∀ k, k ∈ o.*1 → k ∉ JsObject.Object_prototype_names;
  groups_keyed : ∀ k l, (k, l) ∈ o → l ≠ [] ∧ ∀ ri, ri ∈ l → base_of ri = k
}.

(** What [prepare] has built from [data], [prep_groups] being the object
    [roomGroups]. *)
Record prepared_ok (data : list Entry) (p : prepared)
    (prep_groups : list (string * list RoomInfo.t)) : Prop := mkPreparedOk {
  prep_run : group_rooms [] 0 (roomNumber <$> data) = Some prep_groups;
  prep_groups_ok : groups_ok prep_groups;
  prep_shared : ∀ roomGroup, roomGroup ∈ sharedRooms p ↔
    2 ≤ length roomGroup ∧ ∃ k, (k, roomGroup) ∈ prep_groups;
  prep_single : ∀ ri, ri ∈ singleRooms p ↔ ∃ k, (k, [ri]) ∈ prep_groups;
  prep_all : concat prep_groups.*2 ≡ₚ slots_from 0 (roomNumber <$> data);
  prep_slots : concat (sharedRooms p) ++ singleRooms p ≡ₚ slots_from 0 (roomNumber <$> data);
  prep_male : maleEmployees (start p) ≡ₚ
    filter (fun e => Employee.gender e = male) (employees_of data);
  prep_female : femaleEmployees (start p) ≡ₚ
    filter (fun e => Employee.gender e = female) (employees_of data);
  prep_result : result (start p) = replicate (length data) None;
  prep_overflow : unassignedSharedRooms (start p) = []
}.

(** The array [originalData] is the module's own: the client holds no
    reference to it, and it is not the array [currentData]. *)
Record wf (w : world) : Prop := mkWf {
  wf_original : originalData (this w) < next_ref w;
  wf_current : currentData (this w) < next_ref w;
  wf_distinct : currentData (this w) ≠ originalData (this w);
  wf_held : ∀ r, r ∈ held w → r < next_ref w;
  wf_private : originalData (this w) ∉ held w
}.

(** From [w] to [w'] the field [originalData] and the contents of its
    array have not changed. *)
Definition frame (w w' : world) : Prop :=
  wf w'
  ∧ originalData (this w') = originalData (this w)
  ∧ store w' !! originalData (this w) = store w !! originalData (this w).

Definition is_init (a : action) : bool :=
  match a with Init _ => true | _ => false end.

(** ** Inputs of the examples *)

(** Two men for the two bedrooms of one room, and a woman for a room of
    her own. *)
Definition couple : list Entry :=
  [ mkEntry "E1" male "南-16-1-1001-A"; mkEntry "E2" male "南-16-1-1001-B";
    mkEntry "E3" female "南-16-1-1002" ].

Definition no_prepared : prepared := mkPrepared (mkAlloc [] [] [] []) [] [].

(** The run of [performLottery] on [couple] with a source that has run
    dry: after [prepare], after the loop over [sharedRooms], at the end. *)
Definition couple_prepared : prepared :=
  Eval vm_compute in
    match prepare [] couple with Some (p, _) => p | None => no_prepared end.

Definition couple_shared : alloc :=
  Eval vm_compute in
    match shared_loop [] (start couple_prepared) (sharedRooms couple_prepared) with
    | Some (st, _) => st
    | None => start no_prepared
    end.

Definition couple_result : list Entry :=
  Eval vm_compute in (allocate_single [] (singleRooms couple_prepared) couple_shared).1.

(** A shared group of two slots met with one man and one woman waiting. *)
Definition a_shared_group : list RoomInfo.t :=
  [slot 0 "南-16-1-1001-A"; slot 1 "南-16-1-1001-B"].

Definition one_of_each : alloc :=
  mkAlloc [Employee.mk "E1" male] [Employee.mk "E2" female] [None; None] [].

Definition overflowed : alloc :=
  mkAlloc [Employee.mk "E1" male] [Employee.mk "E2" female] [None; None] a_shared_group.

(** A shared group of two slots, and one man and one woman: the group
    overflows, and its two slots receive the two. *)
Definition mixed : list Entry :=
  [ mkEntry "E1" male "南-16-1-1001-A"; mkEntry "E2" female "南-16-1-1001-B" ].

(** Two rows that name the same room. *)
Definition same_label : list Entry :=
  [ mkEntry "E1" male "R1"; mkEntry "E2" male "R1" ].

(** A row of another gender, and a man. *)
Definition stranger : list Entry :=
  [ mkEntry "E1" "X" "R1"; mkEntry "E2" male "R2" ].

(** A source whose first value is 0.5. *)
Definition half : rng := [(2 ^ 52)%N].

Definition stranger_prepared : prepared :=
  Eval vm_compute in
    match prepare half stranger with Some (p, _) => p | None => no_prepared end.

Definition stranger_rng : rng :=
  Eval vm_compute in
    match prepare half stranger with Some (_, g) => g | None => [] end.

Definition stranger_shared : alloc :=
  Eval vm_compute in
    match shared_loop stranger_rng (start stranger_prepared) (sharedRooms stranger_prepared) with
    | Some (st, _) => st
    | None => start no_prepared
    end.

(** A session: a roll with a tick, a stop, a second roll, while the client
    writes to the arrays it holds. *)
Definition a_session : list action :=
  [ StartRolling 7; Tick 1; ClientWrite 5 []; StopRolling 7; GetCurrentData;
    ClientWrite 6 []; ClientWrite 2 []; StartRolling 8; Tick 2; StopRolling 8 ].

(** [init] called while the module is rolling. *)
Definition reloaded : world :=
  run (initial_world []) [ClientNew couple; Init 2; StartRolling 7; ClientNew []; Init 5].

(** ** [String.prototype.trim] *)

(** [trim] removes the white space and the line terminators of the
    language from both ends of a string: the six of one byte, and the
    others by the bytes of their encoding. *)

Module JsTrim.

Definition code (c : ascii) : N := N_of_ascii c.

(** The white space and line terminators of one byte: TAB, LF, VT, FF, CR
    and the space. *)
Definition white1 (a : ascii) : bool :=
  bool_decide (code a ∈ [9; 10; 11; 12; 13; 32]%N).

(** U+00A0, the no-break space: [C2 A0]. *)
Definition white2 (a b : ascii) : bool :=
  bool_decide ((code a, code b) = (194, 160)%N).

(** The others, of three bytes each: U+1680, U+2000 to U+200A, U+2028,
    U+2029, U+202F, U+205F, U+3000 and U+FEFF. *)
Definition white3 (a b c : ascii) : bool :=
  bool_decide ((code a, code b, code c) ∈
    [ (225, 154, 128); (226, 128, 128); (226, 128, 129); (226, 128, 130);
      (226, 128, 131); (226, 128, 132); (226, 128, 133); (226, 128, 134);
      (226, 128, 135); (226, 128, 136); (226, 128, 137); (226, 128, 138);
      (226, 128, 168); (226, 128, 169); (226, 128, 175); (226, 129, 159);
      (227, 128, 128); (239, 187, 191) ]%N).

(** [s.trimStart()]. *)
Fixpoint trimStart (s : string) : string :=
  match s with
  | String a rest1 =>
      if white1 a then trimStart rest1
      else match rest1 with
           | String b rest2 =>
               if white2 a b then trimStart rest2
               else match rest2 with
                    | String c rest3 => if white3 a b c then trimStart rest3 else s
                    | EmptyString => s
                    end
           | EmptyString => s
           end
  | EmptyString => s
  end.

(** [trimStart] on the string read from its end: the bytes of a character
    come last byte first. *)
Fixpoint trimStart_reversed (s : string) : string :=
  match s with
  | String c rest1 =>
      if white1 c then trimStart_reversed rest1
      else match rest1 with
           | String b rest2 =>
               if white2 b c then trimStart_reversed rest2
               else match rest2 with
                    | String a rest3 =>
                        if white3 a b c then trimStart_reversed rest3 else s
                    | EmptyString => s
                    end
           | EmptyString => s
           end
  | EmptyString => s
  end.

(** [s.trimEnd()]. *)
Definition trimEnd (s : string) : string :=
  String.rev (trimStart_reversed (String.rev s)).

(** [s.trim()]. *)
Definition trim (s : string) : string := trimEnd (trimStart s).

End JsTrim.

(** ** [ExcelModule.readFile]: the loop over the rows of the sheet *)

Module ExcelModule.

(** A cell of a row of [jsonData], by what the loop reads of it: [None]
    where [row[k] != null] is false (a hole, [null], [undefined]), else the
    string [String(row[k])]. *)
Definition cell := option string.

Definition row := list cell.

(** [row[k] != null ? String(row[k]).trim() : '']. *)
Definition field (r : row) (k : nat) : string :=
  match r !! k with
  | Some (Some s) => JsTrim.trim s
  | _ => ""
  end.

(** The first two tests of the loop body, each a [continue]: the row is
    there and has three cells, and none of the three fields is empty.  A
    row that passes gives [(employeeId, gender, roomNumber)]. *)
Definition fields (r : option row) : option (string * string * string) :=
  match r with
  | None => None
  | Some r =>
      if length r <? 3 then None
      else
        let employeeId := field r 0 in
        let gender := field r 1 in
        let roomNumber := field r 2 in
        if bool_decide (employeeId = "") || bool_decide (gender = "")
           || bool_decide (roomNumber = "")
        then None
        else Some (employeeId, gender, roomNumber)
  end.

Definition male_forms : list string :=
  [ "m"; "M"; "male"; "Male"; "MALE"; "男性" ].

Definition female_forms : list string :=
  [ "f"; "F"; "female"; "Female"; "FEMALE"; "女性" ].

(** [gender !== '男' && gender !== '女']. *)
Definition nonstandard (gender : string) : bool :=
  bool_decide (gender ≠ male) && bool_decide (gender ≠ female).

(** The value of [gender] after the format check. *)
Definition checked (gender : string) : string :=
  if nonstandard gender then
    if bool_decide (gender ∈ male_forms) then male
    else if bool_decide (gender ∈ female_forms) then female
    else gender
  else gender.

Definition double_quote : string := String (ascii_of_nat 34) EmptyString.

Definition line_feed : string := String (ascii_of_nat 10) EmptyString.

(** The template [`${employeeId}: "${gender}"`]. *)
Definition invalid_gender_line (employeeId gender : string) : string :=
  employeeId +:+ ": " +:+ double_quote +:+ gender +:+ double_quote.

(** The variables of the loop. *)
Record state := mkState {
  result : list Entry;
  employeeIds : gset string;
  duplicates : list string;
  invalidGenders : list string
}.

Definition initial : state := mkState [] ∅ [] [].

(** The body of the loop [for (let i = 1; i < jsonData.length; i++)]. *)
Definition read_row (st : state) (r : option row) : state :=
  match fields r with
  | None => st
  | Some (employeeId, gender, roomNumber) =>
      let invalidGenders' :=
        if nonstandard gender
        then invalidGenders st ++ [invalid_gender_line employeeId gender]
        else invalidGenders st in
      let gender' := checked gender in
      if decide (employeeId ∈ employeeIds st) then
        mkState (result st) (employeeIds st) (duplicates st ++ [employeeId])
          invalidGenders'
      else
        mkState (result st ++ [mkEntry employeeId gender' roomNumber])
          ({[ employeeId ]} ∪ employeeIds st) (duplicates st) invalidGenders'
  end.

(** The loop: the first row is the header. *)
Definition read_rows (jsonData : list (option row)) : state :=
  foldl read_row initial (drop 1 jsonData).

(** The array [warnings]. *)
Definition warnings (st : state) : list string :=
  (if bool_decide (0 < length (duplicates st))
   then [ "重复工号（已忽略）:" +:+ line_feed +:+ JsString.join ", " (duplicates st) ]
   else [])
  ++
  (if bool_decide (0 < length (invalidGenders st))
   then [ "非标准性别格式（已尝试自动修正）:" +:+ line_feed
          +:+ JsString.join line_feed (invalidGenders st) ]
   else []).

(** What [reader.onload] does with [jsonData]: the text of the [alert], if
    there is one, and the array it resolves the promise with. *)
Definition readFile (jsonData : list (option row)) : option string * list Entry :=
  let st := read_rows jsonData in
  let warnings := warnings st in
  (if bool_decide (0 < length warnings)
   then Some (JsString.join (line_feed +:+ line_feed) warnings) else None,
   result st).

End ExcelModule.

(** ** The page: the handlers of [app.js] *)

(** The handlers of [js/app.js] are functions of the two variables of the
    script, of the parts of the document they read and write, and of the
    module.  Of an element the model keeps whether it has the class
    [hidden], of the lottery button also its text, whether it is disabled
    and its three style classes, of the table its rows, each with whether
    its cells have the class [rolling].  The alerts, the animation, the
    value of the file input and the class [drag-over] are left out: no
    handler reads them. *)
Module App.

Record page := mkPage {
  isLotteryStarted : bool;
  isLotteryComplete : bool;
  uploadSection_hidden : bool;
  lotterySection_hidden : bool;
  exportExcelBtn_hidden : bool;
  exportPdfBtn_hidden : bool;
  homeBtn_hidden : bool;
  lotteryBtn_disabled : bool;
  lotteryBtn_textContent : string;
  lotteryBtn_success : bool;
  lotteryBtn_danger : bool;
  lotteryBtn_secondary : bool;
  tableBody : list (Entry * bool)
}.

Definition state : Type := page * world.

(** The two closures [(data, isRolling) => { renderTable(data, isRolling) }]
    do the same; one identity stands for both. *)
Definition render : callback := 0.

(** [renderTable(data, isRolling)]. *)
Definition renderTable (data : list Entry) (isRolling : bool) (p : page) : page :=
  {| isLotteryStarted := isLotteryStarted p;
     isLotteryComplete := isLotteryComplete p;
     uploadSection_hidden := uploadSection_hidden p;
     lotterySection_hidden := lotterySection_hidden p;
     exportExcelBtn_hidden := exportExcelBtn_hidden p;
     exportPdfBtn_hidden := exportPdfBtn_hidden p;
     homeBtn_hidden := homeBtn_hidden p;
     lotteryBtn_disabled := lotteryBtn_disabled p;
     lotteryBtn_textContent := lotteryBtn_textContent p;
     lotteryBtn_success := lotteryBtn_success p;
     lotteryBtn_danger := lotteryBtn_danger p;
     lotteryBtn_secondary := lotteryBtn_secondary p;
     tableBody := (fun item => (item, isRolling)) <$> data |}.

(** The calls of [updateCallback] the module has made from [before] to
    [w], the earliest first: each runs [renderTable]. *)
Definition run_callbacks (before w : world) (p : page) : page :=
  foldr (fun c p => renderTable (read (shown c) w) (rolling_flag c) p) p
    (take (length (calls w) - length (calls before)) (calls w)).

(** [showLotterySection(data)]. *)
Definition showLotterySection (data : list Entry) (p : page) : page :=
  renderTable data false
    {| isLotteryStarted := false;
       isLotteryComplete := false;
       uploadSection_hidden := true;
       lotterySection_hidden := false;
       exportExcelBtn_hidden := true;
       exportPdfBtn_hidden := true;
       homeBtn_hidden := homeBtn_hidden p;
       lotteryBtn_disabled := false;
       lotteryBtn_textContent := "🎲 开始摇号";
       lotteryBtn_success := true;
       lotteryBtn_danger := false;
       lotteryBtn_secondary := lotteryBtn_secondary p;
       tableBody := tableBody p |}.

(** [handleFile(file)] from the point where [readFile] has resolved with
    a new array of [rows]. *)
Definition handleFile (rows : list Entry) (s : state) : state :=
  let '(p, w) := s in
  let '(data, w) := new_array rows w in
  let w := hand_over data w in
  if length rows =? 0 then (p, w)
  else
    let w := init data w in
    (showLotterySection rows p, w).

(** [startLottery()]. *)
Definition startLottery (s : state) : state :=
  let '(p, w) := s in
  ({| isLotteryStarted := true;
      isLotteryComplete := false;
      uploadSection_hidden := uploadSection_hidden p;
      lotterySection_hidden := lotterySection_hidden p;
      exportExcelBtn_hidden := exportExcelBtn_hidden p;
      exportPdfBtn_hidden := exportPdfBtn_hidden p;
      homeBtn_hidden := homeBtn_hidden p;
      lotteryBtn_disabled := lotteryBtn_disabled p;
      lotteryBtn_textContent := "🛑 停止摇号";
      lotteryBtn_success := false;
      lotteryBtn_danger := true;
      lotteryBtn_secondary := lotteryBtn_secondary p;
      tableBody := tableBody p |},
   startRolling render w).

(** [stopLottery()].  When [stopRolling] throws, the statements after the
    call are not run. *)
Definition stopLottery (s : state) : state :=
  let '(p, w) := s in
  let p :=
    {| isLotteryStarted := isLotteryStarted p;
       isLotteryComplete := true;
       uploadSection_hidden := uploadSection_hidden p;
       lotterySection_hidden := lotterySection_hidden p;
       exportExcelBtn_hidden := exportExcelBtn_hidden p;
       exportPdfBtn_hidden := exportPdfBtn_hidden p;
       homeBtn_hidden := homeBtn_hidden p;
       lotteryBtn_disabled := false;
       lotteryBtn_textContent := "🔄 重新摇号";
       lotteryBtn_success := true;
       lotteryBtn_danger := false;
       lotteryBtn_secondary := lotteryBtn_secondary p;
       tableBody := tableBody p |} in
  let '(w', result) := receive (stopRolling render w) in
  match result with
  | Thrown => (p, w')
  | _ =>
      let p := run_callbacks w w' p in
      ({| isLotteryStarted := isLotteryStarted p;
          isLotteryComplete := isLotteryComplete p;
          uploadSection_hidden := uploadSection_hidden p;
          lotterySection_hidden := lotterySection_hidden p;
          exportExcelBtn_hidden := false;
          exportPdfBtn_hidden := false;
          homeBtn_hidden := false;
          lotteryBtn_disabled := lotteryBtn_disabled p;
          lotteryBtn_textContent := lotteryBtn_textContent p;
          lotteryBtn_success := lotteryBtn_success p;
          lotteryBtn_danger := lotteryBtn_danger p;
          lotteryBtn_secondary := lotteryBtn_secondary p;
          tableBody := tableBody p |}, w')
  end.

(** The [click] handler of the lottery button. *)
Definition lotteryBtn_click (s : state) : state :=
  let '(p, w) := s in
  if isLotteryComplete p then
    startLottery
      ({| isLotteryStarted := false;
          isLotteryComplete := false;
          uploadSection_hidden := uploadSection_hidden p;
          lotterySection_hidden := lotterySection_hidden p;
          exportExcelBtn_hidden := true;
          exportPdfBtn_hidden := true;
          homeBtn_hidden := true;
          lotteryBtn_disabled := lotteryBtn_disabled p;
          lotteryBtn_textContent := lotteryBtn_textContent p;
          lotteryBtn_success := lotteryBtn_success p;
          lotteryBtn_danger := lotteryBtn_danger p;
          lotteryBtn_secondary := lotteryBtn_secondary p;
          tableBody := tableBody p |}, w)
  else if negb (isLotteryStarted p) then startLottery s
  else stopLottery s.

(** The [click] handlers of the two export buttons, up to the call of
    the export function: the array they pass on, and the state. *)
Definition exportBtn_click (s : state) : outcome * state :=
  let '(p, w) := s in
  let '(w, data) := receive (getCurrentData w) in
  (data, (p, w)).

(** The [click] handler of the home button. *)
Definition homeBtn_click (s : state) : state :=
  let '(p, w) := s in
  ({| isLotteryStarted := false;
      isLotteryComplete := false;
      uploadSection_hidden := false;
      lotterySection_hidden := true;
      exportExcelBtn_hidden := true;
      exportPdfBtn_hidden := true;
      homeBtn_hidden := true;
      lotteryBtn_disabled := lotteryBtn_disabled p;
      lotteryBtn_textContent := "🎲 开始摇号";
      lotteryBtn_success := true;
      lotteryBtn_danger := false;
      lotteryBtn_secondary := false;
      tableBody := [] |}, w).

(** The timer [h] fires. *)
Definition timer (h : handle) (s : state) : state :=
  let '(p, w) := s in
  let w' := tick h w in
  (run_callbacks w w' p, w').

(** What can happen on the page. *)
Inductive event :=
  | FileRead (rows : list Entry)
  | LotteryClick
  | ExportClick
  | HomeClick
  | TimerFires (h : handle).

Definition handle_event (s : state) (e : event) : state :=
  match e with
  | FileRead rows => handleFile rows s
  | LotteryClick => lotteryBtn_click s
  | ExportClick => (exportBtn_click s).2
  | HomeClick => homeBtn_click s
  | TimerFires h => timer h s
  end.

Definition run_events (s : state) (events : list event) : state :=
  foldl handle_event s events.

Definition is_file_read (e : event) : bool :=
  match e with FileRead _ => true | _ => false end.

End App.

(** ** More vocabulary *)

(** The rows of a preview are drawn from [data]: the person of a row of
    [data], the room of a row of [data]. *)
Definition drawn_from (data : list Entry) (row : Entry) : Prop :=
  ∃ d1 d2, d1 ∈ data ∧ d2 ∈ data
    ∧ employeeId row = employeeId d1 ∧ gender row = gender d1
    ∧ roomNumber row = roomNumber d2.

(** While the module is rolling, the timer [rollInterval] names is live,
    and it shows the rows of [originalData]. *)
Definition rolling_ok (w : world) : Prop :=
  isRolling (this w) = true →
  ∃ h f, rollInterval (this w) = Some h ∧ intervals w !! h = Some f
    ∧ captured_data f = originalData (this w).

(** No live timer has an id that [setInterval] has yet to give. *)
Definition handles_ok (w : world) : Prop :=
  ∀ h, is_Some (intervals w !! h) → h < next_handle w.

(** Timers firing, one after the other. *)
Definition ticks (hs : list handle) (w : world) : world :=
  foldl (fun w h => tick h w) w hs.

(** A draw that picks the index [j] among [n]: its product with [n] is
    more than [n] above [j] and more than [n] below [j + 1], over [2^53]. *)
Definition draw_for (j n : nat) : N :=
  (N.of_nat j * resolution / N.of_nat n + 2)%N.

(** The slots under each key are in the order of the rows, and all before
    the row [index]. *)
Definition in_row_order (index : nat) (o : list (string * list RoomInfo.t)) : Prop :=
  ∀ k l, (k, l) ∈ o →
    StronglySorted lt (RoomInfo.originalIndex <$> l)
    ∧ Forall (fun ri => RoomInfo.originalIndex ri < index) l.

(** The row of the result a row of the sheet stands for, if it passes the
    two tests. *)
Definition entry_of_row (r : option ExcelModule.row) : option Entry :=
  '(employeeId, gender, roomNumber) ← ExcelModule.fields r;
  Some (mkEntry employeeId (ExcelModule.checked gender) roomNumber).

(** The rows of the sheet that pass the two tests, in the order of the
    sheet, the header left out. *)
Definition usable_rows (jsonData : list (option ExcelModule.row)) : list Entry :=
  omap entry_of_row (drop 1 jsonData).

(** No row before position [i] has the [employeeId] of [d]. *)
Definition first_of_its_id (rows : list Entry) (i : nat) (d : Entry) : Prop :=
  ∀ j d', j < i → rows !! j = Some d' → employeeId d' ≠ employeeId d.

(** The same rows as they are written: the trimmed cells, [gender] before
    the format check. *)
Definition written_row (r : option ExcelModule.row) : option Entry :=
  '(employeeId, gender, roomNumber) ← ExcelModule.fields r;
  Some (mkEntry employeeId gender roomNumber).

Definition written_rows (jsonData : list (option ExcelModule.row)) : list Entry :=
  omap written_row (drop 1 jsonData).

(** What the loop of [readFile] keeps true, [rows] being the rows read so
    far. *)
Definition reads (rows : list (option ExcelModule.row)) (st : ExcelModule.state) : Prop :=
  let usable := omap entry_of_row rows in
  let written := omap written_row rows in
  ExcelModule.employeeIds st = list_to_set (employeeId <$> usable)
  ∧ NoDup (employeeId <$> ExcelModule.result st)
  ∧ ExcelModule.result st `sublist_of` usable
  ∧ (∀ d, d ∈ ExcelModule.result st ↔
          ∃ i, usable !! i = Some d ∧ first_of_its_id usable i d)
  ∧ length (ExcelModule.result st) + length (ExcelModule.duplicates st) = length usable
  ∧ length (ExcelModule.invalidGenders st)
    = length (filter (fun d => ¬ canonical d) written).

(** The page when the script has run: the two variables are [false]; the
    document is as the markup has it, [p] here. *)
Definition first_state (g : rng) (p : App.page) : App.state :=
  (App.mkPage false false (App.uploadSection_hidden p) (App.lotterySection_hidden p)
     (App.exportExcelBtn_hidden p) (App.exportPdfBtn_hidden p) (App.homeBtn_hidden p)
     (App.lotteryBtn_disabled p) (App.lotteryBtn_textContent p) (App.lotteryBtn_success p)
     (App.lotteryBtn_danger p) (App.lotteryBtn_secondary p) (App.tableBody p),
   initial_world g).

(** The next click on the lottery button stops the lottery. *)
Definition click_will_stop (p : App.page) : Prop :=
  App.isLotteryStarted p = true ∧ App.isLotteryComplete p = false.

(** The module holds the result of a lottery on [rows]. *)
Definition holds_a_lottery_of (rows : list Entry) (w : world) : Prop :=
  ∃ g g', performLottery g rows = Some (read (currentData (this w)) w, g').

(** What the handlers keep true once a file is loaded. *)
Definition loaded (rows : list Entry) (s : App.state) : Prop :=
  wf s.2
  ∧ read (originalData (this s.2)) s.2 = rows
  ∧ (click_will_stop s.1 → isRolling (this s.2) = true)
  ∧ (App.exportExcelBtn_hidden s.1 = false ∨ App.exportPdfBtn_hidden s.1 = false →
     App.isLotteryComplete s.1 = true ∧ holds_a_lottery_of rows s.2).

(** ** More inputs of the examples *)

(** The run of [performLottery] on [mixed]: after [prepare], and after the
    loop over [sharedRooms]. *)
Definition mixed_prepared : prepared :=
  Eval vm_compute in
    match prepare [] mixed with Some (p, _) => p | None => no_prepared end.

Definition mixed_shared : alloc :=
  Eval vm_compute in
    match shared_loop [] (start mixed_prepared) (sharedRooms mixed_prepared) with
    | Some (st, _) => st
    | None => start no_prepared
    end.

(** A dataset with a room named like a method of every object. *)
Definition odd_room : list Entry :=
  [ mkEntry "E1" male "R1"; mkEntry "E2" female "constructor" ].

(** A small sheet: a header, a row with white space around a cell, a row
    of two cells, a second row for E1, a row with a gender in English, a
    row whose third cell is empty, and a row with a gender that is none
    of the forms [readFile] knows. *)
Definition a_sheet : list (option ExcelModule.row) :=
  [ Some [Some "id"; Some "gender"; Some "room"];
    Some [Some " E1 "; Some "男"; Some "R1"];
    Some [Some "E9"; Some "女"];
    Some [Some "E1"; Some "女"; Some "R2"];
    Some [Some "E2"; Some "female"; Some "R3"; Some "x"];
    Some [Some "E3"; Some "X"; None; Some "R4"];
    Some [Some "E4"; Some "X"; Some "R4"] ].

(** What [performLottery] makes of the rows read from [a_sheet], with a
    source that has run dry. *)
Definition a_sheet_result : list Entry :=
  Eval vm_compute in
    match performLottery [] (ExcelModule.readFile a_sheet).2 with
    | Some (res, _) => res
    | None => []
    end.

(** A page as it may be at the start: the upload section is shown, the
    lottery section and the three buttons are hidden. *)
Definition a_page : App.page :=
  App.mkPage false false false true true true true false "🎲 开始摇号" true false false [].

(** * Proofs *)

(** ** Strings *)

Section strings.
Import JsString.

Lemma split_nonempty sep s : split sep s ≠ [].
Proof.
  destruct s as [|c rest]; simpl; [done|].
  case_decide; [done|]. by destruct (split sep rest).
Qed.

Lemma split_parts_clean sep s :
  Forall (fun part => has_char sep part = false) (split sep s).
Proof.
  induction s as [|c rest IH]; simpl; [by repeat constructor|].
  case_decide as Hc; [by constructor|].
  destruct (split sep rest) as [|p ps]; [by repeat constructor; simpl; rewrite bool_decide_eq_false_2|].
  apply Forall_cons in IH as [Hp Hps]. constructor; [|done].
  simpl. by rewrite Hp, bool_decide_eq_false_2.
Qed.

Lemma join_cons2 sep p q ps : join sep (p :: q :: ps) = p +:+ sep +:+ join sep (q :: ps).
Proof. reflexivity. Qed.

Lemma join_split sep s : join (String sep EmptyString) (split sep s) = s.
Proof.
  induction s as [|c rest IH]; simpl; [done|].
  pose proof (split_nonempty sep rest) as Hne.
  destruct (split sep rest) as [|p ps] eqn:Hs; [done|].
  case_decide as Hc.
  - subst c. rewrite join_cons2, IH. reflexivity.
  - destruct ps as [|q ps].
    + simpl in *. by rewrite IH.
    + rewrite join_cons2. rewrite join_cons2 in IH. rewrite <- IH. reflexivity.
Qed.

Lemma append_assoc (a b c : string) : (a +:+ b) +:+ c = a +:+ (b +:+ c).
Proof.
  induction a as [|x a IH]; [done|].
  change (String x ((a +:+ b) +:+ c) = String x (a +:+ (b +:+ c))).
  by rewrite IH.
Qed.

Lemma join_init_last sep parts :
  1 < length parts →
  join sep parts = join sep (slice_init parts) +:+ sep +:+ last_part parts.
Proof.
  unfold slice_init, last_part.
  induction parts as [|p [|q ps] IH]; intros Hlen; simpl in Hlen; try lia.
  destruct ps as [|r ps].
  - reflexivity.
  - rewrite join_cons2, IH by (simpl; lia).
    simpl length. replace (S (S (S (length ps))) - 1) with (S (S (length ps))) by lia.
    replace (S (S (length ps)) - 1) with (S (length ps)) by lia.
    change (take (S (S (length ps))) (p :: q :: r :: ps)) with (p :: take (S (length ps)) (q :: r :: ps)).
    change (take (S (length ps)) (q :: r :: ps)) with (q :: take (length ps) (r :: ps)).
    rewrite join_cons2.
    change (last (p :: q :: r :: ps)) with (last (q :: r :: ps)).
    by rewrite !append_assoc.
Qed.

Lemma parse_cases roomNumber :
  let parts := split dash roomNumber in
  (has_bedroom_suffix roomNumber ∧
     parseRoomNumber roomNumber =
       mkRoomKey (join "-" (slice_init parts)) (Some (last_part parts)))
  ∨ (¬ has_bedroom_suffix roomNumber ∧
     parseRoomNumber roomNumber = mkRoomKey roomNumber None).
Proof.
  unfold has_bedroom_suffix, parseRoomNumber. simpl.
  destruct (test_single_letter _) eqn:Ht; simpl.
  - destruct (Nat.ltb_spec 4 (length (split dash roomNumber))).
    + left. done.
    + right. split; [lia | done].
  - right. split; [ by intros [? _] | done].
Qed.

End strings.

(** The test of the function accepts the letters and nothing else. *)
Lemma is_letter_letters c : JsString.is_letter c = bool_decide (c ∈ letters).
Proof. destruct c as [[] [] [] [] [] [] [] []]; vm_compute; reflexivity. Qed.

Lemma test_single_letter_one_letter s :
  JsString.test_single_letter s = true ↔ one_letter s.
Proof.
  unfold one_letter. destruct s as [|c [|c' rest]]; simpl.
  - split; [done | by intros (c & [=] & _)].
  - rewrite is_letter_letters, bool_decide_eq_true. split.
    + intros Hc. by exists c.
    + by intros (c0 & [= <-] & Hc).
  - split; [done | by intros (c0 & [=] & _)].
Qed.

Lemma init_last_parts (parts : list string) :
  parts ≠ [] → parts = JsString.slice_init parts ++ [JsString.last_part parts].
Proof.
  unfold JsString.slice_init, JsString.last_part.
  induction parts as [|x parts _] using rev_ind; [done|]. intros _.
  rewrite last_snoc, length_app. simpl.
  replace (length parts + 1 - 1) with (length parts) by lia.
  by rewrite take_app_length.
Qed.

(** C6.  [parseRoomNumber] splits the label on ["-"]: the parts are the
    segments before the last and the last, no part holds a ["-"], and
    joining the parts with ["-"] gives the label back.  It returns the last
    part as the bedroom, and the other parts joined again as the base room,
    if and only if the last part is one character, one of the 52 letters,
    and there are more than four parts; otherwise it returns the label
    itself and no bedroom.  The three labels of the specification parse as
    it says.  The function is total: it is defined on every string. *)
Theorem parseRoomNumber_spec :
  (∀ roomSlot,
     let parts := JsString.split dash roomSlot in
     let final := JsString.last_part parts in
     let others := JsString.slice_init parts in
     parts = others ++ [final]
     ∧ JsString.join "-" parts = roomSlot
     ∧ Forall (fun part => has_char dash part = false) parts
     ∧ (one_letter final ∧ 4 < length parts →
        parseRoomNumber roomSlot = mkRoomKey (JsString.join "-" others) (Some final))
     ∧ (¬ (one_letter final ∧ 4 < length parts) →
        parseRoomNumber roomSlot = mkRoomKey roomSlot None)
     ∧ (bedroom (parseRoomNumber roomSlot) = Some final
        ∧ baseRoom (parseRoomNumber roomSlot) = JsString.join "-" others
        ↔ one_letter final ∧ 4 < length parts))
  ∧ parseRoomNumber "南-16-1-1001-A" = mkRoomKey "南-16-1-1001" (Some "A")
  ∧ parseRoomNumber "南-16-1-1001" = mkRoomKey "南-16-1-1001" None
  ∧ parseRoomNumber "R2" = mkRoomKey "R2" None.
Proof.
  split; [|split_and!; vm_compute; reflexivity].
  intros roomSlot parts final others.
  split; [apply init_last_parts, split_nonempty|].
  split; [apply (join_split dash)|].
  split; [apply split_parts_clean|].
  assert (Hpattern : has_bedroom_suffix roomSlot ↔ one_letter final ∧ 4 < length parts).
  { unfold has_bedroom_suffix. fold parts. fold final.
    by rewrite test_single_letter_one_letter. }
  rewrite <- Hpattern.
  destruct (parse_cases roomSlot) as [[Hyes Heq]|[Hno Heq]];
    fold parts in Heq; fold final in Heq; fold others in Heq.
  - split_and!; [done | done |]. rewrite Heq. simpl. tauto.
  - split_and!; [done | done |]. rewrite Heq. simpl. split; [by intros [? _] | done].
Qed.

(** ** The random source and the shuffle *)

(** The indices [shuffleArray] and the preview draw are in range. *)
Lemma Math_random_lt g : ((Math_random g).1 < resolution)%N.
Proof.
  destruct g as [|d g]; simpl; [done|]. apply N.mod_lt. done.
Qed.

(** The weight of the last bit of a product below [n] is below [2 * n]
    over [2^53]. *)
Lemma rounding_unit_small m n :
  (m < n * resolution)%N → (2 ^ (N.log2 m - 52) < 2 * n)%N.
Proof.
  intros Hm. destruct (decide (N.log2 m <= 52)%N) as [Hle|Hgt].
  - replace (N.log2 m - 52)%N with 0%N by lia. simpl. lia.
  - assert (Hpos : (0 < m)%N) by (destruct m; [simpl in Hgt; lia | lia]).
    destruct (N.log2_spec m Hpos) as [Hlow _].
    replace (N.log2 m) with (52 + (N.log2 m - 52))%N in Hlow by lia.
    rewrite N.pow_add_r in Hlow. unfold resolution in Hm.
    change (2 ^ 53)%N with (2 * 2 ^ 52)%N in Hm.
    set (u := (2 ^ (N.log2 m - 52))%N) in *.
    assert (H52 : (0 < 2 ^ 52)%N) by done.
    nia.
Qed.

(** Rounding moves a product below [n] by less than [n] over [2^53]. *)
Lemma round_to_double_close m n :
  (m < n * resolution)%N →
  (round_to_double m < m + n ∧ m < round_to_double m + n)%N.
Proof.
  intros Hm. pose proof (rounding_unit_small m n Hm) as Hu.
  unfold round_to_double. set (u := (2 ^ (N.log2 m - 52))%N) in *.
  assert (Hupos : (0 < u)%N) by (apply N.neq_0_lt_0, N.pow_nonzero; done).
  pose proof (N.Div0.div_mod m u) as Hdm.
  pose proof (N.mod_lt m u ltac:(lia)) as Hr.
  set (q := (m / u)%N) in *. set (r := (m mod u)%N) in *.
  rewrite (N.mul_comm u q) in Hdm. rewrite N.mul_add_distr_r, N.mul_1_l.
  set (qu := (q * u)%N) in *.
  destruct (N.ltb_spec (2 * r) u); [lia|].
  destruct (N.ltb_spec u (2 * r)); [lia|].
  destruct (N.even q); lia.
Qed.

(** The product is rounded before the floor is taken: three times the
    double just below two thirds is the double [2]. *)
Example floor_scaled_rounds :
  floor_scaled 6004799503160661 3 = 2 ∧ floor_scaled 6004799503160660 3 = 1.
Proof. split; vm_compute; reflexivity. Qed.

Lemma floor_scaled_lt d n : (d < resolution)%N → 0 < n → floor_scaled d n < n.
Proof.
  intros Hd Hn. unfold floor_scaled.
  assert (Hm : (d * N.of_nat n < N.of_nat n * resolution)%N) by nia.
  destruct (round_to_double_close _ _ Hm) as [Hup _].
  assert (round_to_double (d * N.of_nat n) / resolution < N.of_nat n)%N; [|lia].
  apply N.Div0.div_lt_upper_bound. nia.
Qed.

Lemma random_index_lt g n : 0 < n → floor_scaled (Math_random g).1 n < n.
Proof. intros Hn. apply floor_scaled_lt; [apply Math_random_lt | done]. Qed.

(** In [shuffleArray] the index [j] drawn at position [i] is at most [i]. *)
Lemma shuffle_index_le g i : floor_scaled (Math_random g).1 (i + 1) ≤ i.
Proof. pose proof (random_index_lt g (i + 1)). lia. Qed.

Lemma swap_length {A} i j (l : list A) : length (swap i j l) = length l.
Proof.
  unfold swap. destruct (l !! i), (l !! j); try done. by rewrite !length_insert.
Qed.

Lemma swap_Permutation {A} i j (l : list A) : swap i j l ≡ₚ l.
Proof.
  unfold swap. destruct (l !! i) eqn:Hi, (l !! j) eqn:Hj; try done.
  by apply Permutation_insert_swap.
Qed.

Lemma shuffle_from_Permutation {A} i g (l : list A) : (shuffle_from i g l).1 ≡ₚ l.
Proof.
  revert g l. induction i as [|i IH]; intros g l; simpl; [done|].
  destruct (Math_random g) as [r g']. rewrite IH. apply swap_Permutation.
Qed.

Lemma shuffleArray_Permutation {A} g (l : list A) : (shuffleArray g l).1 ≡ₚ l.
Proof. apply shuffle_from_Permutation. Qed.

(** ** Copies, and the entries of an object *)

Lemma JSON_copy_id data : JSON_copy data = data.
Proof.
  unfold JSON_copy. induction data as [|[] data IH]; csimpl; [done | by rewrite IH].
Qed.

Lemma entries_Permutation {V} (o : JsObject.t V) : JsObject.entries o ≡ₚ o.
Proof.
  unfold JsObject.entries. rewrite merge_sort_Permutation.
  induction o as [|p o IH]; [done|].
  rewrite !filter_cons. destruct (decide (is_Some (JsObject.array_index p.1))).
  - rewrite decide_False by tauto. simpl. by rewrite IH.
  - rewrite decide_True by tauto. rewrite <- Permutation_middle. by rewrite IH.
Qed.

(** ** The array [result] *)

Lemma keeps_refl res : keeps res res.
Proof. by intros i e. Qed.

Lemma keeps_trans r1 r2 r3 : keeps r1 r2 → keeps r2 r3 → keeps r1 r3.
Proof. intros H1 H2 i e ?. by apply H2, H1. Qed.

Lemma array_set_hole {A} (array : list (option A)) i v :
  array !! i = Some None → array_set array i v = <[i := Some v]> array.
Proof.
  intros Hi. unfold array_set. apply lookup_lt_Some in Hi.
  case_decide; [done | lia].
Qed.

Lemma omap_fill_hole {A} (array : list (option A)) i v :
  array !! i = Some None → omap id (<[i := Some v]> array) ≡ₚ v :: omap id array.
Proof.
  revert i. induction array as [|x array IH]; intros [|i] Hi; simplify_eq/=; [done|].
  specialize (IH i Hi). destruct x as [y|]; simpl.
  - change (y :: omap id (<[i:=Some v]> array) ≡ₚ v :: y :: omap id array).
    rewrite IH. apply perm_swap.
  - exact IH.
Qed.

(** ** The invariant of the loops *)

Section invariant.
Variable data : list Entry.
Variable pool0 : list Employee.t.
Local Abbreviation inv := (inv data pool0).

Lemma inv_perm res avail avail' pend pend' :
  avail ≡ₚ avail' → pend ≡ₚ pend' → inv res avail pend → inv res avail' pend'.
Proof.
  intros Ha Hp [H1 H2 H3 H4 H5]. split.
  - by rewrite <- Hp.
  - intros ri Hri. apply H2. by rewrite Hp.
  - done.
  - by rewrite <- Ha.
  - by rewrite <- Hp.
Qed.

Lemma inv_write res employee avail roomInfo pend :
  inv res (employee :: avail) (roomInfo :: pend) →
  let res' := array_set res (RoomInfo.originalIndex roomInfo) (assignment employee roomInfo) in
  inv res' avail pend ∧ keeps res res'
  ∧ res' !! RoomInfo.originalIndex roomInfo = Some (Some (assignment employee roomInfo)).
Proof.
  intros [H1 H2 H3 H4 H5] res'.
  destruct (H2 roomInfo) as [[d [Hd Hroom]] Hhole]; [left|].
  assert (Hres' : res' = <[RoomInfo.originalIndex roomInfo := Some (assignment employee roomInfo)]> res)
    by (by apply array_set_hole).
  assert (Hlt : RoomInfo.originalIndex roomInfo < length res) by (by eapply lookup_lt_Some).
  rewrite fmap_cons in H1. apply NoDup_cons in H1 as [Hnotin H1].
  split; [split|split].
  - done.
  - intros ri Hri. destruct (H2 ri) as [Hs Hh]; [by right|]. split; [done|].
    rewrite Hres', list_lookup_insert_ne; [done|].
    intros Heq. apply Hnotin. rewrite Heq. by apply list_elem_of_fmap_2.
  - intros i e. rewrite Hres'.
    destruct (decide (i = RoomInfo.originalIndex roomInfo)) as [->|Hne].
    + rewrite list_lookup_insert_eq by done. intros [= <-]. by exists d.
    + rewrite list_lookup_insert_ne by done. apply H3.
  - rewrite Hres', omap_fill_hole by done. rewrite fmap_cons.
    rewrite <- H4. simpl. rewrite <- Permutation_middle. by destruct employee.
  - rewrite Hres', omap_fill_hole by done. simpl in *. lia.
  - intros i e Hi. rewrite Hres'. rewrite list_lookup_insert_ne; [done|].
    intros <-. congruence.
  - rewrite Hres'. by apply list_lookup_insert_eq.
Qed.
End invariant.

(** ** The pools *)

Lemma available_shift p st employee selectedPool :
  get_pool p st = employee :: selectedPool →
  available st ≡ₚ employee :: available (set_pool p st selectedPool).
Proof.
  unfold available. destruct p; simpl; intros ->; simpl; [done|].
  by rewrite <- Permutation_middle.
Qed.

Section loops.
Variable data : list Entry.
Variable pool0 : list Employee.t.
Local Abbreviation inv := (inv data pool0).

Lemma fill_group_inv p roomGroup : ∀ st pend,
  length roomGroup ≤ length (get_pool p st) →
  inv (result st) (available st) (roomGroup ++ pend) →
  ∃ st', fill_group p roomGroup st = Some st'
    ∧ inv (result st') (available st') pend
    ∧ keeps (result st) (result st')
    ∧ unassignedSharedRooms st' = unassignedSharedRooms st
    ∧ get_pool p st' = drop (length roomGroup) (get_pool p st)
    ∧ get_pool (other_pool p) st' = get_pool (other_pool p) st
    ∧ ∀ ri, ri ∈ roomGroup →
        ∃ employee, employee ∈ get_pool p st
          ∧ result st' !! RoomInfo.originalIndex ri = Some (Some (assignment employee ri)).
Proof.
  induction roomGroup as [|roomInfo rest IH]; intros st pend Hlen Hinv.
  - exists st. simpl. split_and!; try done; [apply keeps_refl|].
    intros ri Hri. by apply elem_of_nil in Hri.
  - simpl in Hlen |- *.
    destruct (get_pool p st) as [|employee selectedPool] eqn:Hpool; [simpl in Hlen; lia|].
    set (st1 := set_result _ _).
    assert (Hshift := available_shift p st employee selectedPool Hpool).
    assert (Hinv1 : inv (result st) (employee :: available (set_pool p st selectedPool))
                      (roomInfo :: rest ++ pend))
      by (eapply inv_perm; [exact Hshift | reflexivity | exact Hinv]).
    apply inv_write in Hinv1 as (Hinv1 & Hkeep1 & Hhere).
    assert (Hav : available st1 = available (set_pool p st selectedPool))
      by (by destruct p).
    assert (Hp1 : get_pool p st1 = selectedPool) by (by destruct p).
    destruct (IH st1 pend) as (st' & Hrun & Hinv' & Hkeep' & Hun & Hdrop & Hother & Hfilled).
    { rewrite Hp1. simpl in Hlen. lia. }
    { rewrite Hav. exact Hinv1. }
    exists st'. split_and!.
    + exact Hrun.
    + exact Hinv'.
    + eapply keeps_trans; [exact Hkeep1 | exact Hkeep'].
    + rewrite Hun. by destruct p.
    + rewrite Hdrop, Hp1. reflexivity.
    + rewrite Hother. by destruct p.
    + intros ri [->|Hri]%elem_of_cons.
      * exists employee. split; [left|]. by apply Hkeep'.
      * destruct (Hfilled ri Hri) as (e & He & Hr). exists e. split; [|done].
        rewrite Hp1 in He. by right.
Qed.

Lemma select_pool_spec g st roomCount :
  match select_pool g st roomCount with
  | (Some p, _) => roomCount ≤ length (get_pool p st)
  | (None, g') =>
      g' = g ∧ length (maleEmployees st) < roomCount
      ∧ length (femaleEmployees st) < roomCount
  end.
Proof.
  unfold select_pool.
  destruct (Nat.leb_spec roomCount (length (maleEmployees st))) as [Hm|Hm],
    (Nat.leb_spec roomCount (length (femaleEmployees st))) as [Hf|Hf]; simpl; try done.
  destruct (Math_random g) as [r g']. by destruct (below_half r).
Qed.

Lemma settled_mono st st' res res' roomGroup :
  unassignedSharedRooms st ⊆ unassignedSharedRooms st' → keeps res res' →
  settled st res roomGroup → settled st' res' roomGroup.
Proof.
  intros Hsub Hkeep [Hdef|[p Hfill]]; [left|right].
  - intros ri Hri. by apply Hsub, Hdef.
  - exists p. intros ri Hri. destruct (Hfill ri Hri) as (e & He & Hg & Hr).
    exists e. split_and!; try done. by apply Hkeep.
Qed.

Lemma assign_shared_inv g st roomGroup pend :
  pools_ok st →
  inv (result st) (available st) (roomGroup ++ pend ++ unassignedSharedRooms st) →
  ∃ st' g', assign_shared g st roomGroup = Some (st', g')
    ∧ pools_ok st'
    ∧ inv (result st') (available st') (pend ++ unassignedSharedRooms st')
    ∧ keeps (result st) (result st')
    ∧ unassignedSharedRooms st ⊆ unassignedSharedRooms st'
    ∧ settled st' (result st') roomGroup.
Proof.
  intros Hok Hinv. unfold assign_shared.
  pose proof (select_pool_spec g st (length roomGroup)) as Hsel.
  destruct (select_pool g st (length roomGroup)) as [[p|] g'].
  - destruct (fill_group_inv p roomGroup st _ Hsel Hinv)
      as (st' & Hrun & Hinv' & Hkeep & Hun & Hdrop & Hother & Hfilled).
    rewrite Hrun. simpl. exists st', g'. split_and!; try done.
    + intros q e He. apply Hok. destruct (decide (q = p)) as [->|Hne].
      * rewrite Hdrop in He. by eapply subseteq_drop.
      * assert (q = other_pool p) as -> by (by destruct p, q). by rewrite <- Hother.
    + by rewrite Hun.
    + by rewrite Hun.
    + right. exists p. intros ri Hri. destruct (Hfilled ri Hri) as (e & He & Hr).
      exists (assignment e ri). split_and!; try done. simpl. by apply Hok.
  - destruct Hsel as (-> & Hm & Hf). eexists _, g. split; [reflexivity|].
    simpl. split_and!.
    + done.
    + eapply inv_perm; [reflexivity| |exact Hinv].
      simpl. rewrite (Permutation_app_comm roomGroup). by rewrite <- app_assoc.
    + apply keeps_refl.
    + set_solver.
    + left. set_solver.
Qed.

Lemma shared_loop_inv sharedRooms : ∀ g st pend,
  pools_ok st →
  inv (result st) (available st) (concat sharedRooms ++ pend ++ unassignedSharedRooms st) →
  ∃ st' g', shared_loop g st sharedRooms = Some (st', g')
    ∧ pools_ok st'
    ∧ inv (result st') (available st') (pend ++ unassignedSharedRooms st')
    ∧ keeps (result st) (result st')
    ∧ unassignedSharedRooms st ⊆ unassignedSharedRooms st'
    ∧ ∀ roomGroup, roomGroup ∈ sharedRooms → settled st' (result st') roomGroup.
Proof.
  induction sharedRooms as [|roomGroup rest IH]; intros g st pend Hok Hinv.
  - exists st, g. simpl. split_and!; try done; [apply keeps_refl|].
    intros G HG. by apply elem_of_nil in HG.
  - simpl in Hinv |- *.
    destruct (assign_shared_inv g st roomGroup (concat rest ++ pend))
      as (st1 & g1 & Hrun1 & Hok1 & Hinv1 & Hkeep1 & Hsub1 & Hset1); [done| |].
    { eapply inv_perm; [reflexivity| |exact Hinv]. by rewrite <- !(assoc_L (++)). }
    rewrite Hrun1. simpl.
    destruct (IH g1 st1 pend Hok1) as (st' & g' & Hrun & Hok' & Hinv' & Hkeep & Hsub & Hset).
    { eapply inv_perm; [reflexivity| |exact Hinv1]. by rewrite <- !(assoc_L (++)). }
    exists st', g'. split_and!; try done.
    + eapply keeps_trans; [exact Hkeep1 | exact Hkeep].
    + set_solver.
    + intros G [->|HG]%elem_of_cons; [|by apply Hset].
      eapply settled_mono; [exact Hsub | exact Hkeep | exact Hset1].
Qed.

Lemma single_loop_nil allSingleRooms res : single_loop allSingleRooms [] res = res.
Proof. induction allSingleRooms as [|ri rest IH]; simpl; done. Qed.

Lemma single_loop_inv allSingleRooms : ∀ remainingEmployees res,
  inv res remainingEmployees allSingleRooms →
  inv (single_loop allSingleRooms remainingEmployees res)
    (drop (length allSingleRooms) remainingEmployees)
    (drop (length remainingEmployees) allSingleRooms)
  ∧ keeps res (single_loop allSingleRooms remainingEmployees res).
Proof.
  induction allSingleRooms as [|roomInfo rest IH]; intros remaining res Hinv.
  - simpl. rewrite drop_nil, drop_0. split; [done | apply keeps_refl].
  - destruct remaining as [|employee remaining].
    + rewrite single_loop_nil. simpl. split; [done | apply keeps_refl].
    + simpl. apply inv_write in Hinv as (Hinv & Hkeep & _).
      destruct (IH _ _ Hinv) as [Hinv' Hkeep']. split; [done|].
      eapply keeps_trans; [exact Hkeep | exact Hkeep'].
Qed.

Lemma single_slots_Permutation g singleRooms st :
  (single_slots g singleRooms st).1.1 ≡ₚ singleRooms ++ unassignedSharedRooms st
  ∧ (single_slots g singleRooms st).1.2 ≡ₚ available st.
Proof.
  unfold single_slots.
  pose proof (shuffleArray_Permutation g (maleEmployees st ++ femaleEmployees st)) as H1.
  destruct (shuffleArray g _) as [remaining g1].
  pose proof (shuffleArray_Permutation g1 (singleRooms ++ unassignedSharedRooms st)) as H2.
  destruct (shuffleArray g1 _) as [rooms g2]. done.
Qed.

Lemma fill_singles_inv g singleRooms st :
  inv (result st) (available st) (singleRooms ++ unassignedSharedRooms st) →
  ∃ avail pend,
    inv (fill_singles g singleRooms st).1 avail pend
    ∧ keeps (result st) (fill_singles g singleRooms st).1
    ∧ (length (available st) = length (singleRooms ++ unassignedSharedRooms st) → pend = []).
Proof.
  intros Hinv. unfold fill_singles.
  destruct (single_slots_Permutation g singleRooms st) as [Hrooms Hemps].
  destruct (single_slots g singleRooms st) as [[rooms remaining] g']. simpl in *.
  assert (Hinv1 : inv (result st) remaining rooms)
    by (eapply inv_perm; [symmetry; exact Hemps | symmetry; exact Hrooms | exact Hinv]).
  destruct (single_loop_inv rooms remaining _ Hinv1) as [Hinv' Hkeep].
  eexists _, _. split_and!; [exact Hinv' | exact Hkeep |].
  intros Hlen. apply drop_ge. rewrite Hrooms, Hemps. lia.
Qed.
End loops.

(** ** Grouping *)

Section object.
Context {V : Type}.
Implicit Types (o : list (string * V)) (k : string) (v : V).

Lemma own_Some o k v : JsObject.own o k = Some v → (k, v) ∈ o.
Proof.
  induction o as [|[k' v'] o IH]; simpl; [done|].
  case_decide as Hk; [intros [= ->]; subst; left | intros ?; right; auto].
Qed.

Lemma own_None o k : JsObject.own o k = None → k ∉ o.*1.
Proof.
  induction o as [|[k' v'] o IH]; simpl; [intros _; apply not_elem_of_nil|].
  case_decide as Hk; [done|]. intros Ho. apply not_elem_of_cons. split; [congruence | auto].
Qed.

Lemma update_keys o k v : (JsObject.update o k v).*1 = o.*1.
Proof.
  induction o as [|[k' v'] o IH]; simpl; [done|].
  case_decide; csimpl; [done | by rewrite IH].
Qed.

Lemma elem_of_update o k v k' v' :
  (k', v') ∈ JsObject.update o k v → (k' = k ∧ v' = v) ∨ (k', v') ∈ o.
Proof.
  induction o as [|[k1 v1] o IH]; simpl; [by right|].
  case_decide as Hk.
  - intros [[= -> ->]|?]%elem_of_cons; [by left | right; by right].
  - intros [[= -> ->]|?]%elem_of_cons; [right; by left|].
    destruct IH as [?|?]; [done | by left | right; by right].
Qed.
End object.

Lemma update_concat {A} (o : list (string * list A)) k l x :
  JsObject.own o k = Some l →
  concat (JsObject.update o k (l ++ [x])).*2 ≡ₚ x :: concat o.*2.
Proof.
  induction o as [|[k' l'] o IH]; simpl; [done|].
  case_decide as Hk.
  - intros [= ->]. simpl. rewrite <- app_assoc. simpl.
    by rewrite <- Permutation_middle.
  - intros Ho. simpl. rewrite (IH Ho). by rewrite <- Permutation_middle.
Qed.

Lemma add_room_ok o index room o' :
  groups_ok o → add_room o index room = Some o' →
  groups_ok o' ∧ concat o'.*2 ≡ₚ slot index room :: concat o.*2.
Proof.
  intros [Hnd Hown Hkey]. unfold add_room, JsObject.get.
  set (k := baseRoom (parseRoomNumber room)).
  fold (slot index room).
  destruct (JsObject.own o k) as [roomList|] eqn:Ho.
  - intros [= <-]. split; [split|].
    + by rewrite update_keys.
    + by rewrite update_keys.
    + intros k' l' [[-> ->]|Hin]%elem_of_update; [|by apply Hkey].
      split; [by destruct roomList|].
      intros ri [Hri| ->%list_elem_of_singleton]%elem_of_app; [|done].
      by apply (Hkey k roomList); [apply own_Some|].
    + by apply update_concat.
  - case_decide as Hproto; [done|]. intros [= <-]. unfold JsObject.add.
    apply own_None in Ho. split; [split|].
    + rewrite fmap_app. simpl. apply NoDup_app. split_and!; [done| |apply NoDup_singleton].
      intros x Hx ->%list_elem_of_singleton. done.
    + rewrite fmap_app. simpl. intros k' [?| ->%list_elem_of_singleton]%elem_of_app; auto.
    + intros k' l' [Hin|[= -> ->]%list_elem_of_singleton]%elem_of_app; [by apply Hkey|].
      split; [done|]. by intros ri ->%list_elem_of_singleton.
    + rewrite fmap_app, concat_app. simpl. by rewrite <- Permutation_middle, app_nil_r.
Qed.

Lemma group_rooms_ok rooms : ∀ o index o',
  groups_ok o → group_rooms o index rooms = Some o' →
  groups_ok o' ∧ concat o'.*2 ≡ₚ concat o.*2 ++ slots_from index rooms.
Proof.
  induction rooms as [|room rest IH]; intros o index o' Hok; simpl.
  - intros [= <-]. by rewrite app_nil_r.
  - destruct (add_room o index room) as [o1|] eqn:Hadd; [simpl|done].
    intros Hrest. destruct (add_room_ok _ _ _ _ Hok Hadd) as [Hok1 Hperm1].
    destruct (IH _ _ _ Hok1 Hrest) as [Hok' Hperm']. split; [done|].
    rewrite Hperm', Hperm1. by rewrite <- Permutation_middle.
Qed.

Lemma groups_ok_nil : groups_ok [].
Proof.
  split; simpl.
  - apply NoDup_nil_2.
  - intros k Hk. by apply elem_of_nil in Hk.
  - intros k l Hk. by apply elem_of_nil in Hk.
Qed.

(** The call throws exactly when a room is named like a property of
    [Object.prototype]. *)
Lemma group_rooms_None rooms : ∀ o index,
  groups_ok o →
  group_rooms o index rooms = None ↔
  ∃ room, room ∈ rooms ∧ baseRoom (parseRoomNumber room) ∈ JsObject.Object_prototype_names.
Proof.
  induction rooms as [|room rest IH]; intros o index Hok; simpl.
  - split; [done|]. intros (room & Hin & _). by apply elem_of_nil in Hin.
  - destruct (add_room o index room) as [o1|] eqn:Hadd; simpl.
    + destruct (add_room_ok _ _ _ _ Hok Hadd) as [Hok1 _].
      rewrite (IH o1 (S index) Hok1). split.
      * intros (r & Hin & Hr). exists r. split; [by right | done].
      * intros (r & [->|Hin]%elem_of_cons & Hr); [|by exists r].
        exfalso. revert Hadd. unfold add_room, JsObject.get.
        destruct (JsObject.own o _) as [l|] eqn:Ho.
        -- intros _. apply own_Some in Ho.
           eapply (keys_own _ Hok); [|exact Hr]. by apply (list_elem_of_fmap_2 fst) in Ho.
        -- by rewrite decide_True.
    + split; [intros _|done]. exists room. split; [left|].
      revert Hadd. unfold add_room, JsObject.get.
      destruct (JsObject.own o _); [done|]. by case_decide.
Qed.

Lemma classify_spec groups sharedRooms singleRooms :
  classify groups = (sharedRooms, singleRooms) →
  concat sharedRooms ++ singleRooms ≡ₚ concat groups.*2
  ∧ (∀ roomGroup, roomGroup ∈ sharedRooms ↔
       2 ≤ length roomGroup ∧ ∃ k, (k, roomGroup) ∈ groups)
  ∧ (∀ ri, ri ∈ singleRooms ↔ ∃ k, (k, [ri]) ∈ groups).
Proof.
  revert sharedRooms singleRooms.
  induction groups as [|[k roomList] rest IH]; intros sharedRooms singleRooms; simpl.
  - intros [= <- <-]. split_and!; [done| |].
    + intros G. split; [by intros ?%elem_of_nil | by intros (_ & ? & ?%elem_of_nil)].
    + intros ri. split; [by intros ?%elem_of_nil | by intros (? & ?%elem_of_nil)].
  - destruct (classify rest) as [sh si]. destruct (IH sh si eq_refl) as (Hperm & Hsh & Hsi).
    destruct roomList as [|r1 [|r2 roomList]]; intros [= <- <-].
    + split_and!; [done| |].
      * intros G. rewrite Hsh. split; intros (Hlen & k' & Hin); (split; [done|]); exists k'.
        -- by right.
        -- apply elem_of_cons in Hin as [[= -> ->]|?]; [simpl in Hlen; lia | done].
      * intros ri. rewrite Hsi. split; intros (k' & Hin); exists k'; [by right|].
        by apply elem_of_cons in Hin as [[= ]|?].
    + split_and!.
      * simpl. rewrite <- Permutation_middle. by rewrite Hperm.
      * intros G. rewrite Hsh. split; intros (Hlen & k' & Hin); (split; [done|]); exists k'.
        -- by right.
        -- apply elem_of_cons in Hin as [[= -> ->]|?]; [simpl in Hlen; lia | done].
      * intros ri. rewrite elem_of_cons, Hsi. split.
        -- intros [->|(k' & Hin)]; [exists k; left | exists k'; by right].
        -- intros (k' & [[= -> ->]|Hin]%elem_of_cons); [by left | right; by exists k'].
    + split_and!.
      * simpl. do 2 f_equiv. rewrite <- app_assoc. by rewrite Hperm.
      * intros G. rewrite elem_of_cons, Hsh. split.
        -- intros [->|(Hlen & k' & Hin)].
           ++ split; [simpl; lia|]. exists k. left.
           ++ split; [done|]. exists k'. by right.
        -- intros (Hlen & k' & [[= -> ->]|Hin]%elem_of_cons); [by left|].
           right. split; [done|]. by exists k'.
      * intros ri. rewrite Hsi. split; intros (k' & Hin); exists k'; [by right|].
        by apply elem_of_cons in Hin as [[= ]|?].
Qed.

Lemma elem_of_slots_from rooms : ∀ index ri,
  ri ∈ slots_from index rooms ↔
  ∃ i room, rooms !! i = Some room ∧ ri = slot (index + i) room.
Proof.
  induction rooms as [|room rest IH]; intros index ri; simpl.
  - split; [by intros ?%elem_of_nil | by intros (i & r & ? & _)].
  - rewrite elem_of_cons, IH. split.
    + intros [->|(i & r & Hi & ->)].
      * exists 0, room. split; [done|]. by rewrite Nat.add_0_r.
      * exists (S i), r. split; [done|]. f_equal. lia.
    + intros ([|i] & r & Hi & ->); simpl in Hi.
      * left. simplify_eq. by rewrite Nat.add_0_r.
      * right. exists i, r. split; [done|]. f_equal. lia.
Qed.

Lemma slots_from_indices rooms : ∀ index,
  RoomInfo.originalIndex <$> slots_from index rooms = seq index (length rooms).
Proof.
  induction rooms as [|room rest IH]; intros index; simpl; [done|]. by rewrite IH.
Qed.

(** ** The whole of [performLottery] *)

Lemma male_ne_female : male ≠ female.
Proof. done. Qed.

Lemma pooled_submseteq data : pooled data ⊆+ employees_of data.
Proof.
  unfold pooled. induction (employees_of data) as [|e l IH]; [done|].
  rewrite !filter_cons. destruct (decide (Employee.gender e = male)) as [Hm|Hm].
  - rewrite decide_False by (rewrite Hm; apply male_ne_female). simpl. by apply submseteq_skip.
  - case_decide.
    + rewrite <- Permutation_middle. by apply submseteq_skip.
    + by apply submseteq_cons.
Qed.

Lemma pooled_Permutation data :
  Forall (fun d => gender d = male ∨ gender d = female) data →
  pooled data ≡ₚ employees_of data.
Proof.
  unfold pooled, employees_of. induction 1 as [|d l Hd Hl IH]; [done|].
  csimpl. rewrite !filter_cons. simpl.
  destruct (decide (gender d = male)) as [Hm|Hm].
  - rewrite decide_False by (rewrite Hm; apply male_ne_female). simpl. by rewrite IH.
  - rewrite decide_True by tauto. rewrite <- Permutation_middle. by rewrite IH.
Qed.

Lemma prepare_ok g data p g' :
  prepare g data = Some (p, g') → ∃ roomGroups, prepared_ok data p roomGroups.
Proof.
  unfold prepare. rewrite JSON_copy_id.
  destruct (group_rooms [] 0 (roomNumber <$> data)) as [roomGroups|] eqn:Hgroups; [simpl|done].
  destruct (group_rooms_ok _ _ _ _ groups_ok_nil Hgroups) as [Hok Hall]. simpl in Hall.
  destruct (classify (JsObject.entries roomGroups)) as [shared single] eqn:Hclass.
  destruct (classify_spec _ _ _ Hclass) as (Hperm & Hsh & Hsi).
  pose proof (shuffleArray_Permutation g
    (filter (fun e => Employee.gender e = male) (employees_of data))) as Hm.
  destruct (shuffleArray g _) as [males g1].
  pose proof (shuffleArray_Permutation g1
    (filter (fun e => Employee.gender e = female) (employees_of data))) as Hf.
  destruct (shuffleArray g1 _) as [females g2].
  pose proof (shuffleArray_Permutation g2 shared) as Hs.
  destruct (shuffleArray g2 shared) as [shared' g3].
  intros [= <- <-]. simpl in *.
  exists roomGroups.
  split; simpl; try done.
  - intros G. rewrite Hs, Hsh. by setoid_rewrite entries_Permutation.
  - intros ri. rewrite Hsi. by setoid_rewrite entries_Permutation.
  - rewrite Hs, Hperm, entries_Permutation. exact Hall.
Qed.

Lemma omap_replicate_None {A} n : omap id (replicate n (@None A)) = [].
Proof. induction n as [|n IH]; [done | exact IH]. Qed.

Lemma length_slots_from rooms index : length (slots_from index rooms) = length rooms.
Proof. revert index. induction rooms as [|r rest IH]; intros index; simpl; [done | by rewrite IH]. Qed.

Lemma slot_in_data data ri :
  ri ∈ slots_from 0 (roomNumber <$> data) →
  slot_of data ri ∧ RoomInfo.originalIndex ri < length data.
Proof.
  intros (i & room & Hi & ->)%elem_of_slots_from. simpl.
  rewrite list_lookup_fmap in Hi. destruct (data !! i) as [d|] eqn:Hd; simplify_eq/=.
  split; [by exists d | by eapply lookup_lt_Some].
Qed.

Lemma prepared_inv data p roomGroups :
  prepared_ok data p roomGroups →
  pools_ok (start p)
  ∧ inv data (pooled data) (result (start p)) (available (start p))
      (concat (sharedRooms p) ++ singleRooms p ++ unassignedSharedRooms (start p)).
Proof.
  intros [Hrun Hok Hsh Hsi Hall Hslots Hm Hf Hres Hov]. split.
  - intros [] e He; simpl in *.
    + rewrite Hm in He. by apply list_elem_of_filter in He as [? _].
    + rewrite Hf in He. by apply list_elem_of_filter in He as [? _].
  - rewrite Hov, app_nil_r, Hres. split.
    + rewrite Hslots, slots_from_indices. apply NoDup_seq.
    + intros ri Hri. rewrite Hslots in Hri. apply slot_in_data in Hri as [Hs Hlt].
      split; [done|]. by apply lookup_replicate_2.
    + intros i e [? _]%lookup_replicate. done.
    + rewrite omap_replicate_None. simpl. unfold available, pooled. by rewrite Hm, Hf.
    + rewrite omap_replicate_None, Hslots, length_slots_from, length_fmap. done.
Qed.

(** The steps of a call of [performLottery] that returns. *)
Lemma performLottery_Some g data res g' :
  performLottery g data = Some (res, g') ↔
  ∃ p g1 st g2,
    prepare g data = Some (p, g1)
    ∧ shared_loop g1 (start p) (sharedRooms p) = Some (st, g2)
    ∧ allocate_single g2 (singleRooms p) st = (res, g').
Proof.
  unfold performLottery. split.
  - destruct (prepare g data) as [[p g1]|]; [simpl|done].
    destruct (shared_loop g1 _ _) as [[st g2]|] eqn:Hloop; [simpl|done].
    intros Heq. exists p, g1, st, g2. split_and!; [done | done | congruence].
  - intros (p & g1 & st & g2 & -> & Hloop & Hfin). simpl. rewrite Hloop. simpl. by rewrite Hfin.
Qed.

Lemma allocate_single_Permutation g singleRooms st :
  (allocate_single g singleRooms st).1 ≡ₚ omap id (fill_singles g singleRooms st).1.
Proof.
  unfold allocate_single. destruct (fill_singles g singleRooms st) as [arr g1]. simpl.
  apply shuffleArray_Permutation.
Qed.

(** What holds of the array [result] just before it is filtered. *)
Lemma performLottery_array g data p g1 st g2 :
  prepare g data = Some (p, g1) →
  shared_loop g1 (start p) (sharedRooms p) = Some (st, g2) →
  ∀ g3, ∃ avail pend,
    inv data (pooled data) (fill_singles g3 (singleRooms p) st).1 avail pend
    ∧ inv data (pooled data) (result st) (available st)
        (singleRooms p ++ unassignedSharedRooms st)
    ∧ keeps (result st) (fill_singles g3 (singleRooms p) st).1
    ∧ (∀ roomGroup, roomGroup ∈ sharedRooms p → settled st (result st) roomGroup)
    ∧ (length (pooled data) = length data → pend = []).
Proof.
  intros Hprep Hloop g3.
  destruct (prepare_ok _ _ _ _ Hprep) as [roomGroups Hp].
  destruct (prepared_inv _ _ _ Hp) as [Hok Hinv].
  destruct (shared_loop_inv data (pooled data) (sharedRooms p) g1 (start p) (singleRooms p) Hok Hinv)
    as (st' & g' & Hloop' & Hok' & Hinv' & Hkeep & Hsub & Hset).
  rewrite Hloop in Hloop'. injection Hloop' as <- <-.
  destruct (fill_singles_inv data (pooled data) g3 (singleRooms p) st Hinv')
    as (avail & pend & Hfin & Hkeep' & Hfull).
  exists avail, pend. split_and!; [done | done | done | done |].
  intros Hlen. apply Hfull.
    pose proof (inv_emps _ _ _ _ _ Hinv') as He. pose proof (inv_count _ _ _ _ _ Hinv') as Hc.
  apply Permutation_length in He. rewrite length_app, length_fmap in He. lia.
Qed.

(** [performLottery] returns unless a room is named like a property of
    [Object.prototype]. *)
Lemma performLottery_None g data :
  performLottery g data = None ↔
  ∃ d, d ∈ data ∧ baseRoom (parseRoomNumber (roomNumber d)) ∈ JsObject.Object_prototype_names.
Proof.
  assert (Hthrow : group_rooms [] 0 (roomNumber <$> data) = None ↔
    ∃ d, d ∈ data ∧ baseRoom (parseRoomNumber (roomNumber d)) ∈ JsObject.Object_prototype_names).
  { rewrite group_rooms_None by apply groups_ok_nil. split.
    - intros (room & (d & -> & Hd)%list_elem_of_fmap & Hr). by exists d.
    - intros (d & Hd & Hr). exists (roomNumber d). split; [|done]. by apply list_elem_of_fmap_2. }
  rewrite <- Hthrow. unfold performLottery.
  destruct (prepare g data) as [[p g1]|] eqn:Hprep; simpl.
  - destruct (prepare_ok _ _ _ _ Hprep) as [roomGroups Hp].
    destruct (prepared_inv _ _ _ Hp) as [Hok Hinv].
    destruct (shared_loop_inv data (pooled data) (sharedRooms p) g1 (start p) (singleRooms p) Hok Hinv)
      as (st' & g' & -> & _). simpl.
    rewrite (prep_run _ _ _ Hp). done.
  - split; [intros _|done]. revert Hprep. unfold prepare. rewrite JSON_copy_id.
    destruct (group_rooms [] 0 (roomNumber <$> data)); [simpl|done].
    destruct (classify _). destruct (shuffleArray g _). destruct (shuffleArray _ _).
    destruct (shuffleArray _ _). done.
Qed.

(** ** Consequences for the rows returned *)

Lemma submseteq_NoDup {A} (l k : list A) : l ⊆+ k → NoDup k → NoDup l.
Proof.
  intros [k' Hk]%submseteq_Permutation Hnd. rewrite Hk in Hnd.
  by apply NoDup_app in Hnd as [? _].
Qed.

Lemma array_rooms_sublist arr : ∀ data,
  (∀ i e, arr !! i = Some (Some e) → ∃ d, data !! i = Some d ∧ roomNumber e = roomNumber d) →
  roomNumber <$> omap id arr `sublist_of` roomNumber <$> data.
Proof.
  induction arr as [|x arr IH]; intros data H; [apply sublist_nil_l|].
  assert (Htail : ∀ i e, arr !! i = Some (Some e) →
            ∃ d, tail data !! i = Some d ∧ roomNumber e = roomNumber d).
  { intros i e Hi. destruct (H (S i) e Hi) as (d & Hd & Hr). exists d.
    split; [|done]. by destruct data. }
  specialize (IH _ Htail). destruct x as [e|].
  - destruct (H 0 e eq_refl) as (d & Hd & Hr). destruct data as [|d' data]; simplify_eq/=.
    change (roomNumber e :: (roomNumber <$> omap id arr)
              `sublist_of` roomNumber d :: (roomNumber <$> data)).
    rewrite Hr. by apply sublist_skip.
  - change (roomNumber <$> omap id arr `sublist_of` roomNumber <$> data).
    destruct data as [|d data]; [exact IH | by apply sublist_cons].
Qed.

Section returned.
Context (g : rng) (data res : list Entry) (g' : rng).
Hypothesis Hrun : performLottery g data = Some (res, g').

Lemma returned_employees : employee_of <$> res ⊆+ pooled data.
Proof using Hrun.
  apply performLottery_Some in Hrun as (p & g1 & st & g2 & Hprep & Hloop & Hfin).
  destruct (performLottery_array _ _ _ _ _ _ Hprep Hloop g2) as (avail & pend & Hinv & _).
  pose proof (allocate_single_Permutation g2 (singleRooms p) st) as Hperm.
  rewrite Hfin in Hperm. simpl in Hperm. rewrite Hperm.
  rewrite <- (inv_emps _ _ _ _ _ Hinv). apply submseteq_inserts_r. done.
Qed.

Lemma returned_rooms : roomNumber <$> res ⊆+ roomNumber <$> data.
Proof using Hrun.
  apply performLottery_Some in Hrun as (p & g1 & st & g2 & Hprep & Hloop & Hfin).
  destruct (performLottery_array _ _ _ _ _ _ Hprep Hloop g2) as (avail & pend & Hinv & _).
  pose proof (allocate_single_Permutation g2 (singleRooms p) st) as Hperm.
  rewrite Hfin in Hperm. simpl in Hperm. rewrite Hperm.
  apply sublist_submseteq, array_rooms_sublist, (inv_rooms _ _ _ _ _ Hinv).
Qed.

Lemma returned_length : length res ≤ length (pooled data) ∧ length res ≤ length data.
Proof using Hrun.
  split.
  - rewrite <- (length_fmap employee_of). apply submseteq_length, returned_employees.
  - rewrite <- (length_fmap roomNumber res), <- (length_fmap roomNumber data).
    apply submseteq_length, returned_rooms.
Qed.

Lemma returned_all :
  Forall (fun d => gender d = male ∨ gender d = female) data → length res = length data.
Proof using Hrun.
  intros Hcanon.
  apply performLottery_Some in Hrun as (p & g1 & st & g2 & Hprep & Hloop & Hfin).
  destruct (performLottery_array _ _ _ _ _ _ Hprep Hloop g2) as (avail & pend & Hinv & _ & _ & _ & Hfull).
  pose proof (allocate_single_Permutation g2 (singleRooms p) st) as Hperm.
  rewrite Hfin in Hperm. simpl in Hperm. rewrite Hperm.
  rewrite Hfull in Hinv.
  - pose proof (inv_count _ _ _ _ _ Hinv) as Hc. simpl in Hc. lia.
  - rewrite (pooled_Permutation data Hcanon). unfold employees_of. by rewrite length_fmap.
Qed.
End returned.

(** ** The overflow *)

Lemma fill_group_overflow p roomGroup : ∀ st st',
  fill_group p roomGroup st = Some st' →
  unassignedSharedRooms st' = unassignedSharedRooms st.
Proof.
  induction roomGroup as [|ri rest IH]; intros st st'; simpl; [by intros [= ->]|].
  destruct (get_pool p st) as [|employee selectedPool]; [done|].
  intros Hrest. rewrite (IH _ _ Hrest). by destruct p.
Qed.

Lemma assign_shared_overflow g st roomGroup st' g' :
  assign_shared g st roomGroup = Some (st', g') →
  unassignedSharedRooms st ⊆ unassignedSharedRooms st'.
Proof.
  unfold assign_shared. destruct (select_pool g st (length roomGroup)) as [[p|] g1].
  - destruct (fill_group p roomGroup st) as [st1|] eqn:Hfill; [simpl|done].
    intros [= <- <-]. by rewrite (fill_group_overflow _ _ _ _ Hfill).
  - intros [= <- <-]. simpl. set_solver.
Qed.

Lemma shared_loop_overflow sharedRooms : ∀ g st st' g',
  shared_loop g st sharedRooms = Some (st', g') →
  unassignedSharedRooms st ⊆ unassignedSharedRooms st'.
Proof.
  induction sharedRooms as [|roomGroup rest IH]; intros g st st' g'; simpl.
  - by intros [= <- <-].
  - destruct (assign_shared g st roomGroup) as [[st1 g1]|] eqn:Hstep; [simpl|done].
    intros Hrest. apply assign_shared_overflow in Hstep. apply IH in Hrest. set_solver.
Qed.

Lemma shared_loop_app before later : ∀ g st,
  shared_loop g st (before ++ later) =
  '(st', g') ← shared_loop g st before; shared_loop g' st' later.
Proof.
  induction before as [|roomGroup rest IH]; intros g st; simpl; [done|].
  destruct (assign_shared g st roomGroup) as [[st1 g1]|]; simpl; [apply IH | done].
Qed.

(** C1.  In the loop over the shared groups, when the group reached has
    more slots than the male pool has people and more than the female pool
    has, the round moves all the slots of the group to the overflow list
    and changes nothing else: no pool, no row of [result], no draw.  The
    slots are still in the overflow list when the loop ends, and they are
    among the slots the last loop walks as single slots. *)
Theorem short_pools_overflow g0 st0 before roomGroup later st g st_end g_end :
  shared_loop g0 st0 before = Some (st, g) →
  length (maleEmployees st) < length roomGroup →
  length (femaleEmployees st) < length roomGroup →
  shared_loop g0 st0 (before ++ roomGroup :: later) = Some (st_end, g_end) →
  assign_shared g st roomGroup =
    Some (mkAlloc (maleEmployees st) (femaleEmployees st) (result st)
            (unassignedSharedRooms st ++ roomGroup), g)
  ∧ ∀ ri, ri ∈ roomGroup →
      ri ∈ unassignedSharedRooms st_end
      ∧ ∀ g' singleRooms, ri ∈ (single_slots g' singleRooms st_end).1.1.
Proof.
  intros Hbefore Hm Hf Hall.
  assert (Hstep : assign_shared g st roomGroup =
    Some (mkAlloc (maleEmployees st) (femaleEmployees st) (result st)
            (unassignedSharedRooms st ++ roomGroup), g)).
  { unfold assign_shared, select_pool.
    destruct (Nat.leb_spec (length roomGroup) (length (maleEmployees st))); [lia|].
    destruct (Nat.leb_spec (length roomGroup) (length (femaleEmployees st))); [lia|].
    reflexivity. }
  split; [exact Hstep|]. intros ri Hri.
  rewrite shared_loop_app, Hbefore in Hall. simpl in Hall. rewrite Hstep in Hall. simpl in Hall.
  apply shared_loop_overflow in Hall. simpl in Hall.
  assert (Hin : ri ∈ unassignedSharedRooms st_end) by set_solver.
  split; [exact Hin|]. intros g' singleRooms.
  destruct (single_slots_Permutation g' singleRooms st_end) as [-> _]. set_solver.
Qed.

Lemma short_pools_overflow_witness :
  assign_shared [] one_of_each a_shared_group = Some (overflowed, [])
  ∧ ∀ ri, ri ∈ a_shared_group →
      ri ∈ unassignedSharedRooms overflowed
      ∧ ∀ g' singleRooms, ri ∈ (single_slots g' singleRooms overflowed).1.1.
Proof.
  apply (short_pools_overflow [] one_of_each [] a_shared_group [] one_of_each [] overflowed []).
  - reflexivity.
  - simpl. lia.
  - simpl. lia.
  - reflexivity.
Defined.

(** ** Shared rooms *)

Lemma fst_unique {A B} (l : list (A * B)) k v1 v2 :
  NoDup l.*1 → (k, v1) ∈ l → (k, v2) ∈ l → v1 = v2.
Proof.
  induction l as [|[k' v'] l IH]; csimpl; [by intros _ ?%elem_of_nil|].
  intros [Hnotin Hnd]%NoDup_cons [[= -> ->]|H1]%elem_of_cons [[= ->]|H2]%elem_of_cons.
  - done.
  - exfalso. apply Hnotin. by apply (list_elem_of_fmap_2 fst) in H2.
  - exfalso. simplify_eq. apply Hnotin. by apply (list_elem_of_fmap_2 fst) in H1.
  - by apply IH.
Qed.

Lemma two_elements {A} (l : list A) x y : x ∈ l → y ∈ l → x ≠ y → 2 ≤ length l.
Proof.
  destruct l as [|a [|b l]]; simpl; [by intros ?%elem_of_nil| |lia].
  intros ->%list_elem_of_singleton ->%list_elem_of_singleton. done.
Qed.

Lemma elem_of_concat {A} (x : A) (ls : list (list A)) :
  x ∈ concat ls ↔ ∃ l, l ∈ ls ∧ x ∈ l.
Proof.
  induction ls as [|l ls IH]; simpl.
  - split; [by intros ?%elem_of_nil | by intros (l & ?%elem_of_nil & _)].
  - rewrite elem_of_app, IH. split.
    + intros [Hx|(l' & Hl' & Hx)]; [exists l; split; [left | done]|].
      exists l'. split; [by right | done].
    + intros (l' & [->|Hl']%elem_of_cons & Hx); [by left | right; by exists l'].
Qed.

Lemma lookup_filled {A} (arr : list (option A)) i e :
  arr !! i = Some (Some e) → e ∈ omap id arr.
Proof.
  intros Hi. apply list_elem_of_omap. exists (Some e). split; [|done].
  by eapply list_elem_of_lookup_2.
Qed.

(** Two slots of one base room are in one group of [sharedRooms]. *)
Lemma same_room_same_group data p roomGroups i j di dj :
  prepared_ok data p roomGroups →
  i ≠ j → data !! i = Some di → data !! j = Some dj →
  baseRoom (parseRoomNumber (roomNumber di)) = baseRoom (parseRoomNumber (roomNumber dj)) →
  ∃ roomGroup, roomGroup ∈ sharedRooms p
    ∧ slot i (roomNumber di) ∈ roomGroup ∧ slot j (roomNumber dj) ∈ roomGroup
    ∧ ∀ ri, ri ∈ roomGroup → base_of ri = baseRoom (parseRoomNumber (roomNumber di)).
Proof.
  intros Hp Hij Hi Hj Hbase.
  assert (Hslot : ∀ n d, data !! n = Some d →
            ∃ k l, (k, l) ∈ roomGroups ∧ slot n (roomNumber d) ∈ l).
  { intros n d Hn.
    assert (Hin : slot n (roomNumber d) ∈ concat roomGroups.*2).
    { rewrite (prep_all _ _ _ Hp). apply elem_of_slots_from. exists n, (roomNumber d).
      split; [|done]. by rewrite list_lookup_fmap, Hn. }
    apply elem_of_concat in Hin as (l & Hl & Hin).
    apply list_elem_of_fmap in Hl as ([k l'] & -> & Hkl). by exists k, l'. }
  destruct (Hslot i di Hi) as (k1 & l1 & Hkl1 & Hin1).
  destruct (Hslot j dj Hj) as (k2 & l2 & Hkl2 & Hin2).
  pose proof (prep_groups_ok _ _ _ Hp) as [Hnd _ Hkeyed].
  destruct (Hkeyed k1 l1 Hkl1) as [_ Hk1]. destruct (Hkeyed k2 l2 Hkl2) as [_ Hk2].
  pose proof (Hk1 _ Hin1) as Hb1. pose proof (Hk2 _ Hin2) as Hb2.
  unfold base_of in Hb1, Hb2. simpl in Hb1, Hb2.
  assert (k2 = k1) as -> by congruence.
  assert (l2 = l1) as -> by (by eapply fst_unique).
  exists l1. split_and!; try done.
  - apply (prep_shared _ _ _ Hp). split; [|by exists k1].
    eapply two_elements; [exact Hin1 | exact Hin2 |]. intros [= ? _]. done.
  - intros ri Hri. rewrite Hb1. by apply Hk1.
Qed.

(** X22.  Two rows whose rooms have the same base room are slots of one
    group of [sharedRooms], and when the loop over the shared groups ends
    that group is either deferred as a whole, every slot of it waiting in
    the overflow list and none of them written, or filled as a whole from
    one pool: every slot of it holds a row of the result, all of these rows
    of one and the same gender. *)
Theorem shared_group_one_gender_or_deferred g data p g1 st g2 res g' i j di dj :
  prepare g data = Some (p, g1) →
  shared_loop g1 (start p) (sharedRooms p) = Some (st, g2) →
  allocate_single g2 (singleRooms p) st = (res, g') →
  i ≠ j → data !! i = Some di → data !! j = Some dj →
  baseRoom (parseRoomNumber (roomNumber di)) = baseRoom (parseRoomNumber (roomNumber dj)) →
  ∃ roomGroup, roomGroup ∈ sharedRooms p
    ∧ slot i (roomNumber di) ∈ roomGroup ∧ slot j (roomNumber dj) ∈ roomGroup
    ∧ ((∀ ri, ri ∈ roomGroup →
          ri ∈ unassignedSharedRooms st
          ∧ result st !! RoomInfo.originalIndex ri = Some None)
       ∨ (∃ γ, (γ = male ∨ γ = female) ∧ ∀ ri, ri ∈ roomGroup →
            ∃ e, result st !! RoomInfo.originalIndex ri = Some (Some e)
              ∧ e ∈ res ∧ gender e = γ ∧ roomNumber e = RoomInfo.fullRoom ri)).
Proof.
  intros Hprep Hloop Hfin Hij Hi Hj Hbase.
  destruct (prepare_ok _ _ _ _ Hprep) as [roomGroups Hp].
  destruct (same_room_same_group _ _ _ _ _ _ _ Hp Hij Hi Hj Hbase)
    as (roomGroup & HG & Hin1 & Hin2 & _).
  exists roomGroup. split_and!; try done.
  destruct (performLottery_array _ _ _ _ _ _ Hprep Hloop g2)
    as (avail & pend & Hinv & Hloop_inv & Hkeep & Hset & _).
  pose proof (allocate_single_Permutation g2 (singleRooms p) st) as Hperm.
  rewrite Hfin in Hperm. simpl in Hperm.
  destruct (Hset _ HG) as [Hdef|[q Hfill]]; [left | right].
  { intros ri Hri. split; [by apply Hdef|].
    apply (inv_pend _ _ _ _ _ Hloop_inv). apply elem_of_app. right. by apply Hdef. }
  exists (pool_gender q). split; [destruct q; auto|].
  intros ri Hri. destruct (Hfill ri Hri) as (e & He & Hg & Hr).
  exists e. split_and!; try done. rewrite Hperm. eapply lookup_filled, Hkeep, He.
Qed.

Lemma shared_group_one_gender_or_deferred_witness :
  ∃ roomGroup, roomGroup ∈ sharedRooms couple_prepared
    ∧ slot 0 "南-16-1-1001-A" ∈ roomGroup ∧ slot 1 "南-16-1-1001-B" ∈ roomGroup
    ∧ ((∀ ri, ri ∈ roomGroup →
          ri ∈ unassignedSharedRooms couple_shared
          ∧ result couple_shared !! RoomInfo.originalIndex ri = Some None)
       ∨ (∃ γ, (γ = male ∨ γ = female) ∧ ∀ ri, ri ∈ roomGroup →
            ∃ e, result couple_shared !! RoomInfo.originalIndex ri = Some (Some e)
              ∧ e ∈ couple_result ∧ gender e = γ ∧ roomNumber e = RoomInfo.fullRoom ri)).
Proof.
  apply (shared_group_one_gender_or_deferred [] couple couple_prepared [] couple_shared []
           couple_result [] 0 1
           (mkEntry "E1" male "南-16-1-1001-A") (mkEntry "E2" male "南-16-1-1001-B")).
  - vm_compute. reflexivity.
  - vm_compute. reflexivity.
  - vm_compute. reflexivity.
  - lia.
  - reflexivity.
  - reflexivity.
  - vm_compute. reflexivity.
Defined.

(** C2.  The code breaks the claim, and what [performLottery] is
    documented to ensure (the same gender in the bedrooms of one room): on
    [mixed], one man and one woman for the two bedrooms of one room, the
    group overflows and the last loop gives one bedroom to each, so the
    result holds a man and a woman in the two bedrooms of one room. *)
Lemma shared_room_mixed_genders :
  ¬ (∀ g data res g',
       performLottery g data = Some (res, g') →
       ∀ e1 e2, e1 ∈ res → e2 ∈ res →
         baseRoom (parseRoomNumber (roomNumber e1)) = baseRoom (parseRoomNumber (roomNumber e2)) →
         gender e1 = gender e2).
Proof.
  intros H.
  assert (Hrun : performLottery [] mixed =
    Some ([ mkEntry "E2" female "南-16-1-1001-B"; mkEntry "E1" male "南-16-1-1001-A" ], []))
    by (vm_compute; reflexivity).
  specialize (H _ _ _ _ Hrun (mkEntry "E2" female "南-16-1-1001-B")
                (mkEntry "E1" male "南-16-1-1001-A")).
  discriminate H; [left | right; left | vm_compute; reflexivity].
Qed.

(** ** Employees and rooms of the result *)

(** C3.  When no [employeeId] occurs twice in the input, every [employeeId]
    of the result is one of the input, and none occurs twice in the
    result. *)
Theorem employee_ids_from_input_once g data res g' :
  NoDup (employeeId <$> data) →
  performLottery g data = Some (res, g') →
  (∀ e, e ∈ res → employeeId e ∈ employeeId <$> data)
  ∧ NoDup (employeeId <$> res).
Proof.
  intros Hnd Hrun.
  assert (Hsub : employeeId <$> res ⊆+ employeeId <$> data).
  { pose proof (returned_employees _ _ _ _ Hrun) as H1.
    pose proof (pooled_submseteq data) as H2.
    assert (H3 : Employee.employeeId <$> (employee_of <$> res)
                   ⊆+ Employee.employeeId <$> employees_of data)
      by (apply fmap_submseteq; etrans; done).
    unfold employees_of in H3. rewrite <- !list_fmap_compose in H3. exact H3. }
  split.
  - intros e He. eapply elem_of_submseteq; [|exact Hsub]. by apply list_elem_of_fmap_2.
  - by eapply submseteq_NoDup.
Qed.

Lemma employee_ids_from_input_once_witness :
  (∀ e, e ∈ couple_result → employeeId e ∈ employeeId <$> couple)
  ∧ NoDup (employeeId <$> couple_result).
Proof.
  apply (employee_ids_from_input_once [] couple couple_result []).
  - apply (bool_decide_unpack _). vm_compute. exact I.
  - vm_compute. reflexivity.
Defined.

(** C4 as stated fails: on [same_label] the result names the room ["R1"]
    twice. *)
Lemma room_label_twice :
  ¬ (∀ g data res g',
       performLottery g data = Some (res, g') →
       (∀ e, e ∈ res → roomNumber e ∈ roomNumber <$> data)
       ∧ NoDup (roomNumber <$> res)).
Proof.
  intros H.
  assert (Hrun : performLottery [] same_label =
    Some ([ mkEntry "E1" male "R1"; mkEntry "E2" male "R1" ], []))
    by (vm_compute; reflexivity).
  destruct (H _ _ _ _ Hrun) as [_ Hnd]. csimpl in Hnd.
  apply NoDup_cons in Hnd as [Hnotin _]. apply Hnotin. left.
Qed.

(** C4, as amended.  Every [roomNumber] of the result is one of the input,
    and it occurs in the result at most as often as in the input: at most
    once when no two rows of the input name the same room. *)
Theorem room_slots_from_input g data res g' :
  performLottery g data = Some (res, g') →
  (∀ e, e ∈ res → roomNumber e ∈ roomNumber <$> data)
  ∧ roomNumber <$> res ⊆+ roomNumber <$> data
  ∧ (NoDup (roomNumber <$> data) → NoDup (roomNumber <$> res)).
Proof.
  intros Hrun. pose proof (returned_rooms _ _ _ _ Hrun) as Hsub. split_and!.
  - intros e He. eapply elem_of_submseteq; [|exact Hsub]. by apply list_elem_of_fmap_2.
  - exact Hsub.
  - by apply submseteq_NoDup.
Qed.

Lemma room_slots_from_input_witness :
  (∀ e, e ∈ couple_result → roomNumber e ∈ roomNumber <$> couple)
  ∧ roomNumber <$> couple_result ⊆+ roomNumber <$> couple
  ∧ (NoDup (roomNumber <$> couple) → NoDup (roomNumber <$> couple_result)).
Proof.
  apply (room_slots_from_input [] couple couple_result []).
  vm_compute. reflexivity.
Defined.

(** ** How many rows *)

(** C5, as amended.  The result has at most
    [min totalEmployees totalRoomSlots] rows.  It has exactly that many when
    the gender of every row of the input is one of the two, no slot is in
    the overflow list when the loop over the shared groups ends, and there
    are as many employees as slots. *)
Theorem result_count g data p g1 st g2 res g' :
  prepare g data = Some (p, g1) →
  shared_loop g1 (start p) (sharedRooms p) = Some (st, g2) →
  allocate_single g2 (singleRooms p) st = (res, g') →
  length res ≤ min (totalEmployees data) (totalRoomSlots data)
  ∧ (Forall canonical data →
     unassignedSharedRooms st = [] →
     totalEmployees data = totalRoomSlots data →
     length res = min (totalEmployees data) (totalRoomSlots data)).
Proof.
  intros Hprep Hloop Hfin.
  assert (Hrun : performLottery g data = Some (res, g'))
    by (apply performLottery_Some; by exists p, g1, st, g2).
  unfold totalEmployees, totalRoomSlots, employees_of. rewrite !length_fmap.
  rewrite Nat.min_id. split.
  - by destruct (returned_length _ _ _ _ Hrun).
  - intros Hcanon _ _. by eapply returned_all.
Qed.

Lemma result_count_witness :
  length couple_result ≤ min (totalEmployees couple) (totalRoomSlots couple)
  ∧ (Forall canonical couple →
     unassignedSharedRooms couple_shared = [] →
     totalEmployees couple = totalRoomSlots couple →
     length couple_result = min (totalEmployees couple) (totalRoomSlots couple)).
Proof.
  apply (result_count [] couple couple_prepared [] couple_shared [] couple_result []).
  - vm_compute. reflexivity.
  - vm_compute. reflexivity.
  - vm_compute. reflexivity.
Defined.

(** C5 as stated fails: [stranger] has no shared group, so that nothing
    overflows, and two employees for two slots, but the result has one
    row: the person whose gender is neither of the two is in no pool. *)
Lemma rows_short_of_the_count :
  ¬ (∀ g data p g1 st g2 res g',
       prepare g data = Some (p, g1) →
       shared_loop g1 (start p) (sharedRooms p) = Some (st, g2) →
       allocate_single g2 (singleRooms p) st = (res, g') →
       length res ≤ min (totalEmployees data) (totalRoomSlots data)
       ∧ (unassignedSharedRooms st = [] →
          totalEmployees data = totalRoomSlots data →
          length res = min (totalEmployees data) (totalRoomSlots data))).
Proof.
  intros H.
  destruct (H half stranger stranger_prepared stranger_rng stranger_shared stranger_rng
              [mkEntry "E2" male "R1"] []) as [_ Heq];
    [vm_compute; reflexivity..|].
  specialize (Heq eq_refl eq_refl). vm_compute in Heq. discriminate Heq.
Qed.

(** ** A gender that is neither of the two *)

Lemma fmap_unique {A B} (f : A → B) (l : list A) x y :
  NoDup (f <$> l) → x ∈ l → y ∈ l → f x = f y → x = y.
Proof.
  induction l as [|a l IH]; csimpl; [by intros _ ?%elem_of_nil|].
  intros [Hnotin Hnd]%NoDup_cons [->|Hx]%elem_of_cons [->|Hy]%elem_of_cons Heq.
  - done.
  - exfalso. apply Hnotin. rewrite Heq. by apply list_elem_of_fmap_2.
  - exfalso. apply Hnotin. rewrite <- Heq. by apply list_elem_of_fmap_2.
  - by apply IH.
Qed.

Lemma elem_of_pooled data e :
  e ∈ pooled data ↔
  (Employee.gender e = male ∨ Employee.gender e = female) ∧ e ∈ employees_of data.
Proof.
  unfold pooled. rewrite elem_of_app, !list_elem_of_filter. tauto.
Qed.

Lemma pooled_length_lt data d :
  d ∈ data → ¬ canonical d → length (pooled data) < length data.
Proof.
  unfold canonical. intros Hd Hnc.
  induction data as [|d0 data IH]; [by apply elem_of_nil in Hd|].
  pose proof (submseteq_length _ _ (pooled_submseteq data)) as Hle.
  unfold employees_of in Hle. rewrite length_fmap in Hle.
  unfold pooled, employees_of in *. csimpl. rewrite !filter_cons. simpl.
  rewrite length_app in *.
  apply elem_of_cons in Hd as [<-|Hd].
  - rewrite !decide_False by tauto. simpl. lia.
  - specialize (IH Hd). repeat case_decide; simpl; try lia.
    exfalso. eapply male_ne_female. congruence.
Qed.

(** C10.  A row whose gender is neither of the two is in neither pool; no
    row of the result has its gender, and its [employeeId] is not in the
    result when no [employeeId] occurs twice in the input.  Its slot is
    grouped like any other, and a run can give that slot to someone else
    (the run on [stranger]).  The result has fewer rows than the input. *)
Theorem other_gender_never_placed g data p g1 st g2 res g' i d :
  prepare g data = Some (p, g1) →
  shared_loop g1 (start p) (sharedRooms p) = Some (st, g2) →
  allocate_single g2 (singleRooms p) st = (res, g') →
  data !! i = Some d → gender d ≠ male → gender d ≠ female →
  (Employee.mk (employeeId d) (gender d)
     ∉ maleEmployees (start p) ++ femaleEmployees (start p))
  ∧ (∀ e, e ∈ res → gender e ≠ gender d)
  ∧ (NoDup (employeeId <$> data) → employeeId d ∉ employeeId <$> res)
  ∧ slot i (roomNumber d) ∈ concat (sharedRooms p) ++ singleRooms p
  ∧ performLottery half stranger = Some ([mkEntry "E2" male "R1"], [])
  ∧ length res < length data.
Proof.
  intros Hprep Hloop Hfin Hi Hm Hf.
  assert (Hrun : performLottery g data = Some (res, g'))
    by (apply performLottery_Some; by exists p, g1, st, g2).
  destruct (prepare_ok _ _ _ _ Hprep) as [roomGroups Hp].
  pose proof (returned_employees _ _ _ _ Hrun) as Hsub.
  assert (Hd : d ∈ data) by (by eapply list_elem_of_lookup_2).
  assert (Hres : ∀ e, e ∈ res → employee_of e ∈ pooled data).
  { intros e He. eapply elem_of_submseteq; [|exact Hsub]. by apply list_elem_of_fmap_2. }
  split_and!.
  - rewrite (prep_male _ _ _ Hp), (prep_female _ _ _ Hp).
    fold (pooled data). rewrite elem_of_pooled. simpl. tauto.
  - intros e He Heq. apply Hres, elem_of_pooled in He as [Hg _]. simpl in Hg.
    rewrite Heq in Hg. tauto.
  - intros Hnd (e & Hid & He)%list_elem_of_fmap.
    apply Hres, elem_of_pooled in He as [Hg Hin]. simpl in Hg.
    apply list_elem_of_fmap in Hin as (d' & Heq & Hd'). injection Heq as Hid' Hg'.
    assert (d' = d) as -> by (eapply fmap_unique; [exact Hnd | done | done | congruence]).
    rewrite Hg' in Hg. tauto.
  - rewrite (prep_slots _ _ _ Hp). apply elem_of_slots_from. exists i, (roomNumber d).
    split; [|done]. by rewrite list_lookup_fmap, Hi.
  - vm_compute. reflexivity.
  - destruct (returned_length _ _ _ _ Hrun) as [Hle _].
    pose proof (pooled_length_lt data d Hd) as Hlt. unfold canonical in Hlt.
    assert (length (pooled data) < length data) by (apply Hlt; tauto). lia.
Qed.

Lemma other_gender_never_placed_witness :
  (Employee.mk "E1" "X"
     ∉ maleEmployees (start stranger_prepared) ++ femaleEmployees (start stranger_prepared))
  ∧ (∀ e, e ∈ [mkEntry "E2" male "R1"] → gender e ≠ "X")
  ∧ (NoDup (employeeId <$> stranger) → "E1" ∉ employeeId <$> [mkEntry "E2" male "R1"])
  ∧ slot 0 "R1" ∈ concat (sharedRooms stranger_prepared) ++ singleRooms stranger_prepared
  ∧ performLottery half stranger = Some ([mkEntry "E2" male "R1"], [])
  ∧ length [mkEntry "E2" male "R1"] < length stranger.
Proof.
  apply (other_gender_never_placed half stranger stranger_prepared stranger_rng
           stranger_shared stranger_rng [mkEntry "E2" male "R1"] [] 0 (mkEntry "E1" "X" "R1")).
  - vm_compute. reflexivity.
  - vm_compute. reflexivity.
  - vm_compute. reflexivity.
  - reflexivity.
  - discriminate.
  - discriminate.
Defined.

(** ** The session *)

Lemma wf_initial g : wf (initial_world g).
Proof. split; simpl; try lia; set_solver. Qed.

Lemma random_display_fst g data items :
  length (random_display g data items).1 = length items.
Proof.
  revert g. induction items as [|x items IH]; intros g; simpl; [done|].
  destruct (random_row g data) as [row g1]. specialize (IH g1).
  destruct (random_display g1 data items) as [rows g2]. simpl in *. by rewrite IH.
Qed.

Lemma init_wf data w : wf w → wf (init data w).
Proof.
  intros [H1 H2 H3 H4 H5]. unfold init. simpl. split; simpl; try lia.
  - intros r Hr. specialize (H4 r Hr). lia.
  - intros Hr. specialize (H4 _ Hr). lia.
Qed.

Lemma init_spec data w :
  let w' := init data w in
  read (originalData (this w')) w' = read data w
  ∧ read (currentData (this w')) w' = read data w
  ∧ isRolling (this w') = false
  ∧ intervals w' = intervals w
  ∧ rollInterval (this w') = rollInterval (this w).
Proof.
  unfold init, read. simpl. rewrite !JSON_copy_id. split_and!; try done.
  - rewrite lookup_insert_ne by lia. by rewrite lookup_insert_eq.
  - by rewrite lookup_insert_eq.
Qed.

Lemma frame_refl w : wf w → frame w w.
Proof. by intros Hwf. Qed.

Lemma frame_trans w1 w2 w3 : frame w1 w2 → frame w2 w3 → frame w1 w3.
Proof.
  intros (_ & Ho1 & Hs1) (Hwf & Ho2 & Hs2). split_and!; [done | congruence |].
  rewrite <- Hs1, <- Ho1. exact Hs2.
Qed.

Lemma held_fresh (held : gset ref) n :
  (∀ r, r ∈ held → r < n) → ∀ r, r ∈ {[n]} ∪ held → r < S n.
Proof.
  intros H r [->%elem_of_singleton|Hr]%elem_of_union; [lia|]. specialize (H r Hr). lia.
Qed.

Lemma private_fresh (held : gset ref) o n :
  o < n → o ∉ held → o ∉ {[n]} ∪ held.
Proof.
  intros Hlt Ho [Heq%elem_of_singleton|Hr]%elem_of_union; [lia | done].
Qed.

(** The frame after a step that has made one new array, handed to the
    client or not. *)
Ltac frame_with_new_array :=
  split_and!; [split; simpl|..]; try done; try lia;
  first [ by apply held_fresh
        | by apply private_fresh
        | unfold call_back; simpl; rewrite lookup_insert_ne by lia; done ].

Lemma startRolling_frame cb w : wf w → frame w (startRolling cb w).
Proof.
  intros Hwf. unfold startRolling. destruct (isRolling (this w)); [by apply frame_refl|].
  destruct Hwf. split_and!; [split|..]; done.
Qed.

Lemma tick_frame h w : wf w → frame w (tick h w).
Proof.
  intros Hwf. unfold tick. destruct (intervals w !! h) as [f|]; [|by apply frame_refl].
  destruct (random_display _ _ _) as [randomDisplay g]. destruct Hwf as [H1 H2 H3 H4 H5].
  simpl. frame_with_new_array.
Qed.

Lemma stopRolling_frame cb w : wf w → frame w (stopRolling cb w).1.
Proof.
  intros Hwf. unfold stopRolling.
  destruct (isRolling (this w)); simpl; [|by apply frame_refl].
  destruct Hwf as [H1 H2 H3 H4 H5].
  destruct (rollInterval (this w)) as [h|]; simpl;
    (destruct (performLottery _ _) as [[res g]|]; simpl;
       [frame_with_new_array | split_and!; [split|..]; done]).
Qed.

Lemma stopRolling_returns cb w r :
  (stopRolling cb w).2 = Returned r → r = currentData (this (stopRolling cb w).1).
Proof.
  unfold stopRolling. destruct (isRolling (this w)); simpl; [|by intros [= <-]].
  destruct (rollInterval (this w)) as [h|]; simpl;
    (destruct (performLottery _ _) as [[res g]|]; simpl; [by intros [= <-] | done]).
Qed.

Lemma receive_frame w res :
  wf w → frame w res.1 → (∀ r, res.2 = Returned r → r = currentData (this res.1)) →
  frame w (receive res).1.
Proof.
  intros Hwf (Hwf' & Ho & Hs) Hret. unfold receive.
  destruct res as [w' [r| |]]; simpl in *; try done.
  specialize (Hret r eq_refl). subst r. destruct Hwf' as [H1 H2 H3 H4 H5].
  split_and!; [split; simpl|..]; try done.
  - intros r [->%elem_of_singleton|Hr]%elem_of_union; [done | by apply H4].
  - intros [Heq%elem_of_singleton|Hr]%elem_of_union; [by symmetry in Heq | done].
Qed.

Lemma step_frame w a : wf w → (∀ data, a ≠ Init data) → frame w (step w a).1.
Proof.
  intros Hwf Ha. destruct a as [data|cb|cb| |h|contents|r contents]; unfold step.
  - by destruct (Ha data).
  - by apply startRolling_frame.
  - apply receive_frame; [done | by apply stopRolling_frame | apply stopRolling_returns].
  - apply (receive_frame w (getCurrentData w));
      [done | by apply frame_refl | by intros r [= <-]].
  - by apply tick_frame.
  - simpl. destruct Hwf as [H1 H2 H3 H4 H5]. frame_with_new_array.
  - simpl. unfold client_write. case_decide as Hheld; [|by apply frame_refl].
    destruct Hwf as [H1 H2 H3 H4 H5]. split_and!; [split|..]; try done.
    simpl. rewrite lookup_insert_ne; [done|]. by intros ->.
Qed.

Lemma step_wf w a : wf w → wf (step w a).1.
Proof.
  intros Hwf. destruct a as [data| | | | | |] eqn:Ha; [by apply init_wf|..];
    by apply step_frame.
Qed.

Lemma run_wf actions : ∀ w, wf w → wf (run w actions).
Proof.
  induction actions as [|a actions IH]; intros w Hwf; [done|].
  apply IH. by apply step_wf.
Qed.

Lemma run_frame actions : ∀ w,
  wf w → Forall (fun a => is_init a = false) actions → frame w (run w actions).
Proof.
  induction actions as [|a actions IH]; intros w Hwf Hno; [by apply frame_refl|].
  apply Forall_cons in Hno as [Ha Hno].
  assert (Hstep : frame w (step w a).1).
  { apply step_frame; [done|]. intros data ->. done. }
  eapply frame_trans; [exact Hstep|]. apply IH; [by destruct Hstep | done].
Qed.

(** C9.  After [init(data)], whatever follows that is not another call of
    [init] (calls of [startRolling], [stopRolling] and [getCurrentData],
    timers firing, the client writing to the arrays it holds), the field
    [originalData] is the same array, and the array holds the rows [data]
    held when [init] was called.  [performLottery] reads it and writes to
    arrays of its own only. *)
Theorem original_snapshot_never_mutated g before data actions :
  Forall (fun a => is_init a = false) actions →
  let w0 := run (initial_world g) before in
  let w1 := init data w0 in
  let w2 := run w1 actions in
  originalData (this w2) = originalData (this w1)
  ∧ read (originalData (this w2)) w2 = read data w0.
Proof.
  intros Hno w0 w1 w2.
  assert (Hwf1 : wf w1) by (apply init_wf, run_wf, wf_initial).
  destruct (run_frame actions w1 Hwf1 Hno) as (_ & Ho & Hs). fold w2 in Ho, Hs.
  split; [exact Ho|]. destruct (init_spec data w0) as [Hinit _]. fold w1 in Hinit.
  rewrite <- Hinit. unfold read. by rewrite Ho, Hs.
Qed.

Lemma original_snapshot_never_mutated_witness :
  let w0 := run (initial_world []) [ClientNew couple] in
  let w1 := init 2 w0 in
  let w2 := run w1 a_session in
  originalData (this w2) = originalData (this w1)
  ∧ read (originalData (this w2)) w2 = read 2 w0.
Proof.
  apply (original_snapshot_never_mutated [] [ClientNew couple] 2 a_session).
  repeat constructor.
Defined.

(** C8.  [stopRolling] called while the module is not rolling returns
    [currentData] and changes nothing.  A second [stopRolling] right after a
    first changes nothing and returns [currentData], which is the array the
    first call returned if it returned one.  [startRolling] called while the
    module is rolling changes nothing: no second timer. *)
Theorem invalid_calls_are_noops w cb cb' :
  (isRolling (this w) = false → stopRolling cb w = (w, Returned (currentData (this w))))
  ∧ (let w1 := (stopRolling cb w).1 in
     stopRolling cb' w1 = (w1, Returned (currentData (this w1)))
     ∧ ∀ r, (stopRolling cb w).2 = Returned r → r = currentData (this w1))
  ∧ (isRolling (this w) = true → startRolling cb w = w).
Proof.
  split_and!.
  - intros Hr. unfold stopRolling. by rewrite Hr.
  - assert (Hstopped : isRolling (this (stopRolling cb w).1) = false).
    { unfold stopRolling. destruct (isRolling (this w)) eqn:Hr; simpl; [|done].
      destruct (rollInterval (this w)); simpl;
        by destruct (performLottery _ _) as [[res g]|]. }
    split; [|apply stopRolling_returns].
    unfold stopRolling at 1. by rewrite Hstopped.
  - intros Hr. unfold startRolling. by rewrite Hr.
Qed.

(** C7.  [init] stores the rows of [data] in two new arrays and sets
    [isRolling] to [false], but it leaves the timers and [rollInterval] as
    they are.  So after [init] in the middle of a roll ([reloaded]) the
    module is not rolling and yet the timer of the roll is active: when it
    fires, the callback is called with the flag [true] and rows drawn from
    the old rows, and [stopRolling] does not clear it. *)
Theorem init_leaves_the_timer_running :
  (∀ data w, intervals (init data w) = intervals w
     ∧ rollInterval (this (init data w)) = rollInterval (this w)
     ∧ isRolling (this (init data w)) = false
     ∧ read (originalData (this (init data w))) (init data w) = read data w
     ∧ read (currentData (this (init data w))) (init data w) = read data w)
  ∧ isRolling (this reloaded) = false
  ∧ intervals reloaded !! 1 = Some (mkInterval 3 7)
  ∧ read 3 reloaded = couple
  ∧ read (originalData (this reloaded)) reloaded = []
  ∧ calls reloaded = []
  ∧ (∃ a, calls (tick 1 reloaded) = [mkCall 7 a true] ∧ length (read a (tick 1 reloaded)) = 3)
  ∧ (stopRolling 7 reloaded).1 = reloaded.
Proof.
  split.
  { intros data w. destruct (init_spec data w) as (H1 & H2 & H3 & H4 & H5). done. }
  split_and!; try (vm_compute; reflexivity).
  eexists. split; vm_compute; reflexivity.
Qed.

(** ** Further properties of [parseRoomNumber] *)

Lemma has_char_app c a b : has_char c (a +:+ b) = has_char c a || has_char c b.
Proof.
  induction a as [|x a IH]; [done|].
  change (has_char c (String x (a +:+ b)) = has_char c (String x a) || has_char c b).
  simpl. rewrite IH. by rewrite orb_assoc.
Qed.

Lemma join_has_sep sep p q ps :
  has_char sep (JsString.join (String sep EmptyString) (p :: q :: ps)) = true.
Proof.
  rewrite join_cons2, !has_char_app. simpl. rewrite bool_decide_eq_true_2 by done.
  simpl. by rewrite orb_true_r.
Qed.

Lemma slice_init_length parts : length (JsString.slice_init parts) = length parts - 1.
Proof. unfold JsString.slice_init. rewrite length_take. lia. Qed.

(** The label is the base room, or the base room, a dash and the bedroom. *)
Lemma parse_rejoin roomNumber :
  roomNumber =
    match bedroom (parseRoomNumber roomNumber) with
    | Some letter => baseRoom (parseRoomNumber roomNumber) +:+ "-" +:+ letter
    | None => baseRoom (parseRoomNumber roomNumber)
    end.
Proof.
  destruct (parse_cases roomNumber) as [[[_ Hlen] Heq]|[_ Heq]]; rewrite Heq; simpl; [|done].
  rewrite <- (join_init_last "-") by lia. symmetry. apply (join_split dash).
Qed.

(** X1.  [parseRoomNumber] loses nothing of the label: two labels that
    differ never give the same base room and bedroom. *)
Theorem parseRoomNumber_distinct s1 s2 :
  s1 ≠ s2 → parseRoomNumber s1 ≠ parseRoomNumber s2.
Proof.
  intros Hne Heq. apply Hne.
  rewrite (parse_rejoin s1), (parse_rejoin s2). by rewrite Heq.
Qed.

Lemma parseRoomNumber_distinct_witness :
  parseRoomNumber "南-16-1-1001-A" ≠ parseRoomNumber "南-16-1-1001-B".
Proof. apply (parseRoomNumber_distinct "南-16-1-1001-A" "南-16-1-1001-B"). discriminate. Defined.

(** A base room that comes with a bedroom has four parts or more, so it
    holds a dash. *)
Lemma base_with_bedroom_has_dash roomNumber :
  is_Some (bedroom (parseRoomNumber roomNumber)) →
  has_char dash (baseRoom (parseRoomNumber roomNumber)) = true.
Proof.
  destruct (parse_cases roomNumber) as [[[_ Hlen] Heq]|[_ Heq]]; rewrite Heq; simpl;
    [|by intros [? ?]].
  intros _. pose proof (slice_init_length (JsString.split dash roomNumber)) as Hl.
  destruct (JsString.slice_init _) as [|p [|q ps]]; simpl in Hl; try lia.
  apply (join_has_sep dash).
Qed.

Lemma prototype_names_no_dash :
  Forall (fun k => has_char dash k = false) JsObject.Object_prototype_names.
Proof. repeat constructor. Qed.

Lemma base_room_inherited roomNumber :
  baseRoom (parseRoomNumber roomNumber) ∈ JsObject.Object_prototype_names ↔
  roomNumber ∈ JsObject.Object_prototype_names.
Proof.
  destruct (bedroom (parseRoomNumber roomNumber)) as [letter|] eqn:Hbed.
  - pose proof (base_with_bedroom_has_dash roomNumber) as Hdash.
    rewrite Hbed in Hdash. specialize (Hdash (ltac:(eauto))).
    pose proof prototype_names_no_dash as Hno. rewrite Forall_forall in Hno.
    split.
    + intros Hin. apply Hno in Hin. congruence.
    + intros Hin. exfalso. apply Hno in Hin.
      rewrite (parse_rejoin roomNumber), Hbed, !has_char_app, Hdash in Hin. done.
  - by rewrite (parse_rejoin roomNumber) at 2; rewrite Hbed.
Qed.

(** X2.  [performLottery] throws exactly when some row has a room whose
    label is the name of a property that every object inherits
    ([constructor], [toString], ...); on every other input, the empty one
    too, it returns. *)
Theorem performLottery_throws_iff g data :
  performLottery g data = None ↔
  ∃ d, d ∈ data ∧ roomNumber d ∈ JsObject.Object_prototype_names.
Proof.
  rewrite performLottery_None. by setoid_rewrite base_room_inherited.
Qed.

(** ** Everyone of the two genders is placed *)

Lemma pooled_length_le data : length (pooled data) ≤ length data.
Proof.
  pose proof (submseteq_length _ _ (pooled_submseteq data)) as H.
  unfold employees_of in H. by rewrite length_fmap in H.
Qed.

Lemma fill_singles_all_placed data g singleRooms st :
  inv data (pooled data) (result st) (available st)
    (singleRooms ++ unassignedSharedRooms st) →
  employee_of <$> omap id (fill_singles g singleRooms st).1 ≡ₚ pooled data.
Proof.
  intros Hinv. unfold fill_singles.
  destruct (single_slots_Permutation g singleRooms st) as [Hrooms Hemps].
  destruct (single_slots g singleRooms st) as [[rooms remaining] g']. simpl in *.
  assert (Hinv1 : inv data (pooled data) (result st) remaining rooms)
    by (eapply inv_perm; [symmetry; exact Hemps | symmetry; exact Hrooms | exact Hinv]).
  assert (Hle : length remaining ≤ length rooms).
  { pose proof (inv_emps _ _ _ _ _ Hinv1) as He. pose proof (inv_count _ _ _ _ _ Hinv1) as Hc.
    apply Permutation_length in He. rewrite length_app, length_fmap in He.
    pose proof (pooled_length_le data). lia. }
  destruct (single_loop_inv data (pooled data) rooms remaining _ Hinv1) as [Hinv' _].
  pose proof (inv_emps _ _ _ _ _ Hinv') as He.
  rewrite drop_ge in He by done. by rewrite app_nil_r in He.
Qed.

Lemma performLottery_placed g data res g' :
  performLottery g data = Some (res, g') → employee_of <$> res ≡ₚ pooled data.
Proof.
  intros (p & g1 & st & g2 & Hprep & Hloop & Hfin)%performLottery_Some.
  destruct (performLottery_array _ _ _ _ _ _ Hprep Hloop g2) as (_ & _ & _ & Hinv & _).
  pose proof (allocate_single_Permutation g2 (singleRooms p) st) as Hperm.
  rewrite Hfin in Hperm. simpl in Hperm. rewrite Hperm.
  by apply fill_singles_all_placed.
Qed.

(** X3.  In every result of [performLottery] the people are, each as
    often as in the input, the people of the input whose gender is one of
    the two: each of them has a room, whatever the rooms are, and nobody
    else has one. *)
Theorem everyone_of_the_two_genders_is_placed g data res g' :
  performLottery g data = Some (res, g') →
  employee_of <$> res ≡ₚ
    filter (fun e => Employee.gender e = male ∨ Employee.gender e = female) (employees_of data).
Proof.
  intros Hrun. rewrite (performLottery_placed _ _ _ _ Hrun).
  unfold pooled. induction (employees_of data) as [|e l IH]; [done|].
  rewrite !filter_cons. destruct (decide (Employee.gender e = male)) as [Hm|Hm].
  - rewrite decide_False by (rewrite Hm; apply male_ne_female).
    rewrite decide_True by tauto. simpl. by rewrite IH.
  - destruct (decide (Employee.gender e = female)) as [Hf|Hf].
    + rewrite decide_True by tauto. rewrite <- Permutation_middle. by rewrite IH.
    + rewrite decide_False by tauto. exact IH.
Qed.

Lemma everyone_of_the_two_genders_is_placed_witness :
  employee_of <$> [mkEntry "E2" male "R1"] ≡ₚ
    filter (fun e => Employee.gender e = male ∨ Employee.gender e = female)
      (employees_of stranger).
Proof.
  apply (everyone_of_the_two_genders_is_placed half stranger [mkEntry "E2" male "R1"] []).
  vm_compute. reflexivity.
Defined.

(** X4.  When every row has one of the two genders, the result of
    [performLottery] is the input with the people dealt anew: its people
    are the people of the input and its rooms are the rooms of the input,
    each as often as there. *)
Theorem all_placed_all_filled g data res g' :
  Forall canonical data →
  performLottery g data = Some (res, g') →
  employee_of <$> res ≡ₚ employees_of data
  ∧ roomNumber <$> res ≡ₚ roomNumber <$> data.
Proof.
  intros Hcanon Hrun. split.
  - rewrite (performLottery_placed _ _ _ _ Hrun). by apply pooled_Permutation.
  - apply submseteq_length_Permutation; [by eapply returned_rooms|].
    rewrite !length_fmap. by rewrite (returned_all _ _ _ _ Hrun Hcanon).
Qed.

Lemma all_placed_all_filled_witness :
  employee_of <$> couple_result ≡ₚ employees_of couple
  ∧ roomNumber <$> couple_result ≡ₚ roomNumber <$> couple.
Proof.
  apply (all_placed_all_filled [] couple couple_result []).
  - repeat (apply Forall_cons; split; [vm_compute; auto|]). constructor.
  - vm_compute. reflexivity.
Defined.

(** ** Which groups overflow *)

Lemma fill_group_pools p roomGroup : ∀ st st',
  fill_group p roomGroup st = Some st' →
  length (maleEmployees st') ≤ length (maleEmployees st)
  ∧ length (femaleEmployees st') ≤ length (femaleEmployees st)
  ∧ unassignedSharedRooms st' = unassignedSharedRooms st.
Proof.
  induction roomGroup as [|roomInfo rest IH]; intros st st'; simpl.
  - by intros [= <-].
  - destruct (get_pool p st) as [|employee selectedPool] eqn:Hpool; [done|].
    intros (H1 & H2 & H3)%IH. destruct p; simpl in *; rewrite Hpool; simpl; split_and!; (lia || done).
Qed.

Lemma assign_shared_pools g st roomGroup st' g' :
  assign_shared g st roomGroup = Some (st', g') →
  length (maleEmployees st') ≤ length (maleEmployees st)
  ∧ length (femaleEmployees st') ≤ length (femaleEmployees st)
  ∧ (unassignedSharedRooms st' = unassignedSharedRooms st
     ∨ unassignedSharedRooms st' = unassignedSharedRooms st ++ roomGroup
       ∧ length (maleEmployees st) < length roomGroup
       ∧ length (femaleEmployees st) < length roomGroup).
Proof.
  unfold assign_shared, select_pool.
  destruct (Nat.leb_spec (length roomGroup) (length (maleEmployees st))) as [Hm|Hm];
    destruct (Nat.leb_spec (length roomGroup) (length (femaleEmployees st))) as [Hf|Hf];
    simpl.
  - destruct (Math_random g) as [r g1].
    destruct (fill_group _ roomGroup st) as [st1|] eqn:Hfill; [simpl|done].
    intros [= <- <-]. apply fill_group_pools in Hfill as (? & ? & ?). split_and!; auto.
  - destruct (fill_group _ roomGroup st) as [st1|] eqn:Hfill; [simpl|done].
    intros [= <- <-]. apply fill_group_pools in Hfill as (? & ? & ?). split_and!; auto.
  - destruct (fill_group _ roomGroup st) as [st1|] eqn:Hfill; [simpl|done].
    intros [= <- <-]. apply fill_group_pools in Hfill as (? & ? & ?). split_and!; auto.
  - intros [= <- <-]. simpl. split_and!; auto.
Qed.

Lemma shared_loop_pools sharedRooms : ∀ g st st' g',
  shared_loop g st sharedRooms = Some (st', g') →
  length (maleEmployees st') ≤ length (maleEmployees st)
  ∧ length (femaleEmployees st') ≤ length (femaleEmployees st)
  ∧ ∀ ri, ri ∈ unassignedSharedRooms st' →
      ri ∈ unassignedSharedRooms st
      ∨ ∃ roomGroup, roomGroup ∈ sharedRooms ∧ ri ∈ roomGroup
          ∧ length (maleEmployees st') < length roomGroup
          ∧ length (femaleEmployees st') < length roomGroup.
Proof.
  induction sharedRooms as [|roomGroup rest IH]; intros g st st' g'; simpl.
  - intros [= <- <-]. split_and!; auto.
  - destruct (assign_shared g st roomGroup) as [[st1 g1]|] eqn:Hround; [simpl|done].
    intros (Hm & Hf & Hrest)%IH.
    apply assign_shared_pools in Hround as (Hm1 & Hf1 & Hover).
    split_and!; [lia | lia |]. intros ri Hri.
    destruct (Hrest ri Hri) as [Hin|(G & HG & HriG & HmG & HfG)].
    + destruct Hover as [Hsame|(Hmore & Hm2 & Hf2)].
      * left. by rewrite <- Hsame.
      * rewrite Hmore in Hin. apply elem_of_app in Hin as [Hin|Hin]; [by left|].
        right. exists roomGroup. split_and!; [left | done | lia | lia].
    + right. exists G. split_and!; [by right | done..].
Qed.

(** X5.  A shared group is left to the single slots only for want of
    people: each slot of the overflow list belongs to a shared group that
    has more slots than there are men left, and more than there are women
    left, when the loop over the shared groups ends. *)
Theorem overflow_only_for_want_of_people g data p g1 st g2 ri :
  prepare g data = Some (p, g1) →
  shared_loop g1 (start p) (sharedRooms p) = Some (st, g2) →
  ri ∈ unassignedSharedRooms st →
  ∃ roomGroup, roomGroup ∈ sharedRooms p ∧ ri ∈ roomGroup
    ∧ length (maleEmployees st) < length roomGroup
    ∧ length (femaleEmployees st) < length roomGroup.
Proof.
  intros Hprep Hloop Hri.
  destruct (prepare_ok _ _ _ _ Hprep) as [roomGroups Hp].
  destruct (shared_loop_pools _ _ _ _ _ Hloop) as (_ & _ & Hover).
  destruct (Hover ri Hri) as [Hin|Hgroup]; [|done].
  rewrite (prep_overflow _ _ _ Hp) in Hin. by apply elem_of_nil in Hin.
Qed.

Lemma overflow_only_for_want_of_people_witness :
  ∃ roomGroup, roomGroup ∈ sharedRooms mixed_prepared
    ∧ slot 0 "南-16-1-1001-A" ∈ roomGroup
    ∧ length (maleEmployees mixed_shared) < length roomGroup
    ∧ length (femaleEmployees mixed_shared) < length roomGroup.
Proof.
  apply (overflow_only_for_want_of_people [] mixed mixed_prepared [] mixed_shared []).
  - vm_compute. reflexivity.
  - vm_compute. reflexivity.
  - vm_compute. left.
Defined.

(** ** Further properties of the grouping *)

Lemma sorted_snoc (l : list nat) x :
  StronglySorted lt l → Forall (fun y => y < x) l → StronglySorted lt (l ++ [x]).
Proof.
  induction 1 as [|y l Hl IH Hy]; intros Hall; simpl.
  - repeat constructor.
  - apply Forall_cons in Hall as [Hyx Hall]. constructor; [by apply IH|].
    apply Forall_app. split; [done | by repeat constructor].
Qed.

Lemma add_room_order o index room o' :
  in_row_order index o → add_room o index room = Some o' → in_row_order (S index) o'.
Proof.
  intros Hord. unfold add_room, JsObject.get, in_row_order.
  set (k := baseRoom (parseRoomNumber room)).
  assert (Hweak : ∀ k' l', (k', l') ∈ o →
    StronglySorted lt (RoomInfo.originalIndex <$> l')
    ∧ Forall (fun ri => RoomInfo.originalIndex ri < S index) l').
  { intros k' l' Hin. destruct (Hord k' l' Hin) as [Hs Hb]. split; [done|].
    eapply Forall_impl; [exact Hb|]. simpl. lia. }
  destruct (JsObject.own o k) as [roomList|] eqn:Ho.
  - intros [= <-] k' l' Hin.
    destruct (elem_of_update _ _ _ _ _ Hin) as [[-> ->]|Hin']; [|by apply (Hweak k')].
    destruct (Hord k roomList (own_Some _ _ _ Ho)) as [Hs Hb]. split.
    + rewrite fmap_app. apply sorted_snoc; [done|]. by apply Forall_fmap.
    + apply Forall_app. split; [|repeat constructor; simpl; lia].
      eapply Forall_impl; [exact Hb|]. simpl. lia.
  - case_decide; [done|]. intros [= <-] k' l'.
    unfold JsObject.add. intros [Hin|[= -> ->]%list_elem_of_singleton]%elem_of_app;
      [by apply (Hweak k')|].
    split; repeat constructor; simpl; lia.
Qed.

Lemma group_rooms_order rooms : ∀ o index o',
  in_row_order index o → group_rooms o index rooms = Some o' →
  in_row_order (index + length rooms) o'.
Proof.
  induction rooms as [|room rest IH]; intros o index o' Hord; simpl.
  - intros [= <-]. by rewrite Nat.add_0_r.
  - destruct (add_room o index room) as [o1|] eqn:Hadd; [simpl|done].
    intros Hrest. replace (index + S (length rest)) with (S index + length rest) by lia.
    eapply IH; [|exact Hrest]. by eapply add_room_order.
Qed.

Lemma slot_base index room : base_of (slot index room) = baseRoom (parseRoomNumber room).
Proof. reflexivity. Qed.

Section grouping.
Context (data : list Entry) (p : prepared).

Lemma grouped_slot roomGroups n d :
  prepared_ok data p roomGroups → data !! n = Some d →
  ∃ k l, (k, l) ∈ roomGroups ∧ slot n (roomNumber d) ∈ l
    ∧ k = baseRoom (parseRoomNumber (roomNumber d)).
Proof using Type.
  intros Hp Hn.
  assert (Hin : slot n (roomNumber d) ∈ concat roomGroups.*2).
  { rewrite (prep_all _ _ _ Hp). apply elem_of_slots_from. exists n, (roomNumber d).
    split; [|done]. by rewrite list_lookup_fmap, Hn. }
  apply elem_of_concat in Hin as (l & Hl & Hin).
  apply list_elem_of_fmap in Hl as ([k l'] & -> & Hkl). exists k, l'.
  split_and!; [done | done |].
  destruct (groups_keyed _ (prep_groups_ok _ _ _ Hp) k l' Hkl) as [_ Hk].
  by rewrite <- (Hk _ Hin).
Qed.

Lemma group_slots_of_data roomGroups k l ri :
  prepared_ok data p roomGroups → (k, l) ∈ roomGroups → ri ∈ l →
  ∃ n d, data !! n = Some d ∧ ri = slot n (roomNumber d).
Proof using Type.
  intros Hp Hkl Hri.
  assert (Hin : ri ∈ concat roomGroups.*2).
  { apply elem_of_concat. exists l. split; [|done]. by apply (list_elem_of_fmap_2 snd) in Hkl. }
  rewrite (prep_all _ _ _ Hp) in Hin.
  apply elem_of_slots_from in Hin as (n & room & Hn & ->).
  rewrite list_lookup_fmap in Hn. destruct (data !! n) as [d|] eqn:Hd; simplify_eq/=.
  by exists n, d.
Qed.

End grouping.

(** X6.  What the start of [performLottery] makes of the rows: every
    row is one slot, of a shared group or single; a shared group has two
    slots or more, in the order of the rows; two rows are in one shared
    group exactly when their labels have the same base room; a row is a
    single slot exactly when no other row has its base room. *)
Theorem rooms_are_grouped_by_base_room g data p g' :
  prepare g data = Some (p, g') →
  concat (sharedRooms p) ++ singleRooms p ≡ₚ slots_from 0 (roomNumber <$> data)
  ∧ (∀ roomGroup, roomGroup ∈ sharedRooms p →
       2 ≤ length roomGroup
       ∧ StronglySorted lt (RoomInfo.originalIndex <$> roomGroup))
  ∧ (∀ i j di dj, data !! i = Some di → data !! j = Some dj → i ≠ j →
       baseRoom (parseRoomNumber (roomNumber di)) = baseRoom (parseRoomNumber (roomNumber dj))
       ↔ ∃ roomGroup, roomGroup ∈ sharedRooms p
           ∧ slot i (roomNumber di) ∈ roomGroup ∧ slot j (roomNumber dj) ∈ roomGroup)
  ∧ (∀ i di, data !! i = Some di →
       slot i (roomNumber di) ∈ singleRooms p
       ↔ ∀ j dj, data !! j = Some dj →
           baseRoom (parseRoomNumber (roomNumber dj)) = baseRoom (parseRoomNumber (roomNumber di)) →
           j = i).
Proof.
  intros Hprep. destruct (prepare_ok _ _ _ _ Hprep) as [roomGroups Hp].
  pose proof (prep_groups_ok _ _ _ Hp) as [Hnd _ Hkeyed].
  assert (Hord : in_row_order (0 + length (roomNumber <$> data)) roomGroups).
  { eapply group_rooms_order; [|exact (prep_run _ _ _ Hp)].
    intros k l Hin. by apply elem_of_nil in Hin. }
  split_and!.
  - exact (prep_slots _ _ _ Hp).
  - intros G HG. apply (prep_shared _ _ _ Hp) in HG as [Hlen [k Hk]].
    split; [done|]. by destruct (Hord k G Hk).
  - intros i j di dj Hi Hj Hij. split.
    + intros Hbase.
      destruct (same_room_same_group _ _ _ _ _ _ _ Hp Hij Hi Hj Hbase) as (G & HG & H1 & H2 & _).
      by exists G.
    + intros (G & HG & H1 & H2).
      apply (prep_shared _ _ _ Hp) in HG as [_ [k Hk]].
      destruct (Hkeyed k G Hk) as [_ Hbase].
      pose proof (Hbase _ H1) as Hb1. pose proof (Hbase _ H2) as Hb2.
      rewrite slot_base in Hb1, Hb2. congruence.
  - intros i di Hi. rewrite (prep_single _ _ _ Hp). split.
    + intros [k Hk] j dj Hj Hbase.
      destruct (grouped_slot data p roomGroups j dj Hp Hj) as (k2 & l2 & Hkl2 & Hin2 & Hk2).
      destruct (Hkeyed k _ Hk) as [_ Hbk].
      specialize (Hbk _ (ltac:(left)) ). rewrite slot_base in Hbk.
      assert (k2 = k) as -> by congruence.
      assert (l2 = [slot i (roomNumber di)]) as -> by (by eapply fst_unique).
      apply list_elem_of_singleton in Hin2. by injection Hin2.
    + intros Halone.
      destruct (grouped_slot data p roomGroups i di Hp Hi) as (k & l & Hkl & Hin & Hk).
      exists k. destruct l as [|r1 [|r2 l]].
      * by apply elem_of_nil in Hin.
      * apply list_elem_of_singleton in Hin. by rewrite Hin.
      * exfalso. destruct (Hord k _ Hkl) as [Hsorted _].
        assert (Hother : ∃ rj, rj ∈ r1 :: r2 :: l
                  ∧ RoomInfo.originalIndex rj ≠ i).
        { csimpl in Hsorted. apply StronglySorted_inv in Hsorted as [_ Hlt].
          apply Forall_cons in Hlt as [Hlt _].
          destruct (decide (RoomInfo.originalIndex r1 = i)).
          - exists r2. split; [right; left | lia].
          - exists r1. split; [left | done]. }
        destruct Hother as (rj & Hrj & Hne).
        destruct (group_slots_of_data data p roomGroups k _ rj Hp Hkl Hrj) as (j & dj & Hj & ->).
        simpl in Hne. apply Hne. apply (Halone j dj Hj).
        destruct (Hkeyed k _ Hkl) as [_ Hbk].
        pose proof (Hbk _ Hrj) as Hb. rewrite slot_base in Hb. congruence.
Qed.

Lemma rooms_are_grouped_by_base_room_witness :
  concat (sharedRooms couple_prepared) ++ singleRooms couple_prepared
    ≡ₚ slots_from 0 (roomNumber <$> couple).
Proof.
  apply (rooms_are_grouped_by_base_room [] couple couple_prepared []).
  vm_compute. reflexivity.
Defined.

(** ** Further properties of [shuffleArray] *)

Lemma Math_random_snd g : (Math_random g).2 = drop 1 g.
Proof. by destruct g. Qed.

Lemma shuffle_from_draws {A} i : ∀ g (l : list A), (shuffle_from i g l).2 = drop i g.
Proof.
  induction i as [|i IH]; intros g l; simpl; [by rewrite drop_0|].
  pose proof (Math_random_snd g) as Hsnd.
  destruct (Math_random g) as [r g1]. simpl in Hsnd. rewrite IH, Hsnd.
  rewrite drop_drop. f_equal.
Qed.

Lemma shuffle_from_length {A} i : ∀ g (l : list A), length (shuffle_from i g l).1 = length l.
Proof.
  induction i as [|i IH]; intros g l; simpl; [done|].
  destruct (Math_random g) as [r g1]. by rewrite IH, swap_length.
Qed.

(** X7.  [shuffleArray] keeps what the array holds and how long it is,
    and draws one number for each position but the first. *)
Theorem shuffleArray_spec {A} g (array : list A) :
  (shuffleArray g array).1 ≡ₚ array
  ∧ length (shuffleArray g array).1 = length array
  ∧ (shuffleArray g array).2 = drop (length array - 1) g.
Proof.
  split_and!.
  - apply shuffleArray_Permutation.
  - apply shuffle_from_length.
  - apply shuffle_from_draws.
Qed.

Lemma draw_for_lt j n :
  j < n → (3 * N.of_nat n <= resolution)%N → (draw_for j n < resolution)%N.
Proof.
  intros Hj Hn. unfold draw_for.
  set (J := N.of_nat j). set (M := N.of_nat n). set (R := resolution) in *.
  assert (HM : (0 < M)%N) by lia.
  pose proof (N.Div0.mul_div_le (J * R) M) as Hle.
  set (a := (J * R / M)%N) in *.
  assert (HJ : (J * R + R <= M * R)%N) by (assert (J + 1 <= M)%N by lia; nia).
  nia.
Qed.

Lemma draw_for_floor j n :
  j < n → (3 * N.of_nat n <= resolution)%N → floor_scaled (draw_for j n) n = j.
Proof.
  intros Hj Hn. unfold floor_scaled, draw_for.
  set (J := N.of_nat j). set (M := N.of_nat n). set (R := resolution) in *.
  assert (HM : (0 < M)%N) by lia.
  pose proof (N.Div0.div_mod (J * R) M) as Hdm.
  pose proof (N.mod_lt (J * R) M ltac:(lia)) as Hs.
  set (a := (J * R / M)%N) in *. set (s := ((J * R) mod M)%N) in *.
  assert (Hm : ((a + 2) * M = J * R + 2 * M - s)%N) by nia.
  assert (HJ : (J * R + R <= M * R)%N) by (assert (J + 1 <= M)%N by lia; nia).
  assert (Hlt : ((a + 2) * M < M * R)%N) by lia.
  destruct (round_to_double_close _ _ Hlt) as [Hup Hdown].
  set (x := round_to_double ((a + 2) * M)) in *.
  assert (Hq : (x / R = J)%N); [|rewrite Hq; lia].
  symmetry. apply N.div_unique with (r := (x - J * R)%N); lia.
Qed.

Lemma Math_random_cons d g : (d < resolution)%N → Math_random (d :: g) = (d, g).
Proof. intros Hd. simpl. by rewrite N.mod_small. Qed.

Lemma swap_lookup_target {A} i j (l : list A) x :
  i < length l → l !! j = Some x → swap i j l !! i = Some x.
Proof.
  intros Hi Hj. unfold swap. apply lookup_lt_is_Some_2 in Hi as [y Hy].
  rewrite Hy, Hj. destruct (decide (i = j)) as [->|Hne].
  - rewrite list_lookup_insert_eq; [congruence|]. rewrite length_insert. by eapply lookup_lt_Some.
  - rewrite list_lookup_insert_ne by done. rewrite list_lookup_insert_eq; [done|].
    by eapply lookup_lt_Some.
Qed.

Lemma swap_lookup_other {A} i j (l : list A) k :
  k ≠ i → k ≠ j → swap i j l !! k = l !! k.
Proof.
  intros Hi Hj. unfold swap. destruct (l !! i), (l !! j); try done.
  by rewrite !list_lookup_insert_ne.
Qed.

Lemma swap_take {A} i j (l : list A) n :
  i < n → j < n → take n (swap i j l) = swap i j (take n l).
Proof.
  intros Hi Hj. unfold swap. rewrite !lookup_take_lt by done.
  destruct (l !! i), (l !! j); try done.
  by rewrite !take_insert_lt.
Qed.

(** The loop from position [i] reaches every arrangement of the first
    [i + 1] items. *)
Lemma shuffle_from_reaches {A} i : ∀ (l l' : list A),
  i < length l → (3 * N.of_nat (length l) <= resolution)%N →
  length l' = length l →
  take (S i) l ≡ₚ take (S i) l' → drop (S i) l = drop (S i) l' →
  ∃ g, (shuffle_from i g l).1 = l'.
Proof.
  induction i as [|i IH]; intros l l' Hi Hres Hlen Hperm Hdrop.
  - exists []. simpl. destruct l as [|x l], l' as [|x' l']; simpl in *; try lia.
    rewrite !take_0 in Hperm. apply Permutation_singleton_inj in Hperm.
    rewrite !drop_0 in Hdrop. congruence.
  - destruct (lookup_lt_is_Some_2 l' (S i)) as [x Hx]; [lia|].
    assert (Hin : x ∈ take (S (S i)) l).
    { rewrite Hperm. apply list_elem_of_lookup. exists (S i). by rewrite lookup_take_lt by lia. }
    apply list_elem_of_lookup in Hin as [j Hj].
    assert (Hjlt : j < S (S i)).
    { apply lookup_lt_Some in Hj. rewrite length_take in Hj. lia. }
    rewrite lookup_take_lt in Hj by done.
    set (l1 := swap (S i) j l).
    assert (Hl1 : l1 !! S i = Some x) by (by apply swap_lookup_target).
    assert (Hlen1 : length l1 = length l) by apply swap_length.
    destruct (IH l1 l') as [g Hg].
    + lia.
    + by rewrite Hlen1.
    + by rewrite Hlen1.
    + assert (Hp1 : take (S (S i)) l1 ≡ₚ take (S (S i)) l').
      { unfold l1. rewrite swap_take by lia. by rewrite swap_Permutation. }
      rewrite (take_S_r l1 (S i) x), (take_S_r l' (S i) x) in Hp1 by done.
      by apply (inj (.++ [x])) in Hp1.
    + apply list_eq. intros k. rewrite !lookup_drop.
      destruct k as [|k].
      * rewrite Nat.add_0_r. by rewrite Hl1, Hx.
      * unfold l1. rewrite swap_lookup_other by lia.
        replace (S i + S k) with (S (S i) + k) by lia.
        rewrite <- !lookup_drop. by rewrite Hdrop.
    + exists (draw_for j (S i + 1) :: g).
      cbn [shuffle_from]. rewrite Math_random_cons by (apply draw_for_lt; lia).
      rewrite draw_for_floor by lia. exact Hg.
Qed.

(** X8.  Every arrangement can come out of [shuffleArray]: for an array
    of fewer than [2^32] items, as every array of the language has, and
    any arrangement of it, there are values of [Math.random()] with which
    the shuffle gives that arrangement. *)
Theorem shuffleArray_reaches_every_order {A} (array array' : list A) :
  array ≡ₚ array' → (N.of_nat (length array) < 2 ^ 32)%N →
  ∃ g, (shuffleArray g array).1 = array'.
Proof.
  intros Hperm Hlimit. unfold shuffleArray.
  assert (Hres : (3 * N.of_nat (length array) <= resolution)%N).
  { unfold resolution. change (2 ^ 32)%N with 4294967296%N in Hlimit.
    change (2 ^ 53)%N with 9007199254740992%N. lia. }
  clear Hlimit. destruct array as [|x array].
  { apply Permutation_nil in Hperm as ->. by exists []. }
  assert (Hlen : length array' = length (x :: array)) by (by rewrite Hperm).
  remember (x :: array) as l eqn:Hl.
  assert (Hn : length l = S (length array)) by (by subst l).
  replace (length l - 1) with (length array) by lia.
  apply shuffle_from_reaches; [lia | done | done | |].
  - rewrite !take_ge by lia. done.
  - rewrite !drop_ge by lia. done.
Qed.

Lemma shuffleArray_reaches_every_order_witness :
  ∃ g, (shuffleArray g [1; 2; 3]).1 = [2; 3; 1].
Proof.
  apply (shuffleArray_reaches_every_order [1; 2; 3] [2; 3; 1]).
  - apply (bool_decide_unpack _). vm_compute. exact I.
  - vm_compute. reflexivity.
Defined.

(** ** Further properties of the session *)

Lemma random_row_drawn g data :
  data ≠ [] → drawn_from data (random_row g data).1.
Proof.
  intros Hne. unfold random_row.
  assert (Hlen : 0 < length data) by (destruct data; [done | simpl; lia]).
  pose proof (random_index_lt g (length data) Hlen) as H1.
  destruct (Math_random g) as [r1 g1]. simpl in H1.
  pose proof (random_index_lt g1 (length data) Hlen) as H2.
  destruct (Math_random g1) as [r2 g2]. simpl in H2 |- *.
  apply lookup_lt_is_Some_2 in H1 as [d1 Hd1]. apply lookup_lt_is_Some_2 in H2 as [d2 Hd2].
  exists d1, d2. rewrite (list_lookup_total_correct _ _ _ Hd1).
  rewrite (list_lookup_total_correct _ _ _ Hd2).
  split_and!; try done; by eapply list_elem_of_lookup_2.
Qed.

Lemma random_display_drawn data items : ∀ g,
  data ≠ [] → Forall (drawn_from data) (random_display g data items).1.
Proof.
  induction items as [|x items IH]; intros g Hne; simpl; [constructor|].
  pose proof (random_row_drawn g data Hne) as Hrow.
  destruct (random_row g data) as [row g1]. specialize (IH g1 Hne).
  destruct (random_display g1 data items) as [rows g2]. simpl in *. by constructor.
Qed.

(** X9.  When a live timer fires, the callback it has captured is
    called once, with the flag [true] and a new array: as many rows as the
    data the timer has captured, each made of the person of one of these
    rows and the room of one of these rows.  The fields of the module, the
    timers and the other arrays stay as they are. *)
Theorem tick_shows_a_preview h f w :
  intervals w !! h = Some f →
  let data := read (captured_data f) w in
  let w' := tick h w in
  calls w' = mkCall (captured_callback f) (next_ref w) true :: calls w
  ∧ length (read (next_ref w) w') = length data
  ∧ Forall (drawn_from data) (read (next_ref w) w')
  ∧ this w' = this w
  ∧ intervals w' = intervals w
  ∧ ∀ r, r ≠ next_ref w → store w' !! r = store w !! r.
Proof.
  intros Hf data w'. unfold w', tick. rewrite Hf. fold data.
  pose proof (random_display_fst (random w) data data) as Hlen.
  assert (Hdrawn : Forall (drawn_from data) (random_display (random w) data data).1).
  { destruct data as [|d data']; [constructor|]. by apply random_display_drawn. }
  destruct (random_display (random w) data data) as [randomDisplay g]. simpl in *.
  unfold read. simpl. rewrite lookup_insert_eq. simpl.
  split_and!; try done. intros r Hr. by rewrite lookup_insert_ne.
Qed.

Lemma tick_shows_a_preview_witness :
  let w := startRolling 7 (init 2 (run (initial_world []) [ClientNew couple])) in
  calls (tick 1 w) = mkCall 7 (next_ref w) true :: calls w
  ∧ length (read (next_ref w) (tick 1 w)) = length (read 3 w)
  ∧ Forall (drawn_from (read 3 w)) (read (next_ref w) (tick 1 w))
  ∧ this (tick 1 w) = this w
  ∧ intervals (tick 1 w) = intervals w
  ∧ ∀ r, r ≠ next_ref w → store (tick 1 w) !! r = store w !! r.
Proof.
  intros w.
  apply (tick_shows_a_preview 1 (mkInterval 3 7) w).
  vm_compute. reflexivity.
Defined.

Lemma step_rolling_ok w a : rolling_ok w → rolling_ok (step w a).1.
Proof.
  intros Hok. destruct a as [data|cb|cb| |h|contents|r contents]; unfold step; simpl.
  - intros Hr. done.
  - unfold startRolling. destruct (isRolling (this w)) eqn:Hr; [done|].
    intros _. simpl. eexists _, _. split_and!; [done | apply lookup_insert_eq | done].
  - assert (Hstop : isRolling (this (stopRolling cb w).1) = true → rolling_ok (stopRolling cb w).1).
    { unfold stopRolling. destruct (isRolling (this w)) eqn:Hr; simpl; [|by rewrite Hr].
      destruct (rollInterval (this w)); simpl;
        (destruct (performLottery _ _) as [[res g]|]; simpl; intros; discriminate). }
    unfold receive. destruct (stopRolling cb w) as [w' [r| |]]; simpl in *;
      intros Hr; exact (Hstop Hr Hr).
  - done.
  - unfold tick. destruct (intervals w !! h) as [f|]; [|done].
    by destruct (random_display _ _ _) as [randomDisplay g].
  - done.
  - unfold client_write. by case_decide.
Qed.

Lemma step_handles_ok w a : handles_ok w → handles_ok (step w a).1.
Proof.
  intros Hok. destruct a as [data|cb|cb| |h|contents|r contents]; unfold step; simpl.
  - done.
  - unfold startRolling. destruct (isRolling (this w)); [done|].
    intros h. simpl. rewrite lookup_insert. case_decide; [lia|].
    intros Hh. specialize (Hok h Hh). lia.
  - assert (Hstop : handles_ok (stopRolling cb w).1).
    { unfold stopRolling. destruct (isRolling (this w)); simpl; [|done].
      destruct (rollInterval (this w)) as [h0|]; simpl;
        (destruct (performLottery _ _) as [[res g]|]; simpl; intros h; simpl;
         [ | ]); try apply Hok;
        rewrite lookup_delete; case_decide; try (by intros [? ?]); apply Hok. }
    unfold receive. by destruct (stopRolling cb w) as [w' [r| |]].
  - done.
  - unfold tick. destruct (intervals w !! h) as [f|]; [|done].
    by destruct (random_display _ _ _) as [randomDisplay g].
  - done.
  - unfold client_write. by case_decide.
Qed.

Lemma run_snoc w actions a : run w (actions ++ [a]) = (step (run w actions) a).1.
Proof. unfold run. by rewrite foldl_app. Qed.

Lemma run_invariants g actions :
  rolling_ok (run (initial_world g) actions) ∧ handles_ok (run (initial_world g) actions).
Proof.
  induction actions as [|a actions IH] using rev_ind.
  - split; [done|]. intros h [f Hf]. done.
  - rewrite run_snoc. destruct IH. split; [by apply step_rolling_ok | by apply step_handles_ok].
Qed.

(** X10.  After any calls, firings and writes: while [isRolling] is
    [true], [rollInterval] is the id of a live timer, and that timer shows
    rows of [originalData]. *)
Theorem rolling_has_a_live_timer g actions :
  let w := run (initial_world g) actions in
  isRolling (this w) = true →
  ∃ h f, rollInterval (this w) = Some h ∧ intervals w !! h = Some f
    ∧ captured_data f = originalData (this w).
Proof. intros w. apply (run_invariants g actions). Qed.

Lemma rolling_has_a_live_timer_witness :
  let w := run (initial_world []) [ClientNew couple; Init 2; StartRolling 7; Tick 1] in
  ∃ h f, rollInterval (this w) = Some h ∧ intervals w !! h = Some f
    ∧ captured_data f = originalData (this w).
Proof.
  intros w.
  apply (rolling_has_a_live_timer [] [ClientNew couple; Init 2; StartRolling 7; Tick 1]).
  vm_compute. reflexivity.
Defined.

Lemma tick_keeps h w :
  this (tick h w) = this w ∧ intervals (tick h w) = intervals w
  ∧ next_handle (tick h w) = next_handle w.
Proof.
  unfold tick. destruct (intervals w !! h) as [f|]; [|done].
  by destruct (random_display _ _ _) as [randomDisplay g].
Qed.

Lemma ticks_keep hs : ∀ w,
  this (ticks hs w) = this w ∧ intervals (ticks hs w) = intervals w
  ∧ next_handle (ticks hs w) = next_handle w.
Proof.
  induction hs as [|h hs IH]; intros w; [done|]. simpl.
  destruct (IH (tick h w)) as (-> & -> & ->). apply tick_keeps.
Qed.

(** X11.  From a state the module can reach, with [isRolling]
    [false]: [startRolling], any firings of timers and [stopRolling] leave
    the timers as they were before: the timer of the roll is cleared, and
    [rollInterval] is [null] again. *)
Theorem start_stop_leaves_no_timer g actions cb hs cb' :
  let w := run (initial_world g) actions in
  isRolling (this w) = false →
  let w' := (stopRolling cb' (ticks hs (startRolling cb w))).1 in
  intervals w' = intervals w
  ∧ isRolling (this w') = false
  ∧ rollInterval (this w') = None.
Proof.
  intros w Hr w'.
  destruct (run_invariants g actions) as [_ Hfresh]. fold w in Hfresh.
  assert (Hnew : intervals w !! next_handle w = None).
  { destruct (intervals w !! next_handle w) eqn:Hh; [|done].
    specialize (Hfresh (next_handle w) (ltac:(eauto))). lia. }
  destruct (ticks_keep hs (startRolling cb w)) as (Hthis & Hint & _).
  assert (Hstart : this (startRolling cb w)
            = mkModule (originalData (this w)) (currentData (this w)) true
                (Some (next_handle w))
          ∧ intervals (startRolling cb w)
            = <[next_handle w := mkInterval (originalData (this w)) cb]> (intervals w)).
  { unfold startRolling. by rewrite Hr. }
  destruct Hstart as [Hthis' Hint']. rewrite Hthis' in Hthis. rewrite Hint' in Hint.
  unfold w', stopRolling. set (w2 := ticks hs (startRolling cb w)) in *.
  rewrite Hthis. simpl.
  destruct (performLottery _ _) as [[res g1]|]; simpl;
    by rewrite Hint, delete_insert_eq, delete_id.
Qed.

Lemma start_stop_leaves_no_timer_witness :
  let w := run (initial_world []) [ClientNew couple; Init 2] in
  let w' := (stopRolling 8 (ticks [1; 1] (startRolling 7 w))).1 in
  intervals w' = intervals w
  ∧ isRolling (this w') = false
  ∧ rollInterval (this w') = None.
Proof.
  intros w.
  apply (start_stop_leaves_no_timer [] [ClientNew couple; Init 2] 7 [1; 1] 8).
  reflexivity.
Defined.

Lemma stopRolling_rolling cb w res g' :
  isRolling (this w) = true →
  performLottery (random w) (read (originalData (this w)) w) = Some (res, g') →
  let w' := (stopRolling cb w).1 in
  (stopRolling cb w).2 = Returned (next_ref w)
  ∧ currentData (this w') = next_ref w
  ∧ read (next_ref w) w' = res
  ∧ calls w' = mkCall cb (next_ref w) false :: calls w
  ∧ isRolling (this w') = false
  ∧ random w' = g'.
Proof.
  intros Hr Hp. unfold stopRolling. rewrite Hr. simpl. unfold read in Hp |- *.
  destruct (rollInterval (this w)); simpl; rewrite Hp; simpl;
    rewrite lookup_insert_eq; done.
Qed.

(** X12.  [stopRolling] on a rolling module, [init] having loaded
    [data] and not been called since: when [performLottery] on the rows of
    [data] returns, [stopRolling] returns a new array that holds the result,
    makes it [currentData], calls the callback once, with that array and
    the flag [false], and the module is no longer rolling. *)
Theorem stopRolling_commits_a_lottery g before data actions cb res g' :
  Forall (fun a => is_init a = false) actions →
  let w0 := run (initial_world g) before in
  let w := run (init data w0) actions in
  isRolling (this w) = true →
  performLottery (random w) (read data w0) = Some (res, g') →
  let w' := (stopRolling cb w).1 in
  (stopRolling cb w).2 = Returned (next_ref w)
  ∧ currentData (this w') = next_ref w
  ∧ read (next_ref w) w' = res
  ∧ calls w' = mkCall cb (next_ref w) false :: calls w
  ∧ isRolling (this w') = false
  ∧ random w' = g'.
Proof.
  intros Hno w0 w Hr Hrun.
  assert (Hwf1 : wf (init data w0)) by (apply init_wf, run_wf, wf_initial).
  destruct (run_frame actions _ Hwf1 Hno) as (_ & Ho & Hs). fold w in Ho, Hs.
  destruct (init_spec data w0) as [Hinit _].
  assert (Hread : read (originalData (this w)) w = read data w0).
  { rewrite <- Hinit. unfold read. by rewrite Ho, Hs. }
  apply stopRolling_rolling; [done | by rewrite Hread].
Qed.

Lemma stopRolling_commits_a_lottery_witness :
  let w0 := run (initial_world []) [ClientNew couple] in
  let w := run (init 2 w0) [StartRolling 7; Tick 1] in
  let w' := (stopRolling 7 w).1 in
  (stopRolling 7 w).2 = Returned (next_ref w)
  ∧ currentData (this w') = next_ref w
  ∧ read (next_ref w) w' = couple_result
  ∧ calls w' = mkCall 7 (next_ref w) false :: calls w
  ∧ isRolling (this w') = false
  ∧ random w' = [].
Proof.
  intros w0 w.
  apply (stopRolling_commits_a_lottery [] [ClientNew couple] 2 [StartRolling 7; Tick 1] 7
           couple_result []).
  - repeat constructor.
  - reflexivity.
  - vm_compute. reflexivity.
Defined.

(** X13.  [stopRolling] on a rolling module whose data has a room
    named like a property that every object inherits: the call throws.  The
    roll is over ([isRolling] is [false], [rollInterval] is [null]), but
    [currentData], the arrays and the calls of the callback are as before:
    the callback is not called. *)
Theorem stopRolling_when_the_lottery_throws cb w d :
  isRolling (this w) = true →
  d ∈ read (originalData (this w)) w →
  roomNumber d ∈ JsObject.Object_prototype_names →
  let w' := (stopRolling cb w).1 in
  (stopRolling cb w).2 = Thrown
  ∧ isRolling (this w') = false
  ∧ rollInterval (this w') = None
  ∧ currentData (this w') = currentData (this w)
  ∧ store w' = store w
  ∧ calls w' = calls w.
Proof.
  intros Hr Hd Hname w'.
  assert (Hnone : ∀ g, performLottery g (read (originalData (this w)) w) = None).
  { intros g. apply performLottery_None. exists d. split; [done|].
    by apply base_room_inherited. }
  specialize (Hnone (random w)). unfold w', stopRolling. rewrite Hr. simpl.
  unfold read in Hnone |- *.
  destruct (rollInterval (this w)) as [h|]; simpl; by rewrite Hnone.
Qed.

Lemma stopRolling_when_the_lottery_throws_witness :
  let w := run (initial_world []) [ClientNew odd_room; Init 2; StartRolling 7] in
  let w' := (stopRolling 7 w).1 in
  (stopRolling 7 w).2 = Thrown
  ∧ isRolling (this w') = false
  ∧ rollInterval (this w') = None
  ∧ currentData (this w') = currentData (this w)
  ∧ store w' = store w
  ∧ calls w' = calls w.
Proof.
  intros w.
  apply (stopRolling_when_the_lottery_throws 7 w (mkEntry "E2" female "constructor")).
  - reflexivity.
  - vm_compute. right. left.
  - vm_compute. left.
Defined.

(** X14.  The array that [stopRolling] or [getCurrentData] returns
    is the array [currentData] itself, not a copy: what the client writes
    to it is what [getCurrentData] returns from then on. *)
Theorem returned_array_is_the_current_snapshot w a r contents :
  (step w a).2 = Returned r →
  let w1 := (step w a).1 in
  let w2 := (step w1 (ClientWrite r contents)).1 in
  currentData (this w2) = r
  ∧ read (currentData (this w2)) w2 = contents
  ∧ (getCurrentData w2).2 = Returned r.
Proof.
  intros Hret w1 w2.
  assert (Hcur : currentData (this w1) = r ∧ r ∈ held w1).
  { unfold w1. destruct a as [data|cb|cb| |h|contents'|r' contents']; simpl in Hret |- *;
      try discriminate.
    - pose proof (stopRolling_returns cb w) as Hr. unfold receive in *.
      destruct (stopRolling cb w) as [w' [r'| |]]; simpl in *; try discriminate.
      injection Hret as ->. split; [symmetry; by apply Hr | set_solver].
    - injection Hret as <-. split; [done | set_solver].
  }
  destruct Hcur as [Hcur Hheld].
  unfold w2. simpl. unfold client_write. rewrite decide_True by done.
  unfold getCurrentData, read. simpl. rewrite Hcur, lookup_insert_eq. done.
Qed.

Lemma returned_array_is_the_current_snapshot_witness :
  let w := run (initial_world []) [ClientNew couple; Init 2; StartRolling 7] in
  let w1 := (step w (StopRolling 7)).1 in
  let w2 := (step w1 (ClientWrite 5 [])).1 in
  currentData (this w2) = 5
  ∧ read (currentData (this w2)) w2 = []
  ∧ (getCurrentData w2).2 = Returned 5.
Proof.
  intros w.
  apply (returned_array_is_the_current_snapshot w (StopRolling 7) 5 []).
  vm_compute. reflexivity.
Defined.

(** X15.  [init] keeps copies of its argument: when the client
    writes to the array it has passed to [init], [originalData] and
    [currentData] still hold the rows the array had at the call. *)
Theorem init_copies_its_argument g actions data contents :
  let w := run (initial_world g) actions in
  data ∈ held w →
  let w' := (step (init data w) (ClientWrite data contents)).1 in
  read data w' = contents
  ∧ read (originalData (this w')) w' = read data w
  ∧ read (currentData (this w')) w' = read data w.
Proof.
  intros w Hheld w'.
  assert (Hwf : wf w) by apply run_wf, wf_initial.
  pose proof (wf_held _ Hwf data Hheld) as Hlt.
  unfold w'. simpl. unfold client_write, init. simpl. rewrite decide_True by done.
  unfold read. simpl. rewrite !JSON_copy_id.
  rewrite lookup_insert_eq. rewrite !lookup_insert_ne by lia.
  rewrite lookup_insert_eq. rewrite !lookup_insert_ne by lia.
  by rewrite lookup_insert_eq.
Qed.

Lemma init_copies_its_argument_witness :
  let w := run (initial_world []) [ClientNew couple] in
  let w' := (step (init 2 w) (ClientWrite 2 [])).1 in
  read 2 w' = []
  ∧ read (originalData (this w')) w' = read 2 w
  ∧ read (currentData (this w')) w' = read 2 w.
Proof.
  intros w.
  apply (init_copies_its_argument [] [ClientNew couple] 2 []).
  vm_compute. apply (bool_decide_unpack _). vm_compute. exact I.
Defined.

(** ** The rows [readFile] returns *)


Lemma first_of_its_id_app rows d' i d :
  i < length rows →
  first_of_its_id (rows ++ [d']) i d ↔ first_of_its_id rows i d.
Proof.
  intros Hi. unfold first_of_its_id. split; intros H j c Hj Hc.
  - apply (H j c Hj). by rewrite lookup_app_l by lia.
  - apply (H j c Hj). by rewrite lookup_app_l in Hc by lia.
Qed.

Lemma nonstandard_canonical g : ExcelModule.nonstandard g = false ↔ g = male ∨ g = female.
Proof.
  unfold ExcelModule.nonstandard. rewrite andb_false_iff, !bool_decide_eq_false.
  destruct (decide (g = male)), (decide (g = female)); tauto.
Qed.

Lemma checked_standard g : g = male ∨ g = female → ExcelModule.checked g = g.
Proof.
  intros H. unfold ExcelModule.checked.
  by apply nonstandard_canonical in H as ->.
Qed.

Lemma reads_initial : reads [] ExcelModule.initial.
Proof.
  unfold reads. simpl. split_and!; try done; [apply NoDup_nil_2|].
  intros c. split; [intros Hc; by apply elem_of_nil in Hc | by intros (i & ? & _)].
Qed.

Lemma reads_step rows st r :
  reads rows st → reads (rows ++ [r]) (ExcelModule.read_row st r).
Proof.
  unfold reads. intros (Hids & Hnodup & Hsub & Hmem & Hlen & Hinv).
  unfold ExcelModule.read_row.
  destruct (ExcelModule.fields r) as [[[eid gen] room]|] eqn:Hf.
  2: { assert (entry_of_row r = None) as He by (unfold entry_of_row; by rewrite Hf).
       assert (written_row r = None) as Hw by (unfold written_row; by rewrite Hf).
       rewrite !omap_app. simpl. by rewrite He, Hw, !app_nil_r. }
  set (d := mkEntry eid (ExcelModule.checked gen) room).
  assert (entry_of_row r = Some d) as He by (unfold entry_of_row; by rewrite Hf).
  assert (written_row r = Some (mkEntry eid gen room)) as Hw
    by (unfold written_row; by rewrite Hf).
  rewrite !omap_app. simpl. rewrite He, Hw. clear He Hw Hf.
  set (usable := omap entry_of_row rows) in *.
  assert (Hinv' :
    length (if ExcelModule.nonstandard gen
            then ExcelModule.invalidGenders st
                 ++ [ExcelModule.invalid_gender_line eid gen]
            else ExcelModule.invalidGenders st)
    = length (filter (fun d => ¬ canonical d)
               (omap written_row rows ++ [mkEntry eid gen room]))).
  { rewrite filter_app, length_app, filter_cons, filter_nil.
    assert (Hcanon : canonical (mkEntry eid gen room) ↔ ExcelModule.nonstandard gen = false)
      by (symmetry; apply nonstandard_canonical).
    destruct (ExcelModule.nonstandard gen) eqn:Hg.
    - rewrite decide_True; [rewrite length_app; simpl; by rewrite Hinv|].
      rewrite Hcanon. congruence.
    - rewrite decide_False; [simpl; by rewrite Hinv, Nat.add_0_r|].
      rewrite Hcanon. tauto. }
  assert (Hold : ∀ i c, i < length usable →
            (usable ++ [d]) !! i = Some c ∧ first_of_its_id (usable ++ [d]) i c
            ↔ usable !! i = Some c ∧ first_of_its_id usable i c).
  { intros i c Hi. by rewrite lookup_app_l, first_of_its_id_app by lia. }
  assert (Hsplit : ∀ c, (∃ i, (usable ++ [d]) !! i = Some c ∧ first_of_its_id (usable ++ [d]) i c)
            ↔ c ∈ ExcelModule.result st
              ∨ (c = d ∧ first_of_its_id (usable ++ [d]) (length usable) d)).
  { intros c. rewrite Hmem. split.
    - intros (i & Hi & Hfirst).
      destruct (decide (i < length usable)) as [Hlt|Hge].
      + left. exists i. by apply Hold.
      + right. pose proof (lookup_lt_Some _ _ _ Hi) as Hlt'.
        rewrite length_app in Hlt'. simpl in Hlt'.
        assert (i = length usable) as -> by lia.
        rewrite lookup_app_r, Nat.sub_diag in Hi by lia. by injection Hi as <-.
    - intros [(i & Hi & Hfirst)|[-> Hfirst]].
      + exists i. apply Hold; [by eapply lookup_lt_Some | done].
      + exists (length usable). split; [|done].
        by rewrite lookup_app_r, Nat.sub_diag by lia. }
  case_decide as Hseen; simpl.
  - split_and!; try done.
    + rewrite fmap_app, list_to_set_app_L, <- Hids. simpl.
      rewrite (right_id_L ∅ (∪)), (comm_L (∪)). symmetry.
      by apply subseteq_union_1_L, singleton_subseteq_l.
    + by apply sublist_inserts_r.
    + intros c. rewrite Hsplit. split; [by left|].
      intros [Hc|[-> Hfirst]]; [done|]. exfalso.
      rewrite Hids, elem_of_list_to_set, list_elem_of_fmap in Hseen.
      destruct Hseen as (c & Hid & (j & Hj)%list_elem_of_lookup).
      apply (Hfirst j c); [by eapply lookup_lt_Some | by rewrite lookup_app_l by (by eapply lookup_lt_Some) | done].
    + rewrite !length_app. simpl. lia.
  - assert (Hnew : eid ∉ employeeId <$> usable).
    { intros Hin. apply Hseen. rewrite Hids. by apply elem_of_list_to_set. }
    split_and!; try done.
    + rewrite fmap_app, list_to_set_app_L, <- Hids. simpl.
      by rewrite (right_id_L ∅ (∪)), (comm_L (∪)).
    + rewrite fmap_app. apply NoDup_app. split_and!; [done| |apply NoDup_singleton].
      intros x Hx Hx'. apply list_elem_of_singleton in Hx'. simpl in Hx'. subst x.
      apply Hnew. apply list_elem_of_fmap in Hx as (c & Hid & Hc).
      apply list_elem_of_fmap. exists c. split; [done|]. by eapply elem_of_sublist.
    + by apply sublist_app.
    + intros c. rewrite Hsplit, elem_of_app, list_elem_of_singleton.
      split; (intros [Hc|Hc]; [by left|right]); [|tauto].
      subst c. split; [done|]. intros j c Hj Hc Hid.
      rewrite lookup_app_l in Hc by done. apply Hnew. apply list_elem_of_fmap.
      exists c. split; [done|]. by eapply list_elem_of_lookup_2.
    + rewrite !length_app. simpl. lia.
Qed.

Lemma reads_foldl rows' rows st :
  reads rows st → reads (rows ++ rows') (foldl ExcelModule.read_row st rows').
Proof.
  revert rows st. induction rows' as [|r rows' IH]; intros rows st Hst; simpl.
  - by rewrite app_nil_r.
  - rewrite cons_middle, (assoc_L (++)). by apply IH, reads_step.
Qed.

Lemma read_rows_reads jsonData : reads (drop 1 jsonData) (ExcelModule.read_rows jsonData).
Proof. apply (reads_foldl _ []), reads_initial. Qed.


Lemma sublist_full {A} (l1 l2 : list A) :
  l1 `sublist_of` l2 → length l2 ≤ length l1 → l1 = l2.
Proof.
  induction 1 as [|x l1 l2 Hsub IH|x l1 l2 Hsub IH]; simpl; intros Hlen.
  - done.
  - f_equal. apply IH. lia.
  - apply sublist_length in Hsub. lia.
Qed.

Lemma row_cases r :
  (entry_of_row r = None ∧ written_row r = None)
  ∨ ∃ eid gen room,
      entry_of_row r = Some (mkEntry eid (ExcelModule.checked gen) room)
      ∧ written_row r = Some (mkEntry eid gen room).
Proof.
  unfold entry_of_row, written_row.
  destruct (ExcelModule.fields r) as [[[eid gen] room]|]; simpl; [right|left]; eauto.
Qed.

Lemma usable_written_ids (rows : list (option ExcelModule.row)) :
  employeeId <$> omap entry_of_row rows = employeeId <$> omap written_row rows.
Proof.
  induction rows as [|r rows IH]; [done|]. simpl.
  destruct (row_cases r) as [[-> ->]|(eid & gen & room & -> & ->)]; [done|].
  simpl. by f_equal.
Qed.

Lemma usable_written_same (rows : list (option ExcelModule.row)) :
  Forall canonical (omap written_row rows) →
  omap entry_of_row rows = omap written_row rows.
Proof.
  induction rows as [|r rows IH]; [done|]. simpl.
  destruct (row_cases r) as [[-> ->]|(eid & gen & room & -> & ->)]; [done|].
  intros [Hd Hrows]%Forall_cons. rewrite (checked_standard gen Hd). f_equal. by apply IH.
Qed.

Lemma reads_all_kept rows st :
  reads rows st →
  ExcelModule.duplicates st = [] ↔ NoDup (employeeId <$> omap written_row rows).
Proof.
  intros (Hids & Hnodup & Hsub & Hmem & Hlen & Hinv).
  rewrite <- usable_written_ids. split.
  - intros Hdup. rewrite Hdup in Hlen. simpl in Hlen.
    rewrite <- (sublist_full _ _ Hsub); [done | lia].
  - intros Hnd. apply length_zero_iff_nil.
    enough (length (omap entry_of_row rows) ≤ length (ExcelModule.result st)) by lia.
    apply submseteq_length. apply NoDup_submseteq; [by eapply NoDup_fmap_1|].
    intros d (i & Hi)%list_elem_of_lookup. apply Hmem. exists i. split; [done|].
    intros j d' Hj Hd' Hid.
    assert (j = i); [|lia].
    apply (NoDup_lookup _ _ _ (employeeId d) Hnd); rewrite list_lookup_fmap.
    + rewrite Hd'. simpl. by rewrite Hid.
    + by rewrite Hi.
Qed.

Lemma reads_all_standard rows st :
  reads rows st →
  ExcelModule.invalidGenders st = [] ↔ Forall canonical (omap written_row rows).
Proof.
  intros (_ & _ & _ & _ & _ & Hinv).
  rewrite <- length_zero_iff_nil, Hinv, length_zero_iff_nil. clear Hinv.
  induction (omap written_row rows) as [|d l IH]; [done|].
  rewrite filter_cons, Forall_cons. case_decide as Hd.
  - split; [done | tauto].
  - rewrite IH. tauto.
Qed.

Lemma warnings_nil st :
  ExcelModule.warnings st = [] ↔
  ExcelModule.duplicates st = [] ∧ ExcelModule.invalidGenders st = [].
Proof.
  unfold ExcelModule.warnings.
  destruct (ExcelModule.duplicates st), (ExcelModule.invalidGenders st); simpl;
    repeat case_bool_decide; simpl in *; try lia; split; try done; by intros [? ?].
Qed.

Lemma alert_None jsonData :
  (ExcelModule.readFile jsonData).1 = None ↔
  ExcelModule.warnings (ExcelModule.read_rows jsonData) = [].
Proof.
  unfold ExcelModule.readFile. simpl.
  destruct (ExcelModule.warnings _) as [|warning rest]; [done|].
  rewrite bool_decide_eq_true_2 by (simpl; lia). done.
Qed.

Lemma silent_iff_clean jsonData :
  (ExcelModule.readFile jsonData).1 = None ↔
  NoDup (employeeId <$> written_rows jsonData) ∧ Forall canonical (written_rows jsonData).
Proof.
  pose proof (read_rows_reads jsonData) as Hreads.
  by rewrite alert_None, warnings_nil, (reads_all_kept _ _ Hreads),
    (reads_all_standard _ _ Hreads).
Qed.

Lemma silent_result jsonData :
  (ExcelModule.readFile jsonData).1 = None →
  (ExcelModule.readFile jsonData).2 = written_rows jsonData.
Proof.
  intros [Hnd Hcanon]%silent_iff_clean.
  pose proof (read_rows_reads jsonData) as Hreads.
  unfold written_rows in *. rewrite <- (usable_written_same _ Hcanon).
  apply (reads_all_kept _ _ Hreads) in Hnd.
  destruct Hreads as (_ & _ & Hsub & _ & Hlen & _).
  unfold ExcelModule.readFile. simpl.
  apply sublist_full; [done|]. rewrite Hnd in Hlen. simpl in Hlen. lia.
Qed.

Lemma entry_of_row_fields r d :
  entry_of_row r = Some d →
  ∃ cells, r = Some cells ∧ 3 ≤ length cells
    ∧ employeeId d = ExcelModule.field cells 0 ∧ employeeId d ≠ ""
    ∧ gender d = ExcelModule.checked (ExcelModule.field cells 1)
    ∧ ExcelModule.field cells 1 ≠ ""
    ∧ roomNumber d = ExcelModule.field cells 2 ∧ roomNumber d ≠ "".
Proof.
  unfold entry_of_row, ExcelModule.fields. destruct r as [cells|]; [|done].
  exists cells. destruct (length cells <? 3) eqn:Hlen; [done|].
  apply Nat.ltb_ge in Hlen.
  repeat case_bool_decide; simpl in *; try done.
  injection H as <-. simpl. done.
Qed.

Lemma checked_cases g :
  (g ∈ male :: ExcelModule.male_forms → ExcelModule.checked g = male)
  ∧ (g ∈ female :: ExcelModule.female_forms → ExcelModule.checked g = female)
  ∧ (g ∉ male :: ExcelModule.male_forms ++ female :: ExcelModule.female_forms →
     ExcelModule.checked g = g ∧ g ≠ male ∧ g ≠ female).
Proof.
  assert (Hdisjoint : ∀ x, x ∈ male :: ExcelModule.male_forms →
                           x ∈ female :: ExcelModule.female_forms → False).
  { intros x Hm Hf.
    assert (H : Forall (fun a => Forall (fun b => a ≠ b) (female :: ExcelModule.female_forms))
                  (male :: ExcelModule.male_forms))
      by (apply (bool_decide_unpack _); vm_compute; exact I).
    rewrite Forall_forall in H. specialize (H x Hm).
    rewrite Forall_forall in H. by apply (H x Hf). }
  unfold ExcelModule.checked. destruct (ExcelModule.nonstandard g) eqn:Hns.
  - apply andb_true_iff in Hns as [Hm%bool_decide_eq_true Hf%bool_decide_eq_true].
    split_and!.
    + intros [->|Hin]%elem_of_cons; [done|]. by rewrite bool_decide_eq_true_2.
    + intros [->|Hin]%elem_of_cons; [done|].
      rewrite bool_decide_eq_false_2, bool_decide_eq_true_2; [done..|].
      intros Hin'. apply (Hdisjoint g); by right.
    + intros Hnot. rewrite elem_of_cons, elem_of_app, elem_of_cons in Hnot.
      rewrite !bool_decide_eq_false_2; tauto.
  - apply nonstandard_canonical in Hns. split_and!.
    + intros Hin. destruct Hns as [->| ->]; [done|].
      exfalso. apply (Hdisjoint female); [done | left].
    + intros Hin. destruct Hns as [->| ->]; [|done].
      exfalso. apply (Hdisjoint male); [left | done].
    + intros Hnot. rewrite elem_of_cons, elem_of_app, elem_of_cons in Hnot. tauto.
Qed.

Lemma returned_ids_submseteq g data res g' :
  performLottery g data = Some (res, g') → employeeId <$> res ⊆+ employeeId <$> data.
Proof.
  intros Hrun.
  pose proof (returned_employees _ _ _ _ Hrun) as H1.
  pose proof (pooled_submseteq data) as H2.
  assert (H3 : Employee.employeeId <$> (employee_of <$> res)
                 ⊆+ Employee.employeeId <$> employees_of data)
    by (apply fmap_submseteq; etrans; done).
  unfold employees_of in H3. by rewrite <- !list_fmap_compose in H3.
Qed.

(** X16.  [readFile] returns the rows that pass the two tests, in the
    order of the sheet, but of the rows with one [employeeId] only the
    first: no [employeeId] is twice in the result, and the rows left out
    are as many as [duplicates] has entries. *)
Theorem readFile_keeps_the_first_row_of_each_id jsonData :
  let rows := usable_rows jsonData in
  let res := (ExcelModule.readFile jsonData).2 in
  NoDup (employeeId <$> res)
  ∧ res `sublist_of` rows
  ∧ (∀ d, d ∈ res ↔ ∃ i, rows !! i = Some d ∧ first_of_its_id rows i d)
  ∧ length res + length (ExcelModule.duplicates (ExcelModule.read_rows jsonData))
    = length rows.
Proof.
  destruct (read_rows_reads jsonData) as (_ & Hnodup & Hsub & Hmem & Hlen & _).
  simpl. by split_and!.
Qed.

(** X17.  A row of the result of [readFile] comes from a row of the
    sheet, below the header, with three cells or more: its fields are the
    first three cells, trimmed, none of them empty, except that a gender
    written in one of the six other forms of a gender is replaced by that
    gender.  Any other text is kept as the gender of the row. *)
Theorem readFile_row_of_the_sheet jsonData d :
  d ∈ (ExcelModule.readFile jsonData).2 →
  ∃ i cells,
    1 ≤ i ∧ jsonData !! i = Some (Some cells) ∧ 3 ≤ length cells
    ∧ employeeId d = ExcelModule.field cells 0 ∧ employeeId d ≠ ""
    ∧ roomNumber d = ExcelModule.field cells 2 ∧ roomNumber d ≠ ""
    ∧ gender d ≠ ""
    ∧ let written := ExcelModule.field cells 1 in
      (written ∈ male :: ExcelModule.male_forms → gender d = male)
      ∧ (written ∈ female :: ExcelModule.female_forms → gender d = female)
      ∧ (written ∉ male :: ExcelModule.male_forms ++ female :: ExcelModule.female_forms →
         gender d = written ∧ ¬ canonical d).
Proof.
  intros Hd. destruct (read_rows_reads jsonData) as (_ & _ & Hsub & _).
  pose proof (elem_of_sublist _ _ _ Hd Hsub) as Hin.
  apply list_elem_of_omap in Hin as (r & Hr & Hrow).
  apply list_elem_of_lookup in Hr as (i & Hi). rewrite lookup_drop in Hi.
  apply entry_of_row_fields in Hrow
    as (cells & -> & Hlen & Hid & Hid' & Hg & Hg' & Hroom & Hroom').
  exists (1 + i), cells. split_and!; try done; try lia.
  - rewrite Hg. destruct (checked_cases (ExcelModule.field cells 1)) as (Hm & Hf & Hother).
    destruct (decide (ExcelModule.field cells 1 ∈ male :: ExcelModule.male_forms)) as [H1|H1];
      [by rewrite (Hm H1)|].
    destruct (decide (ExcelModule.field cells 1 ∈ female :: ExcelModule.female_forms)) as [H2|H2];
      [by rewrite (Hf H2)|].
    destruct Hother as [-> _]; [|done].
    rewrite elem_of_cons, elem_of_app. rewrite elem_of_cons in H1. tauto.
  - intros written. rewrite Hg. fold written.
    destruct (checked_cases written) as (Hm & Hf & Hother).
    split_and!; [done..|].
    intros Hnot. destruct (Hother Hnot) as (Heq & ? & ?).
    split; [done|]. unfold canonical. rewrite Hg. fold written. rewrite Heq. tauto.
Qed.

Lemma readFile_row_of_the_sheet_witness :
  ∃ i cells,
    1 ≤ i ∧ a_sheet !! i = Some (Some cells) ∧ 3 ≤ length cells
    ∧ "E4" = ExcelModule.field cells 0 ∧ "E4" ≠ ""
    ∧ "R4" = ExcelModule.field cells 2 ∧ "R4" ≠ ""
    ∧ "X" ≠ ""
    ∧ let written := ExcelModule.field cells 1 in
      (written ∈ male :: ExcelModule.male_forms → "X" = male)
      ∧ (written ∈ female :: ExcelModule.female_forms → "X" = female)
      ∧ (written ∉ male :: ExcelModule.male_forms ++ female :: ExcelModule.female_forms →
         "X" = written ∧ ¬ canonical (mkEntry "E4" "X" "R4")).
Proof.
  apply (readFile_row_of_the_sheet a_sheet (mkEntry "E4" "X" "R4")).
  vm_compute. do 2 right. left.
Defined.

(** X18.  [readFile] shows no warning exactly when, among the rows
    that pass the two tests, no [employeeId] is written twice and every
    gender is written as one of the two genders; it then returns these
    rows as they are written. *)
Theorem readFile_warns_unless_clean jsonData :
  let written := written_rows jsonData in
  ((ExcelModule.readFile jsonData).1 = None ↔
     NoDup (employeeId <$> written) ∧ Forall canonical written)
  ∧ ((ExcelModule.readFile jsonData).1 = None →
     (ExcelModule.readFile jsonData).2 = written).
Proof.
  simpl. split; [apply silent_iff_clean | apply silent_result].
Qed.

(** X19.  The lottery on what [readFile] returns gives no
    [employeeId] twice, whatever the sheet; when [readFile] has shown no
    warning, the people of the result are the people of the rows of the
    sheet that pass the two tests. *)
Theorem lottery_on_a_sheet g jsonData res g' :
  performLottery g (ExcelModule.readFile jsonData).2 = Some (res, g') →
  NoDup (employeeId <$> res)
  ∧ ((ExcelModule.readFile jsonData).1 = None →
     employee_of <$> res ≡ₚ employees_of (written_rows jsonData)).
Proof.
  intros Hrun. split.
  - eapply submseteq_NoDup; [by eapply returned_ids_submseteq|].
    by destruct (read_rows_reads jsonData) as (_ & Hnodup & _).
  - intros Hsilent.
    pose proof (silent_result jsonData Hsilent) as Hsame.
    apply silent_iff_clean in Hsilent as [_ Hcanon].
    rewrite <- Hsame, (performLottery_placed _ _ _ _ Hrun).
    apply pooled_Permutation. by rewrite Hsame.
Qed.

Lemma lottery_on_a_sheet_witness :
  NoDup (employeeId <$> a_sheet_result)
  ∧ ((ExcelModule.readFile a_sheet).1 = None →
     employee_of <$> a_sheet_result ≡ₚ employees_of (written_rows a_sheet)).
Proof.
  apply (lottery_on_a_sheet [] a_sheet a_sheet_result []).
  vm_compute. reflexivity.
Defined.

(** ** The page *)

Lemma run_callbacks_controls before w p :
  let p' := App.run_callbacks before w p in
  App.isLotteryStarted p' = App.isLotteryStarted p
  ∧ App.isLotteryComplete p' = App.isLotteryComplete p
  ∧ App.exportExcelBtn_hidden p' = App.exportExcelBtn_hidden p
  ∧ App.exportPdfBtn_hidden p' = App.exportPdfBtn_hidden p
  ∧ App.homeBtn_hidden p' = App.homeBtn_hidden p.
Proof.
  unfold App.run_callbacks.
  induction (take _ (calls w)) as [|c l IH]; simpl; [done|]. exact IH.
Qed.

Lemma run_callbacks_none w w' p : calls w' = calls w → App.run_callbacks w w' p = p.
Proof. intros Hc. unfold App.run_callbacks. by rewrite Hc, Nat.sub_diag. Qed.

Lemma run_callbacks_one w w' c p :
  calls w' = c :: calls w →
  App.run_callbacks w w' p = App.renderTable (read (shown c) w') (rolling_flag c) p.
Proof.
  intros Hc. unfold App.run_callbacks. rewrite Hc. simpl.
  by replace (S (length (calls w)) - length (calls w)) with 1 by lia.
Qed.

Lemma startRolling_rolls cb w : isRolling (this (startRolling cb w)) = true.
Proof. unfold startRolling. by destruct (isRolling (this w)) eqn:Hr. Qed.

Lemma stopRolling_stops cb w : isRolling (this (stopRolling cb w).1) = false.
Proof.
  unfold stopRolling. destruct (isRolling (this w)) eqn:Hr; simpl; [|done].
  destruct (rollInterval (this w)); simpl;
    by destruct (performLottery _ _) as [[res g]|].
Qed.

Lemma receive_this res : this (receive res).1 = this res.1.
Proof. unfold receive. by destruct res as [w [r| |]]. Qed.

Lemma stopRolling_throws cb w :
  isRolling (this w) = true →
  performLottery (random w) (read (originalData (this w)) w) = None →
  let w' := (stopRolling cb w).1 in
  (stopRolling cb w).2 = Thrown
  ∧ currentData (this w') = currentData (this w)
  ∧ store w' = store w
  ∧ calls w' = calls w.
Proof.
  intros Hr Hp. unfold stopRolling. rewrite Hr. simpl. unfold read in Hp |- *.
  destruct (rollInterval (this w)); simpl; rewrite Hp; done.
Qed.

Lemma tick_store h w r : r ≠ next_ref w → store (tick h w) !! r = store w !! r.
Proof.
  intros Hr. unfold tick. destruct (intervals w !! h) as [f|]; [|done].
  destruct (random_display _ _ _) as [randomDisplay g]. simpl.
  by rewrite lookup_insert_ne.
Qed.

Lemma tick_calls h w :
  calls (tick h w) = calls w
  ∨ ∃ c, calls (tick h w) = c :: calls w.
Proof.
  unfold tick. destruct (intervals w !! h) as [f|]; [|by left].
  destruct (random_display _ _ _) as [randomDisplay g]. simpl. right. eauto.
Qed.

Lemma handle_event_wf s e : wf s.2 → wf (App.handle_event s e).2.
Proof.
  destruct s as [p w]. simpl. intros Hwf. destruct e as [rows| | | |h]; simpl.
  - pose proof (step_wf w (ClientNew rows) Hwf) as H1. simpl in H1.
    destruct (length rows =? 0); simpl; [done|]. by apply init_wf.
  - unfold App.lotteryBtn_click.
    destruct (App.isLotteryComplete p); simpl;
      [by apply (step_wf w (StartRolling App.render))|].
    destruct (App.isLotteryStarted p); simpl;
      [|by apply (step_wf w (StartRolling App.render))].
    pose proof (step_wf w (StopRolling App.render) Hwf) as H1. simpl in H1.
    destruct (receive (stopRolling App.render w)) as [w' [r| |]]; done.
  - pose proof (step_wf w GetCurrentData Hwf) as H1. simpl in H1. done.
  - done.
  - by apply (step_wf w (Tick h)).
Qed.

Lemma handle_event_will_stop s e :
  (click_will_stop s.1 → isRolling (this s.2) = true) →
  click_will_stop (App.handle_event s e).1 →
  isRolling (this (App.handle_event s e).2) = true.
Proof.
  destruct s as [p w]. unfold click_will_stop. simpl. intros Hinv.
  destruct e as [rows| | | |h]; simpl.
  - destruct (length rows =? 0); simpl; [done|]. by intros [? ?].
  - unfold App.lotteryBtn_click.
    destruct (App.isLotteryComplete p) eqn:Hc; simpl;
      [intros _; apply startRolling_rolls|].
    destruct (App.isLotteryStarted p) eqn:Hs; simpl;
      [|intros _; apply startRolling_rolls].
    destruct (receive (stopRolling App.render w)) as [w' [r| |]] eqn:Hstop; simpl;
      try (by intros [? ?]).
    destruct (run_callbacks_controls w w'
      (App.mkPage true true (App.uploadSection_hidden p) (App.lotterySection_hidden p)
         (App.exportExcelBtn_hidden p) (App.exportPdfBtn_hidden p) (App.homeBtn_hidden p)
         false "🔄 重新摇号" true false (App.lotteryBtn_secondary p) (App.tableBody p)))
      as (_ & Hcomplete & _).
    simpl in Hcomplete. rewrite Hcomplete. by intros [? ?].
    destruct (run_callbacks_controls w w'
      (App.mkPage true true (App.uploadSection_hidden p) (App.lotterySection_hidden p)
         (App.exportExcelBtn_hidden p) (App.exportPdfBtn_hidden p) (App.homeBtn_hidden p)
         false "🔄 重新摇号" true false (App.lotteryBtn_secondary p) (App.tableBody p)))
      as (_ & Hcomplete & _).
    simpl in Hcomplete. rewrite Hcomplete. by intros [? ?].
  - done.
  - by intros [? ?].
  - destruct (run_callbacks_controls w (tick h w) p) as (-> & -> & _).
    destruct (tick_keeps h w) as (-> & _). done.
Qed.

Lemma run_events_will_stop g p events :
  let s := App.run_events (first_state g p) events in
  click_will_stop s.1 → isRolling (this s.2) = true.
Proof.
  induction events as [|e events IH] using rev_ind.
  - by intros s [? ?].
  - unfold App.run_events. rewrite foldl_app. simpl.
    by apply handle_event_will_stop.
Qed.

(** X20.  Whatever has happened on the page, when the next click on
    the lottery button is one that stops the lottery, the module is
    rolling: the click runs [performLottery] on the loaded data.  When that
    returns, the module and the table hold its result and the export and
    home buttons are shown; when it throws, the table, the buttons and
    [currentData] stay as they are. *)
Theorem a_click_that_stops_draws_the_lottery g p events :
  let s := App.run_events (first_state g p) events in
  click_will_stop s.1 →
  isRolling (this s.2) = true
  ∧ let s' := App.lotteryBtn_click s in
    App.isLotteryComplete s'.1 = true
    ∧ isRolling (this s'.2) = false
    ∧ match performLottery (random s.2) (read (originalData (this s.2)) s.2) with
      | Some (res, g') =>
          read (currentData (this s'.2)) s'.2 = res
          ∧ random s'.2 = g'
          ∧ App.tableBody s'.1 = (fun item => (item, false)) <$> res
          ∧ App.exportExcelBtn_hidden s'.1 = false
          ∧ App.exportPdfBtn_hidden s'.1 = false
          ∧ App.homeBtn_hidden s'.1 = false
      | None =>
          currentData (this s'.2) = currentData (this s.2)
          ∧ store s'.2 = store s.2
          ∧ App.tableBody s'.1 = App.tableBody s.1
          ∧ App.exportExcelBtn_hidden s'.1 = App.exportExcelBtn_hidden s.1
          ∧ App.exportPdfBtn_hidden s'.1 = App.exportPdfBtn_hidden s.1
          ∧ App.homeBtn_hidden s'.1 = App.homeBtn_hidden s.1
      end.
Proof.
  intros s Hstop. pose proof (run_events_will_stop g p events Hstop) as Hr.
  fold s in Hr. split; [done|].
  destruct s as [pg w]. destruct Hstop as [Hs Hc]. simpl in *.
  unfold App.lotteryBtn_click. rewrite Hc, Hs. simpl.
  pose proof (stopRolling_stops App.render w) as Hoff.
  destruct (performLottery (random w) (read (originalData (this w)) w))
    as [[res g']|] eqn:Hp.
  - destruct (stopRolling_rolling App.render w res g' Hr Hp)
      as (Hret & Hcur & Hread & Hcalls & _ & Hrandom).
    unfold receive. destruct (stopRolling App.render w) as [w' out]. simpl in *.
    subst out. simpl.
    rewrite (run_callbacks_one w (hand_over (next_ref w) w') _ _ Hcalls). simpl.
    rewrite Hcur. unfold read in *. simpl. by rewrite Hread.
  - destruct (stopRolling_throws App.render w Hr Hp) as (Hret & Hcur & Hstore & Hcalls).
    unfold receive. destruct (stopRolling App.render w) as [w' out]. simpl in *.
    subst out. simpl. done.
Qed.

Lemma a_click_that_stops_draws_the_lottery_witness :
  let s := App.run_events (first_state [] a_page) [App.FileRead couple; App.LotteryClick] in
  isRolling (this s.2) = true
  ∧ let s' := App.lotteryBtn_click s in
    App.isLotteryComplete s'.1 = true
    ∧ isRolling (this s'.2) = false
    ∧ match performLottery (random s.2) (read (originalData (this s.2)) s.2) with
      | Some (res, g') =>
          read (currentData (this s'.2)) s'.2 = res
          ∧ random s'.2 = g'
          ∧ App.tableBody s'.1 = (fun item => (item, false)) <$> res
          ∧ App.exportExcelBtn_hidden s'.1 = false
          ∧ App.exportPdfBtn_hidden s'.1 = false
          ∧ App.homeBtn_hidden s'.1 = false
      | None =>
          currentData (this s'.2) = currentData (this s.2)
          ∧ store s'.2 = store s.2
          ∧ App.tableBody s'.1 = App.tableBody s.1
          ∧ App.exportExcelBtn_hidden s'.1 = App.exportExcelBtn_hidden s.1
          ∧ App.exportPdfBtn_hidden s'.1 = App.exportPdfBtn_hidden s.1
          ∧ App.homeBtn_hidden s'.1 = App.homeBtn_hidden s.1
      end.
Proof.
  intros s.
  apply (a_click_that_stops_draws_the_lottery [] a_page [App.FileRead couple; App.LotteryClick]).
  split; reflexivity.
Defined.

Lemma handleFile_loaded rows s :
  wf s.2 → rows ≠ [] → loaded rows (App.handleFile rows s).
Proof.
  destruct s as [p w]. simpl. intros Hwf Hrows. unfold App.handleFile.
  simpl. destruct rows as [|d rows]; [done|]. simpl.
  pose proof (step_wf w (ClientNew (d :: rows)) Hwf) as Hwf1. simpl in Hwf1.
  unfold loaded. simpl. split_and!.
  - by apply init_wf.
  - set (w1 := hand_over _ _) in *.
    destruct (init_spec (next_ref w) w1) as [Hinit _]. fold (read (next_ref w) w1) in *.
    transitivity (read (next_ref w) w1); [exact Hinit|].
    unfold read, w1. simpl. by rewrite lookup_insert_eq.
  - by intros [? ?].
  - by intros [?|?].
Qed.

Lemma handle_event_loaded rows s e :
  App.is_file_read e = false → loaded rows s → loaded rows (App.handle_event s e).
Proof.
  intros He (Hwf & Hrows & Hstop & Hexp).
  assert (Hwf' : wf (App.handle_event s e).2) by by apply handle_event_wf.
  assert (Hstop' : click_will_stop (App.handle_event s e).1 →
                   isRolling (this (App.handle_event s e).2) = true)
    by by apply handle_event_will_stop.
  enough (Hrest :
    (App.exportExcelBtn_hidden (App.handle_event s e).1 = false
     ∨ App.exportPdfBtn_hidden (App.handle_event s e).1 = false →
     App.isLotteryComplete (App.handle_event s e).1 = true
     ∧ holds_a_lottery_of rows (App.handle_event s e).2)
    ∧ read (originalData (this (App.handle_event s e).2)) (App.handle_event s e).2 = rows)
    by (destruct Hrest; by split_and!).
  clear Hwf' Hstop'.
  destruct s as [p w]. simpl in *. destruct e as [rows'| | | |h]; [done|..]; simpl.
  - unfold App.lotteryBtn_click.
    assert (Hstart : read (originalData (this (startRolling App.render w)))
                       (startRolling App.render w) = rows).
    { destruct (startRolling_frame App.render w Hwf) as (_ & Ho & Hs).
      unfold read. by rewrite Ho, Hs. }
    destruct (App.isLotteryComplete p) eqn:Hc.
    { split; [|exact Hstart]. simpl. by intros [?|?]. }
    assert (Hhidden : App.exportExcelBtn_hidden p = true ∧ App.exportPdfBtn_hidden p = true).
    { destruct (App.exportExcelBtn_hidden p) eqn:H1, (App.exportPdfBtn_hidden p) eqn:H2;
        try done; destruct Hexp as [? _]; auto; done. }
    destruct Hhidden as [Hx Hpdf].
    destruct (App.isLotteryStarted p) eqn:Hs; simpl.
    2: { split; [|exact Hstart]. rewrite Hx, Hpdf. by intros [?|?]. }
    specialize (Hstop (conj Hs Hc)).
    destruct (stopRolling_frame App.render w Hwf) as (_ & Ho & Hst).
    destruct (performLottery (random w) (read (originalData (this w)) w))
      as [[res g']|] eqn:Hp.
    + destruct (stopRolling_rolling App.render w res g' Hstop Hp)
        as (Hret & Hcur & Hread & Hcalls & _ & Hrandom).
      unfold receive. destruct (stopRolling App.render w) as [w' out]. simpl in *.
      subst out. simpl. split.
      * intros _.
        match goal with
        | |- context [App.run_callbacks ?a ?b ?c] =>
            destruct (run_callbacks_controls a b c) as (_ & Hcc & _)
        end.
        simpl in Hcc. rewrite Hcc.
        split; [done|]. exists (random w), g'. unfold holds_a_lottery_of. simpl.
        rewrite Hcur.
        change (read (next_ref w) (hand_over (next_ref w) w')) with (read (next_ref w) w').
        rewrite Hread. by rewrite <- Hrows.
      * unfold read in *. simpl. by rewrite Ho, Hst.
    + destruct (stopRolling_throws App.render w Hstop Hp) as (Hret & Hcur & Hstore & Hcalls).
      unfold receive. destruct (stopRolling App.render w) as [w' out]. simpl in *.
      subst out. simpl. rewrite Hx, Hpdf. split; [by intros [?|?]|].
      unfold read in *. by rewrite Ho, Hst.
  - done.
  - split; [by intros [?|?] | done].
  - destruct (run_callbacks_controls w (tick h w) p) as (_ & -> & -> & -> & _).
    destruct (tick_frame h w Hwf) as (_ & Ho & Hs).
    destruct (tick_keeps h w) as (Hthis & _).
    split; [|unfold read in *; by rewrite Ho, Hs].
    intros Hshown. destruct (Hexp Hshown) as [Hc (g1 & g2 & Hlot)]. split; [done|].
    exists g1, g2. unfold holds_a_lottery_of, read in *. rewrite Hthis, tick_store; [done|].
    pose proof (wf_current _ Hwf). lia.
Qed.

Lemma run_events_loaded rows events : ∀ s,
  Forall (fun e => App.is_file_read e = false) events →
  loaded rows s → loaded rows (App.run_events s events).
Proof.
  induction events as [|e events IH]; intros s Hev Hs; [done|].
  apply Forall_cons in Hev as [He Hev]. simpl. apply IH; [done|].
  by apply handle_event_loaded.
Qed.

Lemma run_events_wf g p events : wf (App.run_events (first_state g p) events).2.
Proof.
  induction events as [|e events IH] using rev_ind.
  - apply wf_initial.
  - unfold App.run_events. rewrite foldl_app. simpl. by apply handle_event_wf.
Qed.

(** X21.  Once a file with rows is loaded, and as long as no other
    file is, the module keeps these rows, and whenever an export button is
    shown the array its handler passes to the export function is the
    result of a lottery on them. *)
Theorem what_is_exported_is_a_lottery g p before rows events :
  rows ≠ [] →
  Forall (fun e => App.is_file_read e = false) events →
  let s := App.run_events
             (App.handleFile rows (App.run_events (first_state g p) before)) events in
  read (originalData (this s.2)) s.2 = rows
  ∧ (App.exportExcelBtn_hidden s.1 = false ∨ App.exportPdfBtn_hidden s.1 = false →
     ∃ r g1 g2,
       (App.exportBtn_click s).1 = Returned r
       ∧ performLottery g1 rows = Some (read r s.2, g2)).
Proof.
  intros Hrows Hev s.
  assert (Hloaded : loaded rows s).
  { apply run_events_loaded; [done|]. apply handleFile_loaded; [|done].
    apply run_events_wf. }
  destruct Hloaded as (_ & Hread & _ & Hexp). split; [done|].
  intros Hshown. destruct (Hexp Hshown) as [_ (g1 & g2 & Hlot)].
  destruct s as [pg w]. simpl in *. exists (currentData (this w)), g1, g2. done.
Qed.

Lemma what_is_exported_is_a_lottery_witness :
  let s := App.run_events
             (App.handleFile couple (App.run_events (first_state [] a_page) []))
             [App.LotteryClick; App.TimerFires 1; App.LotteryClick] in
  read (originalData (this s.2)) s.2 = couple
  ∧ (App.exportExcelBtn_hidden s.1 = false ∨ App.exportPdfBtn_hidden s.1 = false →
     ∃ r g1 g2,
       (App.exportBtn_click s).1 = Returned r
       ∧ performLottery g1 couple = Some (read r s.2, g2)).
Proof.
  apply (what_is_exported_is_a_lottery [] a_page [] couple
           [App.LotteryClick; App.TimerFires 1; App.LotteryClick]).
  - done.
  - repeat constructor.
Defined.
